(** * Connection and health monitors of the RocketMQ plugin (health.go)

    A shallow embedding of [ConnectionManager] and [HealthChecker]: the two
    structs live in a heap addressed by locations (they point at each other),
    every method is a computation in a small state monad whose outcomes are
    a normal return, a panic, or a block on a lock, and every call to a
    collaborator (metrics sink, logger, network dial, socket close) is
    appended to an observable trace in program order.

    Each method body of health.go runs under its receiver's lock, so one
    method call is one transition of the world; interleavings of the two
    background loops and of the callers are sequences of such transitions.
    A check cycle samples the connection manager under the manager's own
    lock; a probe cycle racing with it is ordered before or after the
    whole check cycle. *)

From Stdlib Require Import ZArith List Lia.
From stdpp Require Import base option list gmap strings.

Local Open Scope string_scope.
Local Open Scope list_scope.
Local Open Scope Z_scope.

(** ** Data model *)

(** Addresses of heap-allocated structs ([*ConnectionManager],
    [*HealthChecker]); a nullable pointer field is an [option loc]. *)
Definition loc := nat.

(** Handle of a [*Metrics] collaborator (taken to be non-nil: its methods
    are not among the sources) and of an open [net.Conn]. *)
Definition MetricsRef := nat.
Definition Conn := nat.

(** [time.Time] and [time.Duration], both in nanoseconds. *)
Definition Time := Z.
Definition Second : Z := 1000000000.

(** const nameServerProbeTimeout = 3 * time.Second *)
Definition nameServerProbeTimeout : Z := 3 * Second.

(** [chan struct{}] on which nothing is ever sent: only its closed bit matters. *)
Inductive Chan := ChanOpen | ChanClosed.

(** [close(ch)]: closing a closed channel panics. *)
Definition chan_close (ch : Chan) : option Chan :=
  match ch with
  | ChanOpen => Some ChanClosed
  | ChanClosed => None
  end.

(** [case <-ch:] is ready exactly when the channel is closed. *)
Definition chan_ready (ch : Chan) : bool :=
  match ch with
  | ChanOpen => false
  | ChanClosed => true
  end.

(** [sync.RWMutex]: one writer or any number of readers. *)
Record RWMutex := { writer : bool; readers : nat }.

Definition mutex_free : RWMutex := {| writer := false; readers := 0%nat |}.

(** [*time.Ticker]: its period and whether it still fires. *)
Record Ticker := { tk_period : Z; tk_running : bool }.

Definition NewTicker (d : Z) : Ticker := {| tk_period := d; tk_running := true |}.
Definition Ticker_Stop (t : Ticker) : Ticker :=
  {| tk_period := tk_period t; tk_running := false |}.

Record ConnectionManager := {
  cm_metrics : MetricsRef;
  healthChecker : option loc;
  nameServerAddrs : list string;
  cm_mu : RWMutex;
  connected : bool;
  cm_stopCh : Chan }.

Record HealthChecker := {
  hc_metrics : MetricsRef;
  connMgr : option loc;
  hc_mu : RWMutex;
  healthy : bool;
  lastCheck : Time;
  errorCount : Z;
  hc_stopCh : Chan;
  checkTicker : Ticker }.

(** Result of [net.DialTimeout]: a connection, or an error. *)
Inductive DialResult := DialOk (conn : Conn) | DialErr (err : string).

(** Calls that leave the two structs: metrics sink, logger, network. *)
Inductive Event :=
| EvIncrementReconnectionCount (m : MetricsRef)
| EvIncrementHealthCheckCount (m : MetricsRef)
| EvUpdateLastHealthCheck (m : MetricsRef)
| EvSetHealthy (m : MetricsRef) (h : bool)
| EvIncrementHealthCheckErrors (m : MetricsRef)
| EvLogInfo (msg : string)
| EvLogDebug (msg : string) (addrs : list string) (lastErr : string)
| EvLogWarn (msg : string) (errCount : Z) (conn : bool)
| EvDial (network addr : string) (timeout : Z)
| EvConnClose (conn : Conn).

(** A background task spawned by [go cm.run()] / [go hc.run()]; the
    connection manager's loop owns its ticker. *)
Inductive Goroutine :=
| GoCMRun (c : loc) (ticker : Ticker)
| GoHCRun (h : loc).

(** The world: the heap of the two struct types, the spawned background
    tasks, the wall clock, the network (the outcome of the [n]-th dial of
    the run, to a given address), the number of dials made so far, and the
    trace of collaborator calls in program order. *)
Record World := {
  cms : gmap loc ConnectionManager;
  hcs : gmap loc HealthChecker;
  goroutines : list Goroutine;
  clock : Time;
  network : nat -> string -> DialResult;
  dials : nat;
  trace : list Event }.

Definition empty_world (t0 : Time) (net : nat -> string -> DialResult) : World :=
  {| cms := ∅; hcs := ∅; goroutines := []; clock := t0; network := net;
     dials := 0%nat; trace := [] |}.

(** *** Field updates *)

Definition cm_with_healthChecker (o : option loc) (cm : ConnectionManager) :=
  {| cm_metrics := cm_metrics cm; healthChecker := o;
     nameServerAddrs := nameServerAddrs cm; cm_mu := cm_mu cm;
     connected := connected cm; cm_stopCh := cm_stopCh cm |}.

Definition cm_with_mu (mu : RWMutex) (cm : ConnectionManager) :=
  {| cm_metrics := cm_metrics cm; healthChecker := healthChecker cm;
     nameServerAddrs := nameServerAddrs cm; cm_mu := mu;
     connected := connected cm; cm_stopCh := cm_stopCh cm |}.

Definition cm_with_connected (b : bool) (cm : ConnectionManager) :=
  {| cm_metrics := cm_metrics cm; healthChecker := healthChecker cm;
     nameServerAddrs := nameServerAddrs cm; cm_mu := cm_mu cm;
     connected := b; cm_stopCh := cm_stopCh cm |}.

Definition cm_with_stopCh (ch : Chan) (cm : ConnectionManager) :=
  {| cm_metrics := cm_metrics cm; healthChecker := healthChecker cm;
     nameServerAddrs := nameServerAddrs cm; cm_mu := cm_mu cm;
     connected := connected cm; cm_stopCh := ch |}.

Definition hc_with_mu (mu : RWMutex) (hc : HealthChecker) :=
  {| hc_metrics := hc_metrics hc; connMgr := connMgr hc; hc_mu := mu;
     healthy := healthy hc; lastCheck := lastCheck hc;
     errorCount := errorCount hc; hc_stopCh := hc_stopCh hc;
     checkTicker := checkTicker hc |}.

Definition hc_with_healthy (b : bool) (hc : HealthChecker) :=
  {| hc_metrics := hc_metrics hc; connMgr := connMgr hc; hc_mu := hc_mu hc;
     healthy := b; lastCheck := lastCheck hc;
     errorCount := errorCount hc; hc_stopCh := hc_stopCh hc;
     checkTicker := checkTicker hc |}.

Definition hc_with_lastCheck (t : Time) (hc : HealthChecker) :=
  {| hc_metrics := hc_metrics hc; connMgr := connMgr hc; hc_mu := hc_mu hc;
     healthy := healthy hc; lastCheck := t;
     errorCount := errorCount hc; hc_stopCh := hc_stopCh hc;
     checkTicker := checkTicker hc |}.

Definition hc_with_stopCh (ch : Chan) (hc : HealthChecker) :=
  {| hc_metrics := hc_metrics hc; connMgr := connMgr hc; hc_mu := hc_mu hc;
     healthy := healthy hc; lastCheck := lastCheck hc;
     errorCount := errorCount hc; hc_stopCh := ch;
     checkTicker := checkTicker hc |}.

Definition hc_with_checkTicker (t : Ticker) (hc : HealthChecker) :=
  {| hc_metrics := hc_metrics hc; connMgr := connMgr hc; hc_mu := hc_mu hc;
     healthy := healthy hc; lastCheck := lastCheck hc;
     errorCount := errorCount hc; hc_stopCh := hc_stopCh hc;
     checkTicker := t |}.

Definition w_with_cms (m : gmap loc ConnectionManager) (w : World) :=
  {| cms := m; hcs := hcs w; goroutines := goroutines w; clock := clock w;
     network := network w; dials := dials w; trace := trace w |}.

Definition w_with_hcs (m : gmap loc HealthChecker) (w : World) :=
  {| cms := cms w; hcs := m; goroutines := goroutines w; clock := clock w;
     network := network w; dials := dials w; trace := trace w |}.

Definition w_with_goroutines (g : list Goroutine) (w : World) :=
  {| cms := cms w; hcs := hcs w; goroutines := g; clock := clock w;
     network := network w; dials := dials w; trace := trace w |}.

Definition w_with_clock (t : Time) (w : World) :=
  {| cms := cms w; hcs := hcs w; goroutines := goroutines w; clock := t;
     network := network w; dials := dials w; trace := trace w |}.

Definition w_with_dials (n : nat) (w : World) :=
  {| cms := cms w; hcs := hcs w; goroutines := goroutines w; clock := clock w;
     network := network w; dials := n; trace := trace w |}.

Definition w_with_trace (tr : list Event) (w : World) :=
  {| cms := cms w; hcs := hcs w; goroutines := goroutines w; clock := clock w;
     network := network w; dials := dials w; trace := tr |}.

(** ** The monad of method bodies *)

(** A call returns a value and a new world, panics (nil dereference,
    double close, unlock of a free mutex), or blocks on a held lock. *)
Inductive Outcome (A : Type) :=
| Ret (a : A) (w : World)
| Panic
| Blocked.
Arguments Ret {A} a w.
Arguments Panic {A}.
Arguments Blocked {A}.

Definition M (A : Type) := World -> Outcome A.

Definition ret {A} (a : A) : M A := fun w => Ret a w.

Definition bind {A B} (m : M A) (k : A -> M B) : M B :=
  fun w => match m w with
           | Ret a w' => k a w'
           | Panic => Panic
           | Blocked => Blocked
           end.

Notation "'let*' x := m 'in' k" := (bind m (fun x => k))
  (at level 10, x name, m at level 100, k at level 200).
Notation "m ;; k" := (bind m (fun _ => k))
  (at level 100, k at level 200, right associativity).

Definition panic {A} : M A := fun _ => Panic.
Definition block {A} : M A := fun _ => Blocked.

(** A method call through a nullable pointer: nil panics. *)
Definition via {A} (p : option loc) (f : loc -> M A) : M A :=
  match p with
  | Some l => f l
  | None => panic
  end.

(** [p != nil && cond(p)], with Go's short-circuit evaluation. *)
Definition nonnil_and (p : option loc) (cond : loc -> M bool) : M bool :=
  match p with
  | Some l => cond l
  | None => ret false
  end.

(** Dereference of a pointer: nil or dangling panics. *)
Definition get_cm (c : loc) : M ConnectionManager :=
  fun w => match cms w !! c with
           | Some cm => Ret cm w
           | None => Panic
           end.

Definition get_hc (h : loc) : M HealthChecker :=
  fun w => match hcs w !! h with
           | Some hc => Ret hc w
           | None => Panic
           end.

Definition modify_cm (c : loc) (f : ConnectionManager -> ConnectionManager) : M unit :=
  fun w => match cms w !! c with
           | Some cm => Ret tt (w_with_cms (<[c := f cm]> (cms w)) w)
           | None => Panic
           end.

Definition modify_hc (h : loc) (f : HealthChecker -> HealthChecker) : M unit :=
  fun w => match hcs w !! h with
           | Some hc => Ret tt (w_with_hcs (<[h := f hc]> (hcs w)) w)
           | None => Panic
           end.

Definition emit (e : Event) : M unit :=
  fun w => Ret tt (w_with_trace (trace w ++ [e]) w).

(** [time.Now()] *)
Definition time_Now : M Time := fun w => Ret (clock w) w.

(** *** sync.RWMutex *)

Definition mutex_Lock (mu : RWMutex) : option RWMutex :=
  if writer mu then None
  else match readers mu with
       | O => Some {| writer := true; readers := 0%nat |}
       | S _ => None
       end.

Definition mutex_Unlock (mu : RWMutex) : option RWMutex :=
  if writer mu then Some {| writer := false; readers := readers mu |} else None.

Definition mutex_RLock (mu : RWMutex) : option RWMutex :=
  if writer mu then None
  else Some {| writer := false; readers := S (readers mu) |}.

Definition mutex_RUnlock (mu : RWMutex) : option RWMutex :=
  match readers mu with
  | O => None
  | S n => Some {| writer := writer mu; readers := n |}
  end.

(** Acquiring blocks when the lock is held; releasing a lock that is not
    held is a fatal error. *)
Definition cm_acquire (op : RWMutex -> option RWMutex) (c : loc) : M unit :=
  let* cm := get_cm c in
  match op (cm_mu cm) with
  | Some mu => modify_cm c (cm_with_mu mu)
  | None => block
  end.

Definition cm_release (op : RWMutex -> option RWMutex) (c : loc) : M unit :=
  let* cm := get_cm c in
  match op (cm_mu cm) with
  | Some mu => modify_cm c (cm_with_mu mu)
  | None => panic
  end.

Definition hc_acquire (op : RWMutex -> option RWMutex) (h : loc) : M unit :=
  let* hc := get_hc h in
  match op (hc_mu hc) with
  | Some mu => modify_hc h (hc_with_mu mu)
  | None => block
  end.

Definition hc_release (op : RWMutex -> option RWMutex) (h : loc) : M unit :=
  let* hc := get_hc h in
  match op (hc_mu hc) with
  | Some mu => modify_hc h (hc_with_mu mu)
  | None => panic
  end.

Definition cm_Lock := cm_acquire mutex_Lock.
Definition cm_Unlock := cm_release mutex_Unlock.
Definition cm_RLock := cm_acquire mutex_RLock.
Definition cm_RUnlock := cm_release mutex_RUnlock.
Definition hc_Lock := hc_acquire mutex_Lock.
Definition hc_Unlock := hc_release mutex_Unlock.
Definition hc_RLock := hc_acquire mutex_RLock.
Definition hc_RUnlock := hc_release mutex_RUnlock.

(** *** Allocation, goroutines, network *)

Definition alloc_cm (cm : ConnectionManager) : M loc :=
  fun w => let c := fresh (dom (cms w)) in
           Ret c (w_with_cms (<[c := cm]> (cms w)) w).

Definition alloc_hc (hc : HealthChecker) : M loc :=
  fun w => let h := fresh (dom (hcs w)) in
           Ret h (w_with_hcs (<[h := hc]> (hcs w)) w).

(** [go f()] *)
Definition go (g : Goroutine) : M unit :=
  fun w => Ret tt (w_with_goroutines (goroutines w ++ [g]) w).

(** [net.DialTimeout(network, addr, timeout)]: the call is observable, and
    its outcome is the network's answer to this dial. *)
Definition net_DialTimeout (nw addr : string) (timeout : Z) : M DialResult :=
  fun w => Ret (network w (dials w) addr)
               (w_with_dials (S (dials w))
                  (w_with_trace (trace w ++ [EvDial nw addr timeout]) w)).

(** ** HealthChecker (health.go, lines 115-219) *)

(** func NewHealthChecker(metrics *Metrics, connMgr *ConnectionManager) *)
Definition NewHealthChecker (metrics : MetricsRef) (cm : option loc) : M loc :=
  let* t := time_Now in
  alloc_hc {| hc_metrics := metrics;
              connMgr := cm;
              hc_mu := mutex_free;
              healthy := false;
              lastCheck := t;
              errorCount := 0;
              hc_stopCh := ChanOpen;
              checkTicker := NewTicker (10 * Second) |}.

(** func (hc *HealthChecker) Start() *)
Definition HealthChecker_Start (h : loc) : M unit := go (GoHCRun h).

(** func (hc *HealthChecker) Stop() *)
Definition HealthChecker_Stop (h : loc) : M unit :=
  hc_Lock h ;;
  let* hc := get_hc h in
  if chan_ready (hc_stopCh hc) then
    (* Already stopped *)
    hc_Unlock h
  else
    match chan_close (hc_stopCh hc) with
    | None => panic
    | Some ch =>
        modify_hc h (hc_with_stopCh ch) ;;
        modify_hc h (fun hc => hc_with_checkTicker (Ticker_Stop (checkTicker hc)) hc) ;;
        hc_Unlock h
    end.

(** func (hc *HealthChecker) IsHealthy() bool *)
Definition IsHealthy (h : loc) : M bool :=
  hc_RLock h ;;
  let* hc := get_hc h in
  hc_RUnlock h ;;
  ret (healthy hc).

(** func (hc *HealthChecker) GetLastCheck() time.Time *)
Definition GetLastCheck (h : loc) : M Time :=
  hc_RLock h ;;
  let* hc := get_hc h in
  hc_RUnlock h ;;
  ret (lastCheck hc).

(** Conversion [int(x)] of an int64 to the platform's [int] of [intSize]
    bits (32 or 64): two's-complement truncation. *)
Definition to_int (intSize : Z) (x : Z) : Z :=
  (x + 2 ^ (intSize - 1)) mod 2 ^ intSize - 2 ^ (intSize - 1).

(** func (hc *HealthChecker) GetErrorCount() int *)
Definition GetErrorCount (intSize : Z) (h : loc) : M Z :=
  hc_RLock h ;;
  let* hc := get_hc h in
  hc_RUnlock h ;;
  ret (to_int intSize (errorCount hc)).

(** ** ConnectionManager (health.go, lines 13-113) *)

(** func NewConnectionManager(metrics *Metrics, nameServerAddrs []string) *)
Definition NewConnectionManager (metrics : MetricsRef) (addrs : list string) : M loc :=
  let* c := alloc_cm {| cm_metrics := metrics;
                        healthChecker := None;
                        nameServerAddrs := addrs;
                        cm_mu := mutex_free;
                        connected := false;
                        cm_stopCh := ChanOpen |} in
  let* h := NewHealthChecker metrics (Some c) in
  modify_cm c (cm_with_healthChecker (Some h)) ;;
  ret c.

(** func (cm *ConnectionManager) Start() *)
Definition ConnectionManager_Start (c : loc) : M unit :=
  go (GoCMRun c (NewTicker (30 * Second))).

(** func (cm *ConnectionManager) Stop() *)
Definition ConnectionManager_Stop (c : loc) : M unit :=
  cm_Lock c ;;
  let* cm := get_cm c in
  if chan_ready (cm_stopCh cm) then
    (* Already stopped *)
    cm_Unlock c
  else
    match chan_close (cm_stopCh cm) with
    | None => panic
    | Some ch =>
        modify_cm c (cm_with_stopCh ch) ;;
        via (healthChecker cm) HealthChecker_Stop ;;
        cm_Unlock c
    end.

(** func (cm *ConnectionManager) IsConnected() bool *)
Definition IsConnected (c : loc) : M bool :=
  cm_RLock c ;;
  let* cm := get_cm c in
  cm_RUnlock c ;;
  ret (connected cm).

(** func (cm *ConnectionManager) GetHealthChecker() HealthCheckerInterface *)
Definition GetHealthChecker (c : loc) : M (option loc) :=
  let* cm := get_cm c in
  ret (healthChecker cm).

(** func (cm *ConnectionManager) ForceReconnect() *)
Definition ForceReconnect (c : loc) : M unit :=
  cm_Lock c ;;
  modify_cm c (cm_with_connected false) ;;
  let* cm := get_cm c in
  emit (EvIncrementReconnectionCount (cm_metrics cm)) ;;
  emit (EvLogInfo "Forced reconnection") ;;
  cm_Unlock c.

(** The [for _, addr := range cm.nameServerAddrs] loop of checkConnection
    and the assignment after it; [all] is [cm.nameServerAddrs], logged on
    each failure. *)
Fixpoint probe (c : loc) (all : list string) (addrs : list string) : M unit :=
  match addrs with
  | [] => modify_cm c (cm_with_connected false)
  | addr :: rest =>
      let* r := net_DialTimeout "tcp" addr nameServerProbeTimeout in
      match r with
      | DialOk conn =>
          emit (EvConnClose conn) ;;
          modify_cm c (cm_with_connected true)
      | DialErr err =>
          emit (EvLogDebug "RocketMQ NameServer probe failed" all err) ;;
          probe c all rest
      end
  end.

(** func (cm *ConnectionManager) checkConnection() *)
Definition checkConnection (c : loc) : M unit :=
  cm_Lock c ;;
  let* cm := get_cm c in
  match nameServerAddrs cm with
  | [] => modify_cm c (cm_with_connected true)
  | _ :: _ => probe c (nameServerAddrs cm) (nameServerAddrs cm)
  end ;;
  cm_Unlock c.

(** func (hc *HealthChecker) performHealthCheck() *)
Definition performHealthCheck (h : loc) : M unit :=
  hc_Lock h ;;
  let* hc := get_hc h in
  emit (EvIncrementHealthCheckCount (hc_metrics hc)) ;;
  let* t := time_Now in
  modify_hc h (hc_with_lastCheck t) ;;
  emit (EvUpdateLastHealthCheck (hc_metrics hc)) ;;
  let* probing :=
    nonnil_and (connMgr hc)
      (fun c => let* cm := get_cm c in
                ret (0 <? length (nameServerAddrs cm))%nat) in
  (if probing then
     let* b := via (connMgr hc) IsConnected in
     modify_hc h (hc_with_healthy b)
   else if (errorCount hc <? 5)%Z then
     modify_hc h (hc_with_healthy true)
   else
     modify_hc h (hc_with_healthy false)) ;;
  let* hc := get_hc h in
  (if healthy hc then
     emit (EvSetHealthy (hc_metrics hc) true)
   else
     emit (EvSetHealthy (hc_metrics hc) false) ;;
     emit (EvIncrementHealthCheckErrors (hc_metrics hc)) ;;
     let* conn := nonnil_and (connMgr hc) IsConnected in
     emit (EvLogWarn "Health check failed" (errorCount hc) conn)) ;;
  hc_Unlock h.

(** [performHealthCheck] cut in two at the blank line after line 202: the
    statements of lines 197-202 (lock, counter, timestamp), which hand on
    the struct as read on entry, and those of lines 204-218 with the
    deferred unlock. *)
Definition check_bookkeeping (h : loc) : M HealthChecker :=
  hc_Lock h ;;
  let* hc := get_hc h in
  emit (EvIncrementHealthCheckCount (hc_metrics hc)) ;;
  let* t := time_Now in
  modify_hc h (hc_with_lastCheck t) ;;
  emit (EvUpdateLastHealthCheck (hc_metrics hc)) ;;
  ret hc.

Definition check_decision (h : loc) (hc : HealthChecker) : M unit :=
  let* probing :=
    nonnil_and (connMgr hc)
      (fun c => let* cm := get_cm c in
                ret (0 <? length (nameServerAddrs cm))%nat) in
  (if probing then
     let* b := via (connMgr hc) IsConnected in
     modify_hc h (hc_with_healthy b)
   else if (errorCount hc <? 5)%Z then
     modify_hc h (hc_with_healthy true)
   else
     modify_hc h (hc_with_healthy false)) ;;
  let* hc := get_hc h in
  (if healthy hc then
     emit (EvSetHealthy (hc_metrics hc) true)
   else
     emit (EvSetHealthy (hc_metrics hc) false) ;;
     emit (EvIncrementHealthCheckErrors (hc_metrics hc)) ;;
     let* conn := nonnil_and (connMgr hc) IsConnected in
     emit (EvLogWarn "Health check failed" (errorCount hc) conn)) ;;
  hc_Unlock h.

(** Both components have the same [Stop()] contract; one name for either. *)
Inductive Component :=
| OfConnectionManager (c : loc)
| OfHealthChecker (h : loc).

Definition Stop (x : Component) : M unit :=
  match x with
  | OfConnectionManager c => ConnectionManager_Stop c
  | OfHealthChecker h => HealthChecker_Stop h
  end.

(** ** The background loops *)

(** Which case of the [select] in [run] fires. *)
Inductive SelectCase := CaseStop | CaseTick.

(** One iteration of [for { select { ... } }] in
    [func (cm *ConnectionManager) run()]; [false] when the loop returns.
    The stop case is ready only on a closed [stopCh]. *)
Definition ConnectionManager_run (c : loc) (choice : SelectCase) : M bool :=
  match choice with
  | CaseStop =>
      let* cm := get_cm c in
      if chan_ready (cm_stopCh cm) then ret false else block
  | CaseTick => checkConnection c ;; ret true
  end.

(** One iteration of the loop of [func (hc *HealthChecker) run()]. *)
Definition HealthChecker_run (h : loc) (choice : SelectCase) : M bool :=
  match choice with
  | CaseStop =>
      let* hc := get_hc h in
      if chan_ready (hc_stopCh hc) then ret false else block
  | CaseTick => performHealthCheck h ;; ret true
  end.

Definition is_cm_run (c : loc) (g : Goroutine) : bool :=
  match g with
  | GoCMRun c' _ => Nat.eqb c c'
  | GoHCRun _ => false
  end.

Definition is_hc_run (h : loc) (g : Goroutine) : bool :=
  match g with
  | GoCMRun _ _ => false
  | GoHCRun h' => Nat.eqb h h'
  end.

Fixpoint remove_first (p : Goroutine -> bool) (gs : list Goroutine) : list Goroutine :=
  match gs with
  | [] => []
  | g :: rest => if p g then rest else g :: remove_first p rest
  end.

(** Only a spawned loop takes a turn; a loop that returns is gone. *)
Definition scheduled (p : Goroutine -> bool) : M unit :=
  fun w => if existsb p (goroutines w) then Ret tt w else Blocked.

Definition exit_goroutine (p : Goroutine -> bool) : M unit :=
  fun w => Ret tt (w_with_goroutines (remove_first p (goroutines w)) w).

Definition loop_turn (p : Goroutine -> bool) (iter : M bool) : M unit :=
  scheduled p ;;
  let* continue := iter in
  if continue then ret tt else exit_goroutine p.

(** ** Transitions of the whole system *)

(** What callers, the two loops and the passing of time can do. *)
Inductive Op :=
| OpNewConnectionManager (metrics : MetricsRef) (addrs : list string)
| OpNewHealthChecker (metrics : MetricsRef) (cm : option loc)
| OpCMStart (c : loc)
| OpCMStop (c : loc)
| OpIsConnected (c : loc)
| OpGetHealthChecker (c : loc)
| OpForceReconnect (c : loc)
| OpCheckConnection (c : loc)
| OpCMLoop (c : loc) (choice : SelectCase)
| OpHCStart (h : loc)
| OpHCStop (h : loc)
| OpIsHealthy (h : loc)
| OpGetLastCheck (h : loc)
| OpGetErrorCount (intSize : Z) (h : loc)
| OpPerformHealthCheck (h : loc)
| OpHCLoop (h : loc) (choice : SelectCase)
| OpAdvance (d : Z).

Definition discard {A} (m : M A) : M unit := m ;; ret tt.

Definition exec (o : Op) : M unit :=
  match o with
  | OpNewConnectionManager m addrs => discard (NewConnectionManager m addrs)
  | OpNewHealthChecker m cm => discard (NewHealthChecker m cm)
  | OpCMStart c => ConnectionManager_Start c
  | OpCMStop c => ConnectionManager_Stop c
  | OpIsConnected c => discard (IsConnected c)
  | OpGetHealthChecker c => discard (GetHealthChecker c)
  | OpForceReconnect c => ForceReconnect c
  | OpCheckConnection c => checkConnection c
  | OpCMLoop c choice => loop_turn (is_cm_run c) (ConnectionManager_run c choice)
  | OpHCStart h => HealthChecker_Start h
  | OpHCStop h => HealthChecker_Stop h
  | OpIsHealthy h => discard (IsHealthy h)
  | OpGetLastCheck h => discard (GetLastCheck h)
  | OpGetErrorCount n h => discard (GetErrorCount n h)
  | OpPerformHealthCheck h => performHealthCheck h
  | OpHCLoop h choice => loop_turn (is_hc_run h) (HealthChecker_run h choice)
  | OpAdvance d => fun w => Ret tt (w_with_clock (clock w + d) w)
  end.

(** Arguments a Go caller can pass: a pointer is nil or points at a live
    struct, and time does not run backwards. *)
Definition admissible (w : World) (o : Op) : Prop :=
  match o with
  | OpNewHealthChecker _ (Some c) => is_Some (cms w !! c)
  | OpAdvance d => 0 <= d
  | _ => True
  end.

Definition step (w : World) (o : Op) (w' : World) : Prop :=
  admissible w o /\ exec o w = Ret tt w'.

(** States the system can be in between two method calls. *)
Inductive reachable : World -> Prop :=
| reachable_init t0 net : reachable (empty_world t0 net)
| reachable_step w o w' : reachable w -> step w o w' -> reachable w'.

(** The spec's state machine, read off a component: stopped once the stop
    channel is closed, running while a loop of it is spawned. *)
Inductive Lifecycle := Created | Running | Stopped.

Definition cm_state (w : World) (c : loc) : option Lifecycle :=
  cm ← cms w !! c;
  Some (if chan_ready (cm_stopCh cm) then Stopped
        else if existsb (is_cm_run c) (goroutines w) then Running
        else Created).

Definition hc_state (w : World) (h : loc) : option Lifecycle :=
  hc ← hcs w !! h;
  Some (if chan_ready (hc_stopCh hc) then Stopped
        else if existsb (is_hc_run h) (goroutines w) then Running
        else Created).

(** ** The metrics sink *)

Definition count_events (p : Event -> bool) (tr : list Event) : nat :=
  length (List.filter p tr).

Definition is_reconnection (m : MetricsRef) (e : Event) : bool :=
  match e with
  | EvIncrementReconnectionCount m' => Nat.eqb m m'
  | _ => false
  end.

Definition is_health_check (m : MetricsRef) (e : Event) : bool :=
  match e with
  | EvIncrementHealthCheckCount m' => Nat.eqb m m'
  | _ => false
  end.

Definition is_health_check_error (m : MetricsRef) (e : Event) : bool :=
  match e with
  | EvIncrementHealthCheckErrors m' => Nat.eqb m m'
  | _ => false
  end.

Definition is_dial (e : Event) : bool :=
  match e with
  | EvDial _ _ _ => true
  | _ => false
  end.

(** Modelled from the spec: the type [Metrics] is not among the sources.
    Its sink "must expose operations - increment reconnection count,
    increment health-check-performed count, record last-health-check
    timestamp, set healthy/unhealthy gauge, increment health-check-error
    count", so a counter of sink [m] is the number of its increment calls. *)
Definition reconnection_count (m : MetricsRef) (w : World) : nat :=
  count_events (is_reconnection m) (trace w).

(** Modelled from the spec: the "health check performed" counter of the
    absent [Metrics] type, one per [IncrementHealthCheckCount] call. *)
Definition health_check_count (m : MetricsRef) (w : World) : nat :=
  count_events (is_health_check m) (trace w).

(** Modelled from the spec: the "error" counter of the absent [Metrics]
    type, one per [IncrementHealthCheckErrors] call. *)
Definition health_check_errors (m : MetricsRef) (w : World) : nat :=
  count_events (is_health_check_error m) (trace w).

(** Modelled from the spec: the healthy/unhealthy gauge of the absent
    [Metrics] type holds the argument of the last [SetHealthy] call. *)
Fixpoint healthy_gauge_of (m : MetricsRef) (tr : list Event) (acc : option bool) : option bool :=
  match tr with
  | [] => acc
  | EvSetHealthy m' b :: rest =>
      healthy_gauge_of m rest (if Nat.eqb m m' then Some b else acc)
  | _ :: rest => healthy_gauge_of m rest acc
  end.

Definition healthy_gauge (m : MetricsRef) (w : World) : option bool :=
  healthy_gauge_of m (trace w) None.

(** The number of dials a world has seen. *)
Definition dial_count (w : World) : nat := count_events is_dial (trace w).

(** ** Closed forms used to state the effect of a cycle *)

(** The verdict of one check cycle, read off the world it starts in. *)
Definition check_verdict (w : World) (hc : HealthChecker) : bool :=
  match connMgr hc with
  | Some c =>
      match cms w !! c with
      | Some cm =>
          if (0 <? length (nameServerAddrs cm))%nat then connected cm
          else (errorCount hc <? 5)%Z
      | None => (errorCount hc <? 5)%Z
      end
  | None => (errorCount hc <? 5)%Z
  end.

(** The connectivity flag the warning of an unhealthy cycle carries. *)
Definition connectivity_flag (w : World) (hc : HealthChecker) : bool :=
  match connMgr hc with
  | Some c => match cms w !! c with
              | Some cm => connected cm
              | None => false
              end
  | None => false
  end.

(** What a cycle reports about its verdict [b]. *)
Definition verdict_events (w : World) (hc : HealthChecker) (b : bool) : list Event :=
  if b then [EvSetHealthy (hc_metrics hc) true]
  else [EvSetHealthy (hc_metrics hc) false;
        EvIncrementHealthCheckErrors (hc_metrics hc);
        EvLogWarn "Health check failed" (errorCount hc) (connectivity_flag w hc)].

Definition check_events (w : World) (hc : HealthChecker) : list Event :=
  [EvIncrementHealthCheckCount (hc_metrics hc);
   EvUpdateLastHealthCheck (hc_metrics hc)]
  ++ verdict_events w hc (check_verdict w hc).

(** The connection manager a health checker samples can be read: it is
    allocated and no writer holds its lock. *)
Definition cm_readable (w : World) (hc : HealthChecker) : Prop :=
  forall c, connMgr hc = Some c ->
            exists cm, cms w !! c = Some cm /\ writer (cm_mu cm) = false.

Definition dial_error (r : DialResult) : string :=
  match r with
  | DialErr e => e
  | DialOk _ => ""
  end.

(** The calls made for a run of endpoints that all fail, the first of them
    being dial number [n]: per endpoint, the dial and the debug entry. *)
Fixpoint failed_probes (net : nat -> string -> DialResult) (n : nat)
    (all addrs : list string) : list Event :=
  match addrs with
  | [] => []
  | a :: rest =>
      EvDial "tcp" a nameServerProbeTimeout
        :: EvLogDebug "RocketMQ NameServer probe failed" all (dial_error (net n a))
        :: failed_probes net (S n) all rest
  end.

(** Every endpoint of [addrs] fails when dialled in order from dial [n]. *)
Definition all_fail (net : nat -> string -> DialResult) (n : nat)
    (addrs : list string) : Prop :=
  forall i a, addrs !! i = Some a -> exists e, net (n + i)%nat a = DialErr e.

(** A health checker after its first [Stop()]. *)
Definition hc_stopped (hc : HealthChecker) : HealthChecker :=
  hc_with_checkTicker (Ticker_Stop (checkTicker hc)) (hc_with_stopCh ChanClosed hc).

(** What the heap of health checkers looks like after [hc.Stop()]. *)
Definition hcs_after_stop (h : loc) (hc : HealthChecker)
    (hs : gmap loc HealthChecker) : gmap loc HealthChecker :=
  match hc_stopCh hc with
  | ChanOpen => <[h := hc_stopped hc]> hs
  | ChanClosed => hs
  end.

(** The struct [NewHealthChecker] allocates at time [t]. *)
Definition new_hc (metrics : MetricsRef) (cm : option loc) (t : Time) : HealthChecker :=
  {| hc_metrics := metrics; connMgr := cm; hc_mu := mutex_free; healthy := false;
     lastCheck := t; errorCount := 0; hc_stopCh := ChanOpen;
     checkTicker := NewTicker (10 * Second) |}.

(** The struct [NewConnectionManager] allocates, once its health checker
    [h] is set. *)
Definition new_cm (metrics : MetricsRef) (addrs : list string) (h : option loc)
  : ConnectionManager :=
  {| cm_metrics := metrics; healthChecker := h; nameServerAddrs := addrs;
     cm_mu := mutex_free; connected := false; cm_stopCh := ChanOpen |}.

(** ** Invariant of the states between two calls *)

Definition cm_ok (hs : gmap loc HealthChecker) (cm : ConnectionManager) : Prop :=
  cm_mu cm = mutex_free /\
  exists h, healthChecker cm = Some h /\ is_Some (hs !! h).

Definition hc_ok (cs : gmap loc ConnectionManager) (hc : HealthChecker) : Prop :=
  hc_mu hc = mutex_free /\
  errorCount hc = 0 /\
  (forall c, connMgr hc = Some c -> is_Some (cs !! c)) /\
  (hc_stopCh hc = ChanClosed -> tk_running (checkTicker hc) = false).

Definition heap_inv (cs : gmap loc ConnectionManager)
    (hs : gmap loc HealthChecker) : Prop :=
  (forall c cm, cs !! c = Some cm -> cm_ok hs cm) /\
  (forall h hc, hs !! h = Some hc -> hc_ok cs hc).

Definition quiescent (w : World) : Prop := heap_inv (cms w) (hcs w).

(** What one transition does to the two heaps, per operation. *)
Definition heap_effect (w : World) (o : Op) (w' : World) : Prop :=
  match o with
  | OpNewConnectionManager m addrs =>
      let c := fresh (dom (cms w)) in
      let h := fresh (dom (hcs w)) in
      cms w' = <[c := new_cm m addrs (Some h)]> (cms w) /\
      hcs w' = <[h := new_hc m (Some c) (clock w)]> (hcs w)
  | OpNewHealthChecker m cm =>
      cms w' = cms w /\
      hcs w' = <[fresh (dom (hcs w)) := new_hc m cm (clock w)]> (hcs w)
  | OpCMStop c =>
      exists cm, cms w !! c = Some cm /\
        ((cm_stopCh cm = ChanClosed /\ cms w' = cms w /\ hcs w' = hcs w) \/
         (cm_stopCh cm = ChanOpen /\
          exists h hc, healthChecker cm = Some h /\ hcs w !! h = Some hc /\
                       cms w' = <[c := cm_with_stopCh ChanClosed cm]> (cms w) /\
                       hcs w' = hcs_after_stop h hc (hcs w)))
  | OpForceReconnect c | OpCheckConnection c | OpCMLoop c CaseTick =>
      exists cm b, cms w !! c = Some cm /\
        cms w' = <[c := cm_with_connected b cm]> (cms w) /\ hcs w' = hcs w
  | OpHCStop h =>
      exists hc, hcs w !! h = Some hc /\
        cms w' = cms w /\ hcs w' = hcs_after_stop h hc (hcs w)
  | OpPerformHealthCheck h | OpHCLoop h CaseTick =>
      exists hc, hcs w !! h = Some hc /\
        cms w' = cms w /\
        hcs w' = <[h := hc_with_healthy (check_verdict w hc)
                          (hc_with_lastCheck (clock w) hc)]> (hcs w)
  | _ => cms w' = cms w /\ hcs w' = hcs w
  end.

(** The operations that run a check cycle of health checker [h]: a direct
    call of [performHealthCheck] and a tick of its loop. *)
Definition is_check_cycle (h : loc) (o : Op) : bool :=
  match o with
  | OpPerformHealthCheck h' => Nat.eqb h h'
  | OpHCLoop h' CaseTick => Nat.eqb h h'
  | _ => false
  end.

(** The fallback regime of a health checker: no connection manager bound,
    or one whose endpoint set is empty. *)
Definition fallback_regime (w : World) (hc : HealthChecker) : Prop :=
  connMgr hc = None \/
  exists c cm, connMgr hc = Some c /\ cms w !! c = Some cm /\
               nameServerAddrs cm = [].

(** ** Sample worlds *)

(** A network in which only 10.0.0.2:9876 accepts connections. *)
Definition sample_net (n : nat) (addr : string) : DialResult :=
  if String.eqb addr "10.0.0.2:9876" then DialOk n
  else DialErr "connection refused".

(** The world a call leaves (the start world if it does not return). *)
Definition after {A} (m : M A) (w : World) : World :=
  match m w with
  | Ret _ w' => w'
  | Panic | Blocked => w
  end.

(** A fresh process in which one connection manager was constructed. *)
Definition sample_world (addrs : list string) : World :=
  after (NewConnectionManager 1%nat addrs) (empty_world 0 sample_net).

Definition three_endpoints : list string :=
  ["10.0.0.1:9876"; "10.0.0.2:9876"; "10.0.0.3:9876"].

(** The sample connection manager after one probe cycle. *)
Definition probed_world (addrs : list string) : World :=
  after (checkConnection 0%nat) (sample_world addrs).

(** ** Further notions *)

(** Sequences of transitions. *)
Inductive steps : World -> list Op -> World -> Prop :=
| steps_nil w : steps w [] w
| steps_cons w o w1 os w2 : step w o w1 -> steps w1 os w2 -> steps w (o :: os) w2.

(** The operations that write [connected] of connection manager [c]: a
    forced reconnection and a probe cycle, called directly or by its loop. *)
Definition writes_connected (c : loc) (o : Op) : bool :=
  match o with
  | OpForceReconnect c' => Nat.eqb c c'
  | OpCheckConnection c' => Nat.eqb c c'
  | OpCMLoop c' CaseTick => Nat.eqb c c'
  | _ => false
  end.

(** The operations that run a probe cycle. *)
Definition is_probe_cycle (o : Op) : bool :=
  match o with
  | OpCheckConnection _ => true
  | OpCMLoop _ CaseTick => true
  | _ => false
  end.

(** The calls of a probe cycle: dials, debug entries, closes. *)
Definition is_probe_event (e : Event) : bool :=
  match e with
  | EvDial _ _ _ | EvLogDebug _ _ _ | EvConnClose _ => true
  | _ => false
  end.

(** Reading a trace from dial number [n] on: every dial that succeeds is
    followed at once by the close of the connection it returned, nothing
    else is closed, and no connection is pending at the end.  The result is
    the number of the next dial. *)
Fixpoint sockets_balanced (net : nat -> string -> DialResult) (n : nat)
    (pending : option Conn) (tr : list Event) : option nat :=
  match tr with
  | [] => match pending with
          | None => Some n
          | Some _ => None
          end
  | e :: rest =>
      match pending with
      | Some conn =>
          match e with
          | EvConnClose conn' =>
              if Nat.eqb conn conn' then sockets_balanced net n None rest else None
          | _ => None
          end
      | None =>
          match e with
          | EvDial _ addr _ =>
              match net n addr with
              | DialOk conn => sockets_balanced net (S n) (Some conn) rest
              | DialErr _ => sockets_balanced net (S n) None rest
              end
          | EvConnClose _ => None
          | _ => sockets_balanced net n None rest
          end
      end
  end.

(** What a probe cycle that starts at dial [n] adds to the trace: only
    probe calls, [k] dials among them, every opened socket closed. *)
Definition probe_trace (net : nat -> string -> DialResult) (n : nat)
    (tr : list Event) (k : nat) : Prop :=
  Forall (fun e => is_probe_event e = true) tr /\
  count_events is_dial tr = k /\
  sockets_balanced net n None tr = Some (n + k)%nat.

(** What one transition does to the whole world, per operation. *)
Definition world_effect (w : World) (o : Op) (w' : World) : Prop :=
  match o with
  | OpNewConnectionManager m addrs =>
      let c := fresh (dom (cms w)) in
      let h := fresh (dom (hcs w)) in
      w' = w_with_cms (<[c := new_cm m addrs (Some h)]> (cms w))
             (w_with_hcs (<[h := new_hc m (Some c) (clock w)]> (hcs w)) w)
  | OpNewHealthChecker m cm =>
      w' = w_with_hcs (<[fresh (dom (hcs w)) := new_hc m cm (clock w)]> (hcs w)) w
  | OpCMStart c =>
      w' = w_with_goroutines (goroutines w ++ [GoCMRun c (NewTicker (30 * Second))]) w
  | OpHCStart h =>
      w' = w_with_goroutines (goroutines w ++ [GoHCRun h]) w
  | OpCMStop c =>
      exists cm, cms w !! c = Some cm /\
        ((cm_stopCh cm = ChanClosed /\ w' = w) \/
         (cm_stopCh cm = ChanOpen /\
          exists h hc, healthChecker cm = Some h /\ hcs w !! h = Some hc /\
            w' = w_with_hcs (hcs_after_stop h hc (hcs w))
                   (w_with_cms (<[c := cm_with_stopCh ChanClosed cm]> (cms w)) w)))
  | OpHCStop h =>
      exists hc, hcs w !! h = Some hc /\
        w' = w_with_hcs (hcs_after_stop h hc (hcs w)) w
  | OpForceReconnect c =>
      exists cm, cms w !! c = Some cm /\
        w' = w_with_trace
               (trace w ++ [EvIncrementReconnectionCount (cm_metrics cm);
                            EvLogInfo "Forced reconnection"])
               (w_with_cms (<[c := cm_with_connected false cm]> (cms w)) w)
  | OpCheckConnection c | OpCMLoop c CaseTick =>
      exists cm b k tr, cms w !! c = Some cm /\
        probe_trace (network w) (dials w) tr k /\
        w' = w_with_cms (<[c := cm_with_connected b cm]> (cms w))
               (w_with_dials (dials w + k)%nat (w_with_trace (trace w ++ tr) w))
  | OpCMLoop c CaseStop =>
      (exists cm, cms w !! c = Some cm /\ cm_stopCh cm = ChanClosed) /\
      existsb (is_cm_run c) (goroutines w) = true /\
      w' = w_with_goroutines (remove_first (is_cm_run c) (goroutines w)) w
  | OpPerformHealthCheck h | OpHCLoop h CaseTick =>
      exists hc, hcs w !! h = Some hc /\
        w' = w_with_trace (trace w ++ check_events w hc)
               (w_with_hcs (<[h := hc_with_healthy (check_verdict w hc)
                                     (hc_with_lastCheck (clock w) hc)]> (hcs w)) w)
  | OpHCLoop h CaseStop =>
      (exists hc, hcs w !! h = Some hc /\ hc_stopCh hc = ChanClosed) /\
      existsb (is_hc_run h) (goroutines w) = true /\
      w' = w_with_goroutines (remove_first (is_hc_run h) (goroutines w)) w
  | OpAdvance d => w' = w_with_clock (clock w + d) w
  | OpIsConnected _ | OpGetHealthChecker _ | OpIsHealthy _ | OpGetLastCheck _
  | OpGetErrorCount _ _ => w' = w
  end.

(** Whether a Go caller can pass the arguments of [o] in [w], decided. *)
Definition admissibleb (w : World) (o : Op) : bool :=
  match o with
  | OpNewHealthChecker _ (Some c) =>
      match cms w !! c with
      | Some _ => true
      | None => false
      end
  | OpAdvance d => (0 <=? d)%Z
  | _ => true
  end.

(** Running a sequence of operations; [None] when one of them is not
    admissible, panics or blocks. *)
Fixpoint run_ops (os : list Op) (w : World) : option World :=
  match os with
  | [] => Some w
  | o :: rest =>
      if admissibleb w o then
        match exec o w with
        | Ret _ w1 => run_ops rest w1
        | Panic | Blocked => None
        end
      else None
  end.

(** What one transition adds to the trace ([tr]) and to the dial counter
    ([k]), per operation. *)
Definition trace_effect (w : World) (o : Op) (tr : list Event) (k : nat) : Prop :=
  match o with
  | OpCheckConnection _ | OpCMLoop _ CaseTick =>
      probe_trace (network w) (dials w) tr k
  | OpPerformHealthCheck h | OpHCLoop h CaseTick =>
      k = 0%nat /\ exists hc, hcs w !! h = Some hc /\ tr = check_events w hc
  | OpForceReconnect c =>
      k = 0%nat /\
      exists cm, cms w !! c = Some cm /\
                 tr = [EvIncrementReconnectionCount (cm_metrics cm);
                       EvLogInfo "Forced reconnection"]
  | _ => k = 0%nat /\ tr = []
  end.





(** [Start()] of either component, and the operations of its loop. *)
Definition Start (x : Component) : M unit :=
  match x with
  | OfConnectionManager c => ConnectionManager_Start c
  | OfHealthChecker h => HealthChecker_Start h
  end.

Definition loop_of (x : Component) : Goroutine -> bool :=
  match x with
  | OfConnectionManager c => is_cm_run c
  | OfHealthChecker h => is_hc_run h
  end.

Definition OpLoop (x : Component) (choice : SelectCase) : Op :=
  match x with
  | OfConnectionManager c => OpCMLoop c choice
  | OfHealthChecker h => OpHCLoop h choice
  end.

(** The stop channel of a component, when it is allocated. *)
Definition stop_channel (w : World) (x : Component) : option Chan :=
  match x with
  | OfConnectionManager c => cm_stopCh <$> cms w !! c
  | OfHealthChecker h => hc_stopCh <$> hcs w !! h
  end.

(** The number of loops of a component that are spawned and have not
    returned. *)
Definition loop_count (x : Component) (w : World) : nat :=
  length (List.filter (loop_of x) (goroutines w)).

(** [ConnectionManager.Stop] cut in two after the [select] (line 51): the
    lock and the close of the stop channel, telling whether the manager was
    stopped already; and the rest, which stops the health checker (line 53)
    unless the method returned at line 48, with the deferred unlock. *)
Definition Stop_signal (c : loc) : M bool :=
  cm_Lock c ;;
  let* cm := get_cm c in
  if chan_ready (cm_stopCh cm) then ret true
  else
    match chan_close (cm_stopCh cm) with
    | None => panic
    | Some ch => modify_cm c (cm_with_stopCh ch) ;; ret false
    end.

Definition Stop_finish (c : loc) (already : bool) : M unit :=
  if already then cm_Unlock c
  else
    let* cm := get_cm c in
    via (healthChecker cm) HealthChecker_Stop ;;
    cm_Unlock c.

(** ** More sample worlds *)

(** The world a fresh process is in after a sequence of operations (the
    empty world when the sequence cannot be run). *)
Definition scenario (os : list Op) : World :=
  match run_ops os (empty_world 0 sample_net) with
  | Some w => w
  | None => empty_world 0 sample_net
  end.

Definition runs (os : list Op) : bool :=
  match run_ops os (empty_world 0 sample_net) with
  | Some _ => true
  | None => false
  end.

(** The sample world with no endpoints, caught while a writer holds the
    connection manager's lock. *)
Definition locked_world : World :=
  w_with_cms
    (<[0%nat := cm_with_mu {| writer := true; readers := 0 |}
                  (new_cm 1%nat [] (Some 0%nat))]> (cms (sample_world [])))
    (sample_world []).

(** The sample world after a collaborator of the package has set the
    error count to 2^31. *)
Definition overflowing_world : World :=
  w_with_hcs
    (<[0%nat := {| hc_metrics := 1%nat; connMgr := Some 0%nat; hc_mu := mutex_free;
                   healthy := false; lastCheck := 0; errorCount := 2147483648;
                   hc_stopCh := ChanOpen;
                   checkTicker := NewTicker (10 * Second) |}]> (hcs (sample_world [])))
    (sample_world []).

(** * Proofs *)

(** ** Symbolic execution of method bodies *)

Ltac munfold :=
  unfold IsConnected, IsHealthy, GetLastCheck, GetErrorCount, GetHealthChecker,
    ForceReconnect, HealthChecker_Stop, ConnectionManager_Stop, checkConnection,
    performHealthCheck, NewHealthChecker, NewConnectionManager,
    ConnectionManager_Start, HealthChecker_Start, go, alloc_cm, alloc_hc,
    cm_Lock, cm_Unlock, cm_RLock, cm_RUnlock,
    hc_Lock, hc_Unlock, hc_RLock, hc_RUnlock,
    cm_acquire, cm_release, hc_acquire, hc_release, via, nonnil_and, discard,
    bind, ret, get_cm, get_hc, modify_cm, modify_hc, emit, time_Now, panic, block;
  unfold NewHealthChecker, alloc_hc, bind, ret, time_Now.

Ltac mstep :=
  first
    [ progress cbn [cms hcs goroutines clock network dials trace
                    w_with_cms w_with_hcs w_with_goroutines w_with_clock
                    w_with_dials w_with_trace
                    cm_metrics healthChecker nameServerAddrs cm_mu connected cm_stopCh
                    hc_metrics connMgr hc_mu healthy lastCheck errorCount
                    hc_stopCh checkTicker
                    cm_with_healthChecker cm_with_mu cm_with_connected cm_with_stopCh
                    hc_with_mu hc_with_healthy hc_with_lastCheck hc_with_stopCh
                    hc_with_checkTicker
                    writer readers mutex_free
                    mutex_Lock mutex_Unlock mutex_RLock mutex_RUnlock
                    chan_ready chan_close tk_period tk_running Ticker_Stop NewTicker]
    | rewrite lookup_insert_eq
    | rewrite insert_insert_eq
    | match goal with
      | H : cms ?w !! ?c = Some _ |- context [cms ?w !! ?c] => rewrite H
      | H : hcs ?w !! ?h = Some _ |- context [hcs ?w !! ?h] => rewrite H
      end ].

Ltac mrun := munfold; repeat mstep.

(** Two worlds, or two structs, are equal when their fields are. *)
Lemma world_ext (a b : World) :
  cms a = cms b -> hcs a = hcs b -> goroutines a = goroutines b ->
  clock a = clock b -> network a = network b -> dials a = dials b ->
  trace a = trace b -> a = b.
Proof. destruct a, b; cbn; intros; by subst. Qed.

Lemma cm_ext (a b : ConnectionManager) :
  cm_metrics a = cm_metrics b -> healthChecker a = healthChecker b ->
  nameServerAddrs a = nameServerAddrs b -> cm_mu a = cm_mu b ->
  connected a = connected b -> cm_stopCh a = cm_stopCh b -> a = b.
Proof. destruct a, b; cbn; intros; by subst. Qed.

Lemma hc_ext (a b : HealthChecker) :
  hc_metrics a = hc_metrics b -> connMgr a = connMgr b -> hc_mu a = hc_mu b ->
  healthy a = healthy b -> lastCheck a = lastCheck b ->
  errorCount a = errorCount b -> hc_stopCh a = hc_stopCh b ->
  checkTicker a = checkTicker b -> a = b.
Proof. destruct a, b; cbn; intros; by subst. Qed.

Lemma Ret_ext {A} (a b : A) (w w' : World) : a = b -> w = w' -> Ret a w = Ret b w'.
Proof. by intros -> ->. Qed.

Ltac wproj :=
  cbn [cms hcs goroutines clock network dials trace
       w_with_cms w_with_hcs w_with_goroutines w_with_clock
       w_with_dials w_with_trace
       cm_metrics healthChecker nameServerAddrs cm_mu connected cm_stopCh
       hc_metrics connMgr hc_mu healthy lastCheck errorCount hc_stopCh checkTicker
       cm_with_healthChecker cm_with_mu cm_with_connected cm_with_stopCh
       hc_with_mu hc_with_healthy hc_with_lastCheck hc_with_stopCh
       hc_with_checkTicker mutex_free].

(** Equality of two outcomes, field by field; what is left is what is not
    closed by computation. *)
Ltac wnorm :=
  wproj; rewrite ?insert_insert_eq;
  lazymatch goal with
  | |- Ret _ _ = Ret _ _ => apply Ret_ext; wnorm
  | |- @eq World _ _ => apply world_ext; wnorm
  | |- @eq ConnectionManager _ _ => apply cm_ext; wnorm
  | |- @eq HealthChecker _ _ => apply hc_ext; wnorm
  | |- <[?k := _]> ?m = <[?k := _]> ?m => f_equal; wnorm
  | |- _ => try reflexivity
  end.

Ltac wdone :=
  wnorm;
  rewrite ?Nat.add_0_r, ?Nat.add_succ_r, ?app_nil_r, <- ?app_assoc;
  try reflexivity.

(** *** Accessors leave the world as it is *)

Lemma IsConnected_eq w c cm :
  cms w !! c = Some cm -> writer (cm_mu cm) = false ->
  IsConnected c w = Ret (connected cm) w.
Proof.
  intros Hc Hw.
  destruct cm as [m o a [wr rd] b ch]; cbn in Hw; subst wr.
  mrun. wnorm. by apply insert_id.
Qed.

Lemma IsHealthy_eq w h hc :
  hcs w !! h = Some hc -> writer (hc_mu hc) = false ->
  IsHealthy h w = Ret (healthy hc) w.
Proof.
  intros Hh Hw.
  destruct hc as [m o [wr rd] b t e ch tk]; cbn in Hw; subst wr.
  mrun. wnorm. by apply insert_id.
Qed.

Lemma GetLastCheck_eq w h hc :
  hcs w !! h = Some hc -> writer (hc_mu hc) = false ->
  GetLastCheck h w = Ret (lastCheck hc) w.
Proof.
  intros Hh Hw.
  destruct hc as [m o [wr rd] b t e ch tk]; cbn in Hw; subst wr.
  mrun. wnorm. by apply insert_id.
Qed.

Lemma GetErrorCount_eq n w h hc :
  hcs w !! h = Some hc -> writer (hc_mu hc) = false ->
  GetErrorCount n h w = Ret (to_int n (errorCount hc)) w.
Proof.
  intros Hh Hw.
  destruct hc as [m o [wr rd] b t e ch tk]; cbn in Hw; subst wr.
  mrun. wnorm. by apply insert_id.
Qed.

Lemma GetHealthChecker_eq w c cm :
  cms w !! c = Some cm -> GetHealthChecker c w = Ret (healthChecker cm) w.
Proof. intros Hc. by mrun. Qed.

(** The accessors right after the struct they read was written. *)
Lemma IsConnected_updated (w : World) c cm b :
  cms w !! c = Some cm -> cm_mu cm = mutex_free -> connected cm = b ->
  IsConnected c w = Ret b w.
Proof. intros Hc Hmu <-. apply IsConnected_eq; [ done | by rewrite Hmu ]. Qed.

Lemma IsHealthy_updated (w : World) h hc b :
  hcs w !! h = Some hc -> hc_mu hc = mutex_free -> healthy hc = b ->
  IsHealthy h w = Ret b w.
Proof. intros Hh Hmu <-. apply IsHealthy_eq; [ done | by rewrite Hmu ]. Qed.

Lemma GetLastCheck_updated (w : World) h hc t :
  hcs w !! h = Some hc -> hc_mu hc = mutex_free -> lastCheck hc = t ->
  GetLastCheck h w = Ret t w.
Proof. intros Hh Hmu <-. apply GetLastCheck_eq; [ done | by rewrite Hmu ]. Qed.

Ltac use_IsConnected Hc :=
  erewrite IsConnected_eq;
  [ | cbn [cms w_with_cms w_with_hcs w_with_trace]; exact Hc | reflexivity ].

(** *** Mutual exclusion *)



(** *** Stop *)

Lemma HealthChecker_Stop_closed w h hc :
  hcs w !! h = Some hc -> hc_mu hc = mutex_free -> hc_stopCh hc = ChanClosed ->
  HealthChecker_Stop h w = Ret tt w.
Proof.
  intros Hh Hmu Hch.
  destruct hc as [m o mu b t e ch tk]; cbn in Hmu, Hch; subst mu ch.
  mrun. wnorm. by apply insert_id.
Qed.

Lemma HealthChecker_Stop_open w h hc :
  hcs w !! h = Some hc -> hc_mu hc = mutex_free -> hc_stopCh hc = ChanOpen ->
  HealthChecker_Stop h w =
    Ret tt (w_with_hcs (<[h := hc_stopped hc]> (hcs w)) w).
Proof.
  intros Hh Hmu Hch.
  destruct hc as [m o mu b t e ch tk]; cbn in Hmu, Hch; subst mu ch.
  mrun. wdone.
Qed.

Lemma HealthChecker_Stop_eq w h hc :
  hcs w !! h = Some hc -> hc_mu hc = mutex_free ->
  HealthChecker_Stop h w = Ret tt (w_with_hcs (hcs_after_stop h hc (hcs w)) w).
Proof.
  intros Hh Hmu. unfold hcs_after_stop.
  destruct (hc_stopCh hc) eqn:Hch.
  - by apply HealthChecker_Stop_open.
  - rewrite (HealthChecker_Stop_closed w h hc) by done.
    f_equal. destruct w; reflexivity.
Qed.

Lemma ConnectionManager_Stop_closed w c cm :
  cms w !! c = Some cm -> cm_mu cm = mutex_free -> cm_stopCh cm = ChanClosed ->
  ConnectionManager_Stop c w = Ret tt w.
Proof.
  intros Hc Hmu Hch.
  destruct cm as [m o a mu b ch]; cbn in Hmu, Hch; subst mu ch.
  mrun. wnorm. by apply insert_id.
Qed.

Lemma ConnectionManager_Stop_open w c cm h hc :
  cms w !! c = Some cm -> cm_mu cm = mutex_free -> cm_stopCh cm = ChanOpen ->
  healthChecker cm = Some h ->
  hcs w !! h = Some hc -> hc_mu hc = mutex_free ->
  ConnectionManager_Stop c w =
    Ret tt (w_with_hcs (hcs_after_stop h hc (hcs w))
              (w_with_cms (<[c := cm_with_stopCh ChanClosed cm]> (cms w)) w)).
Proof.
  intros Hc Hmu Hch Hhc Hh Hmu'.
  destruct cm as [m o a mu b ch]; cbn in Hmu, Hch, Hhc; subst mu ch o.
  unfold ConnectionManager_Stop.
  unfold cm_Lock, cm_Unlock, cm_acquire, cm_release, via, bind, ret, get_cm,
    modify_cm, panic, block.
  repeat mstep.
  erewrite HealthChecker_Stop_eq; [ | cbn [hcs w_with_cms]; exact Hh | exact Hmu' ].
  repeat mstep. wdone.
Qed.

(** *** ForceReconnect *)

Lemma ForceReconnect_eq w c cm :
  cms w !! c = Some cm -> cm_mu cm = mutex_free ->
  ForceReconnect c w =
    Ret tt (w_with_trace
              (trace w ++ [EvIncrementReconnectionCount (cm_metrics cm);
                           EvLogInfo "Forced reconnection"])
              (w_with_cms (<[c := cm_with_connected false cm]> (cms w)) w)).
Proof.
  intros Hc Hmu.
  destruct cm as [m o a mu b ch]; cbn in Hmu; subst mu.
  mrun. wdone.
Qed.

(** *** The probe cycle *)

Lemma all_fail_cons net n a rest :
  all_fail net n (a :: rest) ->
  (exists e, net n a = DialErr e) /\ all_fail net (S n) rest.
Proof.
  intros H. split.
  - destruct (H 0%nat a eq_refl) as [e He]. exists e.
    by rewrite Nat.add_0_r in He.
  - intros i x Hi. destruct (H (S i) x Hi) as [e He]. exists e.
    by rewrite Nat.add_succ_r in He.
Qed.

Lemma probe_all_fail c cm all addrs : forall w,
  cms w !! c = Some cm ->
  all_fail (network w) (dials w) addrs ->
  probe c all addrs w =
    Ret tt (w_with_cms (<[c := cm_with_connected false cm]> (cms w))
              (w_with_dials (dials w + length addrs)%nat
                 (w_with_trace
                    (trace w ++ failed_probes (network w) (dials w) all addrs) w))).
Proof.
  induction addrs as [|a rest IH]; intros w Hc Hfail.
  - cbn [probe failed_probes length]. mrun. wdone.
  - apply all_fail_cons in Hfail as [[e He] Hrest].
    cbn [probe failed_probes length].
    unfold bind at 1. unfold net_DialTimeout. cbn beta iota. rewrite He.
    unfold bind at 1. unfold emit at 1. cbn beta iota.
    rewrite IH; [ | exact Hc | exact Hrest ].
    cbn [dial_error]. wdone.
Qed.

Lemma probe_first_success c cm all pre a post conn : forall w,
  cms w !! c = Some cm ->
  all_fail (network w) (dials w) pre ->
  network w (dials w + length pre)%nat a = DialOk conn ->
  probe c all (pre ++ a :: post) w =
    Ret tt (w_with_cms (<[c := cm_with_connected true cm]> (cms w))
              (w_with_dials (S (dials w + length pre))
                 (w_with_trace
                    (trace w ++ failed_probes (network w) (dials w) all pre
                       ++ [EvDial "tcp" a nameServerProbeTimeout; EvConnClose conn])
                    w))).
Proof.
  induction pre as [|p pre IH]; intros w Hc Hfail Hok.
  - cbn [app probe failed_probes length] in *. rewrite Nat.add_0_r in Hok.
    unfold bind at 1. unfold net_DialTimeout. cbn beta iota. rewrite Hok.
    mrun. wdone.
  - apply all_fail_cons in Hfail as [[e He] Hrest].
    cbn [app probe failed_probes length] in *.
    unfold bind at 1. unfold net_DialTimeout. cbn beta iota. rewrite He.
    unfold bind at 1. unfold emit at 1. cbn beta iota.
    rewrite IH; [ | exact Hc | exact Hrest | ].
    + cbn [dial_error]. wdone.
    + cbn [network dials w_with_dials w_with_trace].
      by rewrite Nat.add_succ_r in Hok.
Qed.

(** Either every endpoint fails, or there is a first one that succeeds. *)
Lemma first_success_or_all_fail net addrs : forall n,
  all_fail net n addrs \/
  exists (pre : list string) a post conn,
    addrs = (pre ++ a :: post)%list /\ all_fail net n pre /\
    net (n + length pre)%nat a = DialOk conn.
Proof.
  induction addrs as [|a rest IH]; intros n.
  - left. intros i x Hi. by destruct i.
  - destruct (net n a) as [conn|e] eqn:Hn.
    + right. exists [], a, rest, conn. repeat split.
      * intros i x Hi. by destruct i.
      * by rewrite Nat.add_0_r.
    + destruct (IH (S n)) as [Hall | (pre & x & post & conn & -> & Hpre & Hx)].
      * left. intros [|i] y Hi.
        -- injection Hi as <-. exists e. by rewrite Nat.add_0_r.
        -- destruct (Hall i y Hi) as [e' He']. exists e'.
           by rewrite Nat.add_succ_r.
      * right. exists (a :: pre), x, post, conn. repeat split.
        -- intros [|i] y Hi.
           ++ injection Hi as <-. exists e. by rewrite Nat.add_0_r.
           ++ destruct (Hpre i y Hi) as [e' He']. exists e'.
              by rewrite Nat.add_succ_r.
        -- cbn [length]. by rewrite Nat.add_succ_r.
Qed.

Lemma checkConnection_empty w c cm :
  cms w !! c = Some cm -> cm_mu cm = mutex_free -> nameServerAddrs cm = [] ->
  checkConnection c w =
    Ret tt (w_with_cms (<[c := cm_with_connected true cm]> (cms w)) w).
Proof.
  intros Hc Hmu Ha.
  destruct cm as [m o a mu b ch]; cbn in Hmu, Ha; subst mu a.
  mrun. wdone.
Qed.

Lemma checkConnection_all_fail w c cm :
  cms w !! c = Some cm -> cm_mu cm = mutex_free -> nameServerAddrs cm <> [] ->
  all_fail (network w) (dials w) (nameServerAddrs cm) ->
  checkConnection c w =
    Ret tt (w_with_cms (<[c := cm_with_connected false cm]> (cms w))
              (w_with_dials (dials w + length (nameServerAddrs cm))%nat
                 (w_with_trace
                    (trace w ++ failed_probes (network w) (dials w)
                                  (nameServerAddrs cm) (nameServerAddrs cm)) w))).
Proof.
  intros Hc Hmu Hne Hfail.
  destruct cm as [m o a mu b ch]; cbn in Hmu, Hne, Hfail; subst mu.
  destruct a as [|a0 a]; [done|].
  unfold checkConnection, cm_Lock, cm_Unlock, cm_acquire, cm_release, bind, ret,
    get_cm, modify_cm, panic, block.
  repeat mstep.
  erewrite probe_all_fail; [ | cbn [cms w_with_cms]; apply lookup_insert_eq | exact Hfail ].
  repeat mstep. wdone.
Qed.

Lemma checkConnection_first_success w c cm pre a post conn :
  cms w !! c = Some cm -> cm_mu cm = mutex_free ->
  nameServerAddrs cm = (pre ++ a :: post)%list ->
  all_fail (network w) (dials w) pre ->
  network w (dials w + length pre)%nat a = DialOk conn ->
  checkConnection c w =
    Ret tt (w_with_cms (<[c := cm_with_connected true cm]> (cms w))
              (w_with_dials (S (dials w + length pre))
                 (w_with_trace
                    (trace w ++ failed_probes (network w) (dials w)
                                  (nameServerAddrs cm) pre
                       ++ [EvDial "tcp" a nameServerProbeTimeout; EvConnClose conn])
                    w))).
Proof.
  intros Hc Hmu Ha Hfail Hok.
  destruct cm as [m o addrs mu b ch]; cbn in Hmu, Ha; subst mu addrs.
  unfold checkConnection, cm_Lock, cm_Unlock, cm_acquire, cm_release, bind, ret,
    get_cm, modify_cm, panic, block.
  repeat mstep.
  assert (Hprobe := probe_first_success c
            {| cm_metrics := m; healthChecker := o;
               nameServerAddrs := (pre ++ a :: post)%list;
               cm_mu := {| writer := true; readers := 0 |};
               connected := b; cm_stopCh := ch |}
            (pre ++ a :: post)%list pre a post conn).
  destruct pre as [|p pre]; cbn [app] in *;
    (erewrite Hprobe;
     [ | cbn [cms w_with_cms]; apply lookup_insert_eq | exact Hfail | exact Hok ]);
    repeat mstep; wdone.
Qed.

(** *** The check cycle *)

Lemma performHealthCheck_eq w h hc :
  hcs w !! h = Some hc -> hc_mu hc = mutex_free -> cm_readable w hc ->
  performHealthCheck h w =
    Ret tt (w_with_trace (trace w ++ check_events w hc)
              (w_with_hcs (<[h := hc_with_healthy (check_verdict w hc)
                                    (hc_with_lastCheck (clock w) hc)]> (hcs w)) w)).
Proof.
  intros Hh Hmu Hcm.
  unfold check_events, verdict_events, check_verdict, connectivity_flag.
  destruct hc as [m o mu b t e ch tk]; cbn in Hmu; subst mu.
  destruct o as [c|].
  - destruct (Hcm c eq_refl) as (cm & Hc & Hw).
    destruct cm as [m' o' a [wr rd] b' ch']; cbn in Hw; subst wr.
    mrun.
    destruct a as [|a0 a]; cbn [length Nat.ltb Nat.leb]; repeat mstep.
    + destruct (e <? 5)%Z; repeat mstep; [| use_IsConnected Hc; repeat mstep];
        wdone.
    + use_IsConnected Hc. repeat mstep.
      destruct b'; repeat mstep; [| use_IsConnected Hc; repeat mstep];
        wdone.
  - mrun. destruct (e <? 5)%Z; repeat mstep; wdone.
Qed.

(** *** Constructors *)

Lemma NewHealthChecker_eq w metrics cm :
  NewHealthChecker metrics cm w =
    Ret (fresh (dom (hcs w)))
        (w_with_hcs (<[fresh (dom (hcs w)) := new_hc metrics cm (clock w)]> (hcs w)) w).
Proof. reflexivity. Qed.

Lemma NewConnectionManager_eq w metrics addrs :
  let c := fresh (dom (cms w)) in
  let h := fresh (dom (hcs w)) in
  NewConnectionManager metrics addrs w =
    Ret c (w_with_cms (<[c := new_cm metrics addrs (Some h)]> (cms w))
             (w_with_hcs (<[h := new_hc metrics (Some c) (clock w)]> (hcs w)) w)).
Proof.
  intros c h. subst c h. mrun. wdone.
Qed.

Lemma fresh_cm_None (w : World) : cms w !! fresh (dom (cms w)) = None.
Proof. apply not_elem_of_dom, is_fresh. Qed.

Lemma fresh_hc_None (w : World) : hcs w !! fresh (dom (hcs w)) = None.
Proof. apply not_elem_of_dom, is_fresh. Qed.

(** *** Reading a normal return backwards *)

Lemma bind_Ret_inv {A B} (m : M A) (k : A -> M B) w b w2 :
  bind m k w = Ret b w2 -> exists a w1, m w = Ret a w1 /\ k a w1 = Ret b w2.
Proof.
  unfold bind. destruct (m w) as [a w1| |]; [ | discriminate | discriminate ].
  intros H. by exists a, w1.
Qed.

Lemma mutex_Lock_Some mu mu' : mutex_Lock mu = Some mu' -> mu = mutex_free.
Proof.
  destruct mu as [[] [|n]]; cbn; intros H; try discriminate. reflexivity.
Qed.

Lemma hc_Lock_inv w h w1 :
  hc_Lock h w = Ret tt w1 ->
  exists hc, hcs w !! h = Some hc /\ hc_mu hc = mutex_free.
Proof.
  unfold hc_Lock, hc_acquire, bind, get_hc, block.
  destruct (hcs w !! h) as [hc|] eqn:Hh; [ | discriminate ].
  destruct (mutex_Lock (hc_mu hc)) as [mu|] eqn:Hmu; [ | discriminate ].
  intros _. exists hc. split; [done|]. by eapply mutex_Lock_Some.
Qed.

Lemma cm_Lock_inv w c w1 :
  cm_Lock c w = Ret tt w1 ->
  exists cm, cms w !! c = Some cm /\ cm_mu cm = mutex_free.
Proof.
  unfold cm_Lock, cm_acquire, bind, get_cm, block.
  destruct (cms w !! c) as [cm|] eqn:Hc; [ | discriminate ].
  destruct (mutex_Lock (cm_mu cm)) as [mu|] eqn:Hmu; [ | discriminate ].
  intros _. exists cm. split; [done|]. by eapply mutex_Lock_Some.
Qed.

Lemma HealthChecker_Stop_inv w h w1 :
  HealthChecker_Stop h w = Ret tt w1 ->
  exists hc, hcs w !! h = Some hc /\ hc_mu hc = mutex_free /\
             w1 = w_with_hcs (hcs_after_stop h hc (hcs w)) w.
Proof.
  intros H.
  assert (H' := H). unfold HealthChecker_Stop in H'.
  apply bind_Ret_inv in H' as ([] & w' & Hlock & _).
  apply hc_Lock_inv in Hlock as (hc & Hh & Hmu).
  exists hc. repeat split; [done | done |].
  rewrite (HealthChecker_Stop_eq w h hc Hh Hmu) in H. by injection H.
Qed.

Lemma cm_Lock_eq w c cm :
  cms w !! c = Some cm -> cm_mu cm = mutex_free ->
  cm_Lock c w =
    Ret tt (w_with_cms
              (<[c := cm_with_mu {| writer := true; readers := 0 |} cm]> (cms w)) w).
Proof.
  intros Hc Hmu. unfold cm_Lock, cm_acquire, bind, get_cm, modify_cm.
  rewrite Hc, Hmu. cbn. by rewrite Hc.
Qed.

Lemma ConnectionManager_Stop_inv w c w1 :
  ConnectionManager_Stop c w = Ret tt w1 ->
  exists cm, cms w !! c = Some cm /\ cm_mu cm = mutex_free /\
    ((cm_stopCh cm = ChanClosed /\ w1 = w) \/
     (cm_stopCh cm = ChanOpen /\
      exists h hc, healthChecker cm = Some h /\ hcs w !! h = Some hc /\
                   hc_mu hc = mutex_free /\
                   w1 = w_with_hcs (hcs_after_stop h hc (hcs w))
                          (w_with_cms (<[c := cm_with_stopCh ChanClosed cm]> (cms w)) w))).
Proof.
  intros H.
  assert (H' := H). unfold ConnectionManager_Stop in H'.
  apply bind_Ret_inv in H' as ([] & w' & Hlock & Hrest).
  assert (Hlock' := Hlock).
  apply cm_Lock_inv in Hlock' as (cm & Hc & Hmu).
  exists cm. split; [done|]. split; [done|].
  destruct (cm_stopCh cm) eqn:Hch.
  - right. split; [done|].
    rewrite (cm_Lock_eq w c cm Hc Hmu) in Hlock. injection Hlock as <-.
    apply bind_Ret_inv in Hrest as (cm' & w2 & Hget & Hrest).
    unfold get_cm in Hget. cbn [cms w_with_cms] in Hget.
    rewrite lookup_insert_eq in Hget. injection Hget as <- <-.
    cbn [cm_stopCh cm_with_mu healthChecker] in Hrest. rewrite Hch in Hrest.
    cbn [chan_ready chan_close] in Hrest.
    apply bind_Ret_inv in Hrest as ([] & w3 & Hmod & Hrest).
    apply bind_Ret_inv in Hrest as ([] & w4 & Hvia & _).
    unfold modify_cm in Hmod. cbn [cms w_with_cms] in Hmod.
    rewrite lookup_insert_eq in Hmod. injection Hmod as <-.
    destruct (healthChecker cm) as [h|] eqn:Hhc; [ | discriminate Hvia ].
    cbn [via] in Hvia.
    apply HealthChecker_Stop_inv in Hvia as (hc & Hh & Hmu' & _).
    cbn [hcs w_with_cms] in Hh.
    exists h, hc. repeat split; try done.
    rewrite (ConnectionManager_Stop_open w c cm h hc) in H by done.
    by injection H.
  - left. split; [done|].
    rewrite (ConnectionManager_Stop_closed w c cm) in H by done. by injection H.
Qed.

(** *** Counting calls in a trace *)

Lemma count_events_app p (tr tr' : list Event) :
  count_events p (tr ++ tr') = (count_events p tr + count_events p tr')%nat.
Proof. unfold count_events. by rewrite List.filter_app, length_app. Qed.

Lemma healthy_gauge_of_app m (tr tr' : list Event) acc :
  healthy_gauge_of m (tr ++ tr') acc = healthy_gauge_of m tr' (healthy_gauge_of m tr acc).
Proof.
  revert acc. induction tr as [|e tr IH]; intros acc; [done|].
  destruct e; cbn [app healthy_gauge_of]; apply IH.
Qed.

(** * The claims *)

(** ** Probe cycle *)

(** C3: for a connection manager whose endpoint set is empty, one probe
    cycle returns, sets [connected] to true whatever it was before, and
    dials nothing (the trace and the dial counter are untouched), so
    [IsConnected()] then returns true. *)
Theorem checkConnection_no_endpoints w c cm :
  cms w !! c = Some cm -> cm_mu cm = mutex_free -> nameServerAddrs cm = [] ->
  exists w',
    checkConnection c w = Ret tt w' /\
    IsConnected c w' = Ret true w' /\
    cms w' = <[c := cm_with_connected true cm]> (cms w) /\
    trace w' = trace w /\ dials w' = dials w /\ dial_count w' = dial_count w.
Proof.
  intros Hc Hmu Ha.
  eexists. split; [ by apply checkConnection_empty | ].
  split.
  - by apply (IsConnected_updated _ c (cm_with_connected true cm));
      [ cbn; apply lookup_insert_eq | | ].
  - by repeat split.
Qed.

Lemma failed_probes_dials net n all addrs :
  count_events is_dial (failed_probes net n all addrs) = length addrs.
Proof.
  revert n. induction addrs as [|a rest IH]; intros n; [done|].
  cbn [failed_probes]. unfold count_events in *. cbn. by rewrite IH.
Qed.

Lemma all_fail_not_ok net n (addrs : list string) i a conn :
  all_fail net n addrs -> addrs !! i = Some a -> net (n + i)%nat a = DialOk conn -> False.
Proof. intros Hall Hi Hok. destruct (Hall i a Hi) as [e He]. congruence. Qed.

(** C2: for a non-empty endpoint set, one probe cycle returns, and the flag
    it leaves is true exactly when the dial of some endpoint succeeds.
    When the endpoints before [a] all fail and the dial of [a] succeeds,
    the calls made are, in list order, a dial and a debug entry per failed
    endpoint, then the dial of [a] and the close of its socket, and nothing
    for the endpoints after [a]; when every endpoint fails, they are a dial
    and a debug entry per endpoint, and the flag is false. *)
Theorem checkConnection_probes_in_order w c cm :
  cms w !! c = Some cm -> cm_mu cm = mutex_free -> nameServerAddrs cm <> [] ->
  exists w' b,
    checkConnection c w = Ret tt w' /\
    IsConnected c w' = Ret b w' /\
    (b = true <->
     exists i a conn, nameServerAddrs cm !! i = Some a /\
                      network w (dials w + i)%nat a = DialOk conn) /\
    (forall pre a post conn,
        nameServerAddrs cm = (pre ++ a :: post)%list ->
        all_fail (network w) (dials w) pre ->
        network w (dials w + length pre)%nat a = DialOk conn ->
        b = true /\
        trace w' = (trace w
                    ++ failed_probes (network w) (dials w) (nameServerAddrs cm) pre
                    ++ [EvDial "tcp" a nameServerProbeTimeout; EvConnClose conn])%list /\
        dials w' = S (dials w + length pre) /\
        dial_count w' = (dial_count w + S (length pre))%nat) /\
    (all_fail (network w) (dials w) (nameServerAddrs cm) ->
     b = false /\
     trace w' = (trace w ++ failed_probes (network w) (dials w)
                              (nameServerAddrs cm) (nameServerAddrs cm))%list /\
     dials w' = (dials w + length (nameServerAddrs cm))%nat).
Proof.
  intros Hc Hmu Hne.
  assert (Hsucc : forall pre a post conn w',
    checkConnection c w = Ret tt w' ->
    nameServerAddrs cm = (pre ++ a :: post)%list ->
    all_fail (network w) (dials w) pre ->
    network w (dials w + length pre)%nat a = DialOk conn ->
    IsConnected c w' = Ret true w' /\
    trace w' = (trace w
                ++ failed_probes (network w) (dials w) (nameServerAddrs cm) pre
                ++ [EvDial "tcp" a nameServerProbeTimeout; EvConnClose conn])%list /\
    dials w' = S (dials w + length pre) /\
    dial_count w' = (dial_count w + S (length pre))%nat).
  { intros pre a post conn w' Hrun Ha Hpre Hok.
    rewrite (checkConnection_first_success w c cm pre a post conn) in Hrun by done.
    injection Hrun as <-. split.
    - by apply (IsConnected_updated _ c (cm_with_connected true cm));
        [ cbn; apply lookup_insert_eq | | ].
    - split; [ reflexivity | ]. split; [ reflexivity | ].
      unfold dial_count. cbn [trace w_with_cms w_with_dials w_with_trace].
      rewrite !count_events_app, failed_probes_dials. cbn. lia. }
  assert (Hfail : forall w',
    checkConnection c w = Ret tt w' ->
    all_fail (network w) (dials w) (nameServerAddrs cm) ->
    IsConnected c w' = Ret false w' /\
    trace w' = (trace w ++ failed_probes (network w) (dials w)
                             (nameServerAddrs cm) (nameServerAddrs cm))%list /\
    dials w' = (dials w + length (nameServerAddrs cm))%nat).
  { intros w' Hrun Hall.
    rewrite (checkConnection_all_fail w c cm) in Hrun by done.
    injection Hrun as <-. split.
    - by apply (IsConnected_updated _ c (cm_with_connected false cm));
        [ cbn; apply lookup_insert_eq | | ].
    - by cbn. }
  destruct (first_success_or_all_fail (network w) (nameServerAddrs cm) (dials w))
    as [Hall | (pre & a & post & conn & Ha & Hpre & Hok)].
  - eexists. exists false.
    split; [ by apply checkConnection_all_fail | ].
    destruct (Hfail _ (checkConnection_all_fail w c cm Hc Hmu Hne Hall) Hall)
      as (Hconn & Htr & Hd).
    split; [ exact Hconn | ]. split; [ | split ].
    + split; [ discriminate | ].
      intros (i & a & conn & Hi & Hok). exfalso. by eapply all_fail_not_ok.
    + intros pre a post conn Ha Hpre Hok. exfalso.
      eapply (all_fail_not_ok _ _ _ (length pre) a conn Hall); [ | exact Hok ].
      rewrite Ha. by apply list_lookup_middle.
    + intros _. by repeat split.
  - eexists. exists true.
    split; [ by eapply checkConnection_first_success | ].
    assert (Hrun := checkConnection_first_success w c cm pre a post conn
                      Hc Hmu Ha Hpre Hok).
    destruct (Hsucc _ _ _ _ _ Hrun Ha Hpre Hok) as (Hconn & _).
    split; [ exact Hconn | ]. split; [ | split ].
    + split; [ | done ]. intros _. exists (length pre), a, conn.
      split; [ | done ]. rewrite Ha. by apply list_lookup_middle.
    + intros pre' a' post' conn' Ha' Hpre' Hok'.
      destruct (Hsucc _ _ _ _ _ Hrun Ha' Hpre' Hok') as (_ & Htr & Hd & Hdc).
      by repeat split.
    + intros Hall. exfalso.
      eapply (all_fail_not_ok _ _ _ (length pre) a conn Hall); [ | exact Hok ].
      rewrite Ha. by apply list_lookup_middle.
Qed.

(** ** ForceReconnect *)

(** C5: [ForceReconnect()], from any state of the connection manager,
    returns with the connectivity flag false (so [IsConnected()] is false),
    adds exactly one to the reconnection counter of its metrics sink, dials
    nothing, and leaves everything else - the endpoint list, the stop
    channel, the health checker pointer, every other connection manager and
    all health checkers - as it was. *)
Theorem ForceReconnect_effect w c cm :
  cms w !! c = Some cm -> cm_mu cm = mutex_free ->
  exists w' cm',
    ForceReconnect c w = Ret tt w' /\
    IsConnected c w' = Ret false w' /\
    reconnection_count (cm_metrics cm) w' = S (reconnection_count (cm_metrics cm) w) /\
    dial_count w' = dial_count w /\ dials w' = dials w /\
    cms w' !! c = Some cm' /\
    nameServerAddrs cm' = nameServerAddrs cm /\
    cm_stopCh cm' = cm_stopCh cm /\
    healthChecker cm' = healthChecker cm /\
    cm_metrics cm' = cm_metrics cm /\
    cm_mu cm' = cm_mu cm /\
    (forall c', c' <> c -> cms w' !! c' = cms w !! c') /\
    hcs w' = hcs w /\ goroutines w' = goroutines w /\ clock w' = clock w.
Proof.
  intros Hc Hmu.
  eexists. exists (cm_with_connected false cm).
  split; [ by apply ForceReconnect_eq | ].
  split.
  { by apply (IsConnected_updated _ c (cm_with_connected false cm));
      [ cbn; apply lookup_insert_eq | | ]. }
  split.
  { unfold reconnection_count. cbn [trace w_with_trace w_with_cms].
    rewrite count_events_app. cbn. rewrite Nat.eqb_refl. cbn. lia. }
  split.
  { unfold dial_count. cbn [trace w_with_trace w_with_cms].
    rewrite count_events_app. cbn. lia. }
  cbn. repeat split; try done.
  - apply lookup_insert_eq.
  - intros c' Hne. by apply lookup_insert_ne.
Qed.

(** ** Stop *)

(** C6: whenever a call of [Stop()] has returned, on a connection manager
    or on a health checker and from whatever state, calling it again
    returns normally (no panic, no block) and leaves the world exactly as
    the first call left it. *)
Theorem Stop_twice_is_noop x w w1 :
  Stop x w = Ret tt w1 -> Stop x w1 = Ret tt w1.
Proof.
  destruct x as [c|h]; cbn [Stop]; intros H.
  - apply ConnectionManager_Stop_inv in H
      as (cm & Hc & Hmu & [[Hch ->] | (Hch & h & hc & Hhc & Hh & Hmu' & ->)]).
    + by apply (ConnectionManager_Stop_closed w c cm).
    + apply (ConnectionManager_Stop_closed _ c (cm_with_stopCh ChanClosed cm));
        [ cbn; apply lookup_insert_eq | exact Hmu | reflexivity ].
  - apply HealthChecker_Stop_inv in H as (hc & Hh & Hmu & ->).
    unfold hcs_after_stop. destruct (hc_stopCh hc) eqn:Hch.
    + apply (HealthChecker_Stop_closed _ h (hc_stopped hc));
        [ cbn; apply lookup_insert_eq | exact Hmu | reflexivity ].
    + apply (HealthChecker_Stop_closed _ h hc); [ exact Hh | exact Hmu | exact Hch ].
Qed.

(** ** Check cycle *)

Lemma performHealthCheck_after w h hc :
  hcs w !! h = Some hc -> hc_mu hc = mutex_free -> cm_readable w hc ->
  exists w',
    performHealthCheck h w = Ret tt w' /\
    IsHealthy h w' = Ret (check_verdict w hc) w' /\
    GetLastCheck h w' = Ret (clock w) w' /\
    cms w' = cms w /\
    trace w' = (trace w ++ check_events w hc)%list.
Proof.
  intros Hh Hmu Hcm.
  eexists. split; [ by apply performHealthCheck_eq | ].
  split; [ | split ].
  - by eapply IsHealthy_updated; [ cbn; apply lookup_insert_eq | | ].
  - by eapply GetLastCheck_updated; [ cbn; apply lookup_insert_eq | | ].
  - by cbn.
Qed.

(** C1: a check cycle returns, and afterwards [IsHealthy()] gives the same
    answer as [IsConnected()] of the bound connection manager when that one
    has endpoints; with no connection manager bound, or one without
    endpoints, [IsHealthy()] is true exactly when [errorCount < 5] and
    false exactly when [errorCount >= 5].  This holds from every state,
    whatever the connectivity flag and the error count are. *)
Theorem performHealthCheck_verdict w h hc :
  hcs w !! h = Some hc -> hc_mu hc = mutex_free -> cm_readable w hc ->
  exists w' b,
    performHealthCheck h w = Ret tt w' /\
    IsHealthy h w' = Ret b w' /\
    (forall c cm,
        connMgr hc = Some c -> cms w !! c = Some cm -> nameServerAddrs cm <> [] ->
        IsConnected c w' = Ret b w') /\
    ((connMgr hc = None \/
      exists c cm, connMgr hc = Some c /\ cms w !! c = Some cm /\
                   nameServerAddrs cm = []) ->
     (b = true <-> errorCount hc < 5) /\ (b = false <-> errorCount hc >= 5)).
Proof.
  intros Hh Hmu Hcm.
  destruct (performHealthCheck_after w h hc Hh Hmu Hcm)
    as (w' & Hrun & Hhealthy & _ & Hcms & _).
  exists w', (check_verdict w hc).
  split; [ exact Hrun | ]. split; [ exact Hhealthy | ]. split.
  - intros c cm Hbound Hc Hne.
    destruct (Hcm c Hbound) as (cm' & Hc' & Hw).
    assert (cm' = cm) as -> by congruence.
    unfold check_verdict. rewrite Hbound, Hc.
    destruct (nameServerAddrs cm) as [|a0 a] eqn:Ha; [ done | ].
    cbn [length Nat.ltb Nat.leb].
    apply IsConnected_eq; [ by rewrite Hcms | exact Hw ].
  - assert (Hlt : forall z : Z,
              ((z <? 5) = true <-> z < 5) /\ ((z <? 5) = false <-> z >= 5)).
    { intros z. destruct (Z.ltb_spec z 5); split; split; intros; try done; lia. }
    intros [Hnone | (c & cm & Hbound & Hc & Ha)]; unfold check_verdict.
    + rewrite Hnone. apply Hlt.
    + rewrite Hbound, Hc, Ha. cbn [length Nat.ltb Nat.leb]. apply Hlt.
Qed.

(** C4: a check cycle sets the gauge of its metrics sink to the verdict;
    after the two bookkeeping calls it makes one [SetHealthy(true)] call and
    nothing else when the verdict is healthy, and [SetHealthy(false)], one
    increment of the error counter and a warning carrying the error count
    and the connectivity flag when it is unhealthy - so the error counter
    grows by exactly one on an unhealthy verdict and not at all on a
    healthy one. *)
Theorem performHealthCheck_reports w h hc :
  hcs w !! h = Some hc -> hc_mu hc = mutex_free -> cm_readable w hc ->
  exists w' b,
    performHealthCheck h w = Ret tt w' /\
    IsHealthy h w' = Ret b w' /\
    healthy_gauge (hc_metrics hc) w' = Some b /\
    trace w' =
      (trace w
       ++ [EvIncrementHealthCheckCount (hc_metrics hc);
           EvUpdateLastHealthCheck (hc_metrics hc)]
       ++ (if b then [EvSetHealthy (hc_metrics hc) true]
           else [EvSetHealthy (hc_metrics hc) false;
                 EvIncrementHealthCheckErrors (hc_metrics hc);
                 EvLogWarn "Health check failed" (errorCount hc)
                   (connectivity_flag w hc)]))%list /\
    health_check_errors (hc_metrics hc) w' =
      (health_check_errors (hc_metrics hc) w + (if b then 0 else 1))%nat.
Proof.
  intros Hh Hmu Hcm.
  destruct (performHealthCheck_after w h hc Hh Hmu Hcm)
    as (w' & Hrun & Hhealthy & _ & _ & Htr).
  exists w', (check_verdict w hc).
  split; [ exact Hrun | ]. split; [ exact Hhealthy | ].
  unfold healthy_gauge, health_check_errors. rewrite Htr.
  unfold check_events, verdict_events.
  split; [ | split; [ reflexivity | ] ].
  - rewrite healthy_gauge_of_app.
    destruct (check_verdict w hc); cbn; by rewrite Nat.eqb_refl.
  - rewrite count_events_app.
    destruct (check_verdict w hc); cbn; rewrite ?Nat.eqb_refl; reflexivity.
Qed.

Lemma performHealthCheck_split h w :
  performHealthCheck h w = (let* hc := check_bookkeeping h in check_decision h hc) w.
Proof.
  unfold performHealthCheck, check_bookkeeping, check_decision, bind.
  destruct (hc_Lock h w) as [[] w1| |]; [ | reflexivity | reflexivity ].
  destruct (get_hc h w1) as [hc w2| |]; [ | reflexivity | reflexivity ].
  unfold emit, time_Now, ret. cbn beta iota.
  destruct (modify_hc h _ _) as [[] w3| |]; reflexivity.
Qed.

Lemma check_bookkeeping_eq w h hc :
  hcs w !! h = Some hc -> hc_mu hc = mutex_free ->
  check_bookkeeping h w =
    Ret (hc_with_mu {| writer := true; readers := 0 |} hc)
        (w_with_trace
              (trace w ++ [EvIncrementHealthCheckCount (hc_metrics hc);
                           EvUpdateLastHealthCheck (hc_metrics hc)])
              (w_with_hcs
                 (<[h := hc_with_lastCheck (clock w)
                           (hc_with_mu {| writer := true; readers := 0 |} hc)]>
                    (hcs w)) w)).
Proof.
  intros Hh Hmu.
  destruct hc as [m o mu b t e ch tk]; cbn in Hmu; subst mu.
  unfold check_bookkeeping. mrun. wdone.
Qed.

(** C8: a check cycle, whatever its verdict, adds exactly one to the
    health-check-performed counter of its metrics sink, sets [lastCheck] to
    the current time (which [GetLastCheck()] then returns) and reports the
    timestamp to the sink.  All of this is done before the verdict is
    decided: when the statements that decide it start (state [w_mid]), both
    calls have been made, [lastCheck] is set and [healthy] is still what it
    was; and the two calls are the first of the cycle, ahead of the report
    of the verdict. *)
Theorem performHealthCheck_bookkeeping w h hc :
  hcs w !! h = Some hc -> hc_mu hc = mutex_free -> cm_readable w hc ->
  exists w' b rest w_mid hc_read hc_mid,
    performHealthCheck h w = Ret tt w' /\
    IsHealthy h w' = Ret b w' /\
    health_check_count (hc_metrics hc) w' = S (health_check_count (hc_metrics hc) w) /\
    GetLastCheck h w' = Ret (clock w) w' /\
    trace w' =
      (trace w
       ++ EvIncrementHealthCheckCount (hc_metrics hc)
          :: EvUpdateLastHealthCheck (hc_metrics hc)
          :: EvSetHealthy (hc_metrics hc) b
          :: rest)%list /\
    (forall e, e ∈ rest ->
               e <> EvIncrementHealthCheckCount (hc_metrics hc) /\
               e <> EvUpdateLastHealthCheck (hc_metrics hc)) /\
    check_bookkeeping h w = Ret hc_read w_mid /\
    check_decision h hc_read w_mid = Ret tt w' /\
    trace w_mid =
      (trace w ++ [EvIncrementHealthCheckCount (hc_metrics hc);
                   EvUpdateLastHealthCheck (hc_metrics hc)])%list /\
    hcs w_mid !! h = Some hc_mid /\
    lastCheck hc_mid = clock w /\
    healthy hc_mid = healthy hc.
Proof.
  intros Hh Hmu Hcm.
  destruct (performHealthCheck_after w h hc Hh Hmu Hcm)
    as (w' & Hrun & Hhealthy & Hlast & _ & Htr).
  exists w', (check_verdict w hc).
  exists (tl (verdict_events w hc (check_verdict w hc))).
  eexists. exists (hc_with_mu {| writer := true; readers := 0 |} hc).
  exists (hc_with_lastCheck (clock w)
            (hc_with_mu {| writer := true; readers := 0 |} hc)).
  split; [ exact Hrun | ]. split; [ exact Hhealthy | ].
  split; [ | split; [ exact Hlast | split; [ | split ] ] ].
  - unfold health_check_count. rewrite Htr, count_events_app.
    unfold check_events, verdict_events.
    destruct (check_verdict w hc); cbn; rewrite Nat.eqb_refl; cbn; lia.
  - rewrite Htr. unfold check_events, verdict_events.
    by destruct (check_verdict w hc).
  - unfold verdict_events. intros e He.
    destruct (check_verdict w hc); cbn [tl] in He.
    + by apply elem_of_nil in He.
    + apply elem_of_cons in He as [-> | He]; [ done | ].
      apply elem_of_cons in He as [-> | He]; [ done | ].
      by apply elem_of_nil in He.
  - split; [ by apply check_bookkeeping_eq | ].
    split.
    + rewrite performHealthCheck_split in Hrun. unfold bind at 1 in Hrun.
      by rewrite (check_bookkeeping_eq w h hc Hh Hmu) in Hrun.
    + cbn [trace hcs w_with_trace w_with_hcs].
      split; [ reflexivity | ]. split; [ apply lookup_insert_eq | ]. by split.
Qed.

(** ** States between two calls *)

Lemma empty_world_quiescent t0 net : quiescent (empty_world t0 net).
Proof.
  split; cbn; intros k x Hk; by rewrite lookup_empty in Hk.
Qed.

Lemma quiescent_cm w c cm :
  quiescent w -> cms w !! c = Some cm ->
  cm_mu cm = mutex_free /\
  exists h hc, healthChecker cm = Some h /\ hcs w !! h = Some hc /\
               hc_mu hc = mutex_free.
Proof.
  intros [Hcs Hhs] Hc.
  destruct (Hcs c cm Hc) as (Hmu & h & Hh & [hc Hhc]).
  split; [ done | ]. exists h, hc. repeat split; try done.
  by destruct (Hhs h hc Hhc).
Qed.

Lemma quiescent_hc w h hc :
  quiescent w -> hcs w !! h = Some hc ->
  hc_mu hc = mutex_free /\ errorCount hc = 0 /\ cm_readable w hc /\
  (hc_stopCh hc = ChanClosed -> tk_running (checkTicker hc) = false).
Proof.
  intros [Hcs Hhs] Hh.
  destruct (Hhs h hc Hh) as (Hmu & He & Hcm & Htk).
  repeat split; try done.
  intros c Hc. destruct (Hcm c Hc) as [cm Hcm'].
  exists cm. split; [ done | ].
  destruct (Hcs c cm Hcm') as [-> _]. reflexivity.
Qed.

(** *** Preservation by heap updates *)

Lemma heap_inv_update_cm cs hs c cm cm' :
  heap_inv cs hs -> cs !! c = Some cm ->
  cm_mu cm' = mutex_free -> healthChecker cm' = healthChecker cm ->
  heap_inv (<[c := cm']> cs) hs.
Proof.
  intros [Hcs Hhs] Hc Hmu Hhc. split.
  - intros c0 cm0. rewrite lookup_insert. case_decide as Heq.
    + intros [= <-]. split; [ done | ]. rewrite Hhc.
      by destruct (Hcs c cm Hc) as [_ H].
    + apply Hcs.
  - intros h hc Hh. destruct (Hhs h hc Hh) as (H1 & H2 & H3 & H4).
    repeat split; try done.
    intros c0 Hc0. rewrite lookup_insert. case_decide; [ by eexists | by apply H3 ].
Qed.

Lemma heap_inv_update_hc cs hs h hc hc' :
  heap_inv cs hs -> hs !! h = Some hc ->
  hc_mu hc' = mutex_free -> errorCount hc' = 0 -> connMgr hc' = connMgr hc ->
  (hc_stopCh hc' = ChanClosed -> tk_running (checkTicker hc') = false) ->
  heap_inv cs (<[h := hc']> hs).
Proof.
  intros [Hcs Hhs] Hh Hmu He Hcm Htk. split.
  - intros c cm Hc. destruct (Hcs c cm Hc) as (H1 & h0 & H2 & H3).
    split; [ done | ]. exists h0. split; [ done | ].
    rewrite lookup_insert. case_decide; [ by eexists | done ].
  - intros h0 hc0. rewrite lookup_insert. case_decide as Heq.
    + intros [= <-]. repeat split; try done.
      rewrite Hcm. by destruct (Hhs h hc Hh) as (_ & _ & H & _).
    + apply Hhs.
Qed.

Lemma heap_inv_alloc_hc cs hs h hc :
  heap_inv cs hs -> hs !! h = None -> hc_ok cs hc ->
  heap_inv cs (<[h := hc]> hs).
Proof.
  intros [Hcs Hhs] Hh Hok. split.
  - intros c cm Hc. destruct (Hcs c cm Hc) as (H1 & h0 & H2 & H3).
    split; [ done | ]. exists h0. split; [ done | ].
    rewrite lookup_insert. case_decide; [ by eexists | done ].
  - intros h0 hc0. rewrite lookup_insert. case_decide as Heq.
    + by intros [= <-].
    + apply Hhs.
Qed.

Lemma heap_inv_after_stop cs hs h hc :
  heap_inv cs hs -> hs !! h = Some hc ->
  heap_inv cs (hcs_after_stop h hc hs).
Proof.
  intros Hinv Hh. unfold hcs_after_stop.
  destruct (hc_stopCh hc) eqn:Hch; [ | done ].
  destruct Hinv as [Hcs Hhs].
  destruct (Hhs h hc Hh) as (H1 & H2 & H3 & H4).
  by apply (heap_inv_update_hc cs hs h hc).
Qed.

Lemma heap_inv_new_pair cs hs c h m addrs t :
  heap_inv cs hs -> cs !! c = None -> hs !! h = None ->
  heap_inv (<[c := new_cm m addrs (Some h)]> cs)
           (<[h := new_hc m (Some c) t]> hs).
Proof.
  intros [Hcs Hhs] Hc Hh. split.
  - intros c0 cm0. rewrite lookup_insert. case_decide as Heq.
    + intros [= <-]. split; [ done | ]. exists h. split; [ done | ].
      rewrite lookup_insert_eq. by eexists.
    + intros Hc0. destruct (Hcs c0 cm0 Hc0) as (H1 & h0 & H2 & H3).
      split; [ done | ]. exists h0. split; [ done | ].
      rewrite lookup_insert. case_decide; [ by eexists | done ].
  - intros h0 hc0. rewrite lookup_insert. case_decide as Heq.
    + intros [= <-]. repeat split; try done.
      intros c0 [= <-]. rewrite lookup_insert_eq. by eexists.
    + intros Hh0. destruct (Hhs h0 hc0 Hh0) as (H1 & H2 & H3 & H4).
      repeat split; try done.
      intros c0 Hc0. rewrite lookup_insert. case_decide; [ by eexists | by apply H3 ].
Qed.

(** *** What each operation does to the heaps *)

Lemma cm_acquire_inv op c w w1 :
  cm_acquire op c w = Ret tt w1 -> exists cm, cms w !! c = Some cm.
Proof.
  unfold cm_acquire, bind, get_cm.
  destruct (cms w !! c) as [cm|]; [ by exists cm | discriminate ].
Qed.

Lemma hc_acquire_inv op h w w1 :
  hc_acquire op h w = Ret tt w1 -> exists hc, hcs w !! h = Some hc.
Proof.
  unfold hc_acquire, bind, get_hc.
  destruct (hcs w !! h) as [hc|]; [ by exists hc | discriminate ].
Qed.

Lemma checkConnection_total w c cm :
  cms w !! c = Some cm -> cm_mu cm = mutex_free ->
  exists b n tr,
    checkConnection c w =
      Ret tt (w_with_cms (<[c := cm_with_connected b cm]> (cms w))
                (w_with_dials n (w_with_trace tr w))).
Proof.
  intros Hc Hmu.
  destruct (nameServerAddrs cm) as [|a0 a] eqn:Ha.
  - exists true, (dials w), (trace w).
    rewrite (checkConnection_empty w c cm) by done. wdone.
  - destruct (first_success_or_all_fail (network w) (nameServerAddrs cm) (dials w))
      as [Hall | (pre & x & post & conn & Hx & Hpre & Hok)].
    + do 3 eexists. apply checkConnection_all_fail; try done. by rewrite Ha.
    + do 3 eexists. by eapply checkConnection_first_success.
Qed.

Lemma checkConnection_heaps w c w' :
  quiescent w -> checkConnection c w = Ret tt w' ->
  exists cm b, cms w !! c = Some cm /\
    cms w' = <[c := cm_with_connected b cm]> (cms w) /\ hcs w' = hcs w.
Proof.
  intros Hq H. assert (H' := H). unfold checkConnection in H'.
  apply bind_Ret_inv in H' as ([] & w1 & Hlock & _).
  apply cm_acquire_inv in Hlock as [cm Hc].
  destruct (quiescent_cm w c cm Hq Hc) as [Hmu _].
  destruct (checkConnection_total w c cm Hc Hmu) as (b & n & tr & Heq).
  rewrite Heq in H. injection H as <-. by exists cm, b.
Qed.

Lemma ForceReconnect_heaps w c w' :
  quiescent w -> ForceReconnect c w = Ret tt w' ->
  exists cm b, cms w !! c = Some cm /\
    cms w' = <[c := cm_with_connected b cm]> (cms w) /\ hcs w' = hcs w.
Proof.
  intros Hq H. assert (H' := H). unfold ForceReconnect in H'.
  apply bind_Ret_inv in H' as ([] & w1 & Hlock & _).
  apply cm_acquire_inv in Hlock as [cm Hc].
  destruct (quiescent_cm w c cm Hq Hc) as [Hmu _].
  rewrite (ForceReconnect_eq w c cm Hc Hmu) in H. injection H as <-.
  by exists cm, false.
Qed.

Lemma performHealthCheck_heaps w h w' :
  quiescent w -> performHealthCheck h w = Ret tt w' ->
  exists hc, hcs w !! h = Some hc /\ cms w' = cms w /\
    hcs w' = <[h := hc_with_healthy (check_verdict w hc)
                      (hc_with_lastCheck (clock w) hc)]> (hcs w).
Proof.
  intros Hq H. assert (H' := H). unfold performHealthCheck in H'.
  apply bind_Ret_inv in H' as ([] & w1 & Hlock & _).
  apply hc_acquire_inv in Hlock as [hc Hh].
  destruct (quiescent_hc w h hc Hq Hh) as (Hmu & _ & Hcm & _).
  rewrite (performHealthCheck_eq w h hc Hh Hmu Hcm) in H. injection H as <-.
  by exists hc.
Qed.

Lemma IsConnected_same w c b w' :
  quiescent w -> IsConnected c w = Ret b w' -> w' = w.
Proof.
  intros Hq H. assert (H' := H). unfold IsConnected in H'.
  apply bind_Ret_inv in H' as ([] & w1 & Hlock & _).
  apply cm_acquire_inv in Hlock as [cm Hc].
  destruct (quiescent_cm w c cm Hq Hc) as [Hmu _].
  rewrite (IsConnected_eq w c cm Hc) in H by (by rewrite Hmu).
  by injection H.
Qed.

Lemma hc_accessor_same {A} (body : HealthChecker -> A) w h a w' :
  quiescent w ->
  (hc_RLock h ;; let* hc := get_hc h in hc_RUnlock h ;; ret (body hc)) w = Ret a w' ->
  w' = w.
Proof.
  intros Hq H. assert (H' := H).
  apply bind_Ret_inv in H' as ([] & w1 & Hlock & _).
  apply hc_acquire_inv in Hlock as [hc Hh].
  destruct (quiescent_hc w h hc Hq Hh) as (Hmu & _).
  destruct hc as [m o mu b t e ch tk]; cbn in Hmu; subst mu.
  revert H. mrun. intros [= _ <-]. wnorm. by apply insert_id.
Qed.

Lemma discard_inv {A} (m : M A) w w' :
  discard m w = Ret tt w' -> exists a, m w = Ret a w'.
Proof.
  unfold discard. intros H. apply bind_Ret_inv in H as (a & w1 & Hm & Hret).
  injection Hret as <-. by exists a.
Qed.

Lemma loop_turn_inv p iter w w' :
  loop_turn p iter w = Ret tt w' ->
  exists b w1, iter w = Ret b w1 /\ cms w' = cms w1 /\ hcs w' = hcs w1.
Proof.
  unfold loop_turn. intros H.
  apply bind_Ret_inv in H as ([] & w0 & Hs & H).
  unfold scheduled in Hs. destruct (existsb p (goroutines w)); [ | discriminate ].
  injection Hs as <-.
  apply bind_Ret_inv in H as (b & w1 & Hiter & H).
  exists b, w1. split; [ done | ].
  destruct b; injection H as <-; by cbn.
Qed.

Lemma step_heap_effect w o w' :
  quiescent w -> step w o w' -> heap_effect w o w'.
Proof.
  intros Hq [Hadm Hexec].
  destruct o; cbn [exec heap_effect] in *.
  - apply discard_inv in Hexec as [c Hexec].
    pose proof (NewConnectionManager_eq w metrics addrs) as Heq. cbn zeta in Heq.
    rewrite Heq in Hexec. by injection Hexec as _ <-.
  - apply discard_inv in Hexec as [h Hexec].
    rewrite NewHealthChecker_eq in Hexec. by injection Hexec as _ <-.
  - injection Hexec as <-. by cbn.
  - apply ConnectionManager_Stop_inv in Hexec
      as (cm & Hc & Hmu & [[Hch ->] | (Hch & h & hc & Hhc & Hh & Hmu' & ->)]).
    + exists cm. split; [ done | ]. by left.
    + exists cm. split; [ done | ]. right. split; [ done | ].
      by exists h, hc.
  - apply discard_inv in Hexec as [b Hexec].
    by apply IsConnected_same in Hexec as ->.
  - apply discard_inv in Hexec as [b Hexec].
    unfold GetHealthChecker, bind, get_cm, ret in Hexec.
    destruct (cms w !! c); [ | discriminate ]. by injection Hexec as _ <-.
  - by apply ForceReconnect_heaps.
  - by apply checkConnection_heaps.
  - apply loop_turn_inv in Hexec as (b & w1 & Hiter & -> & ->).
    destruct choice; cbn [ConnectionManager_run] in Hiter.
    + unfold bind, get_cm, ret, block in Hiter.
      destruct (cms w !! c) as [cm|]; [ | discriminate ].
      destruct (chan_ready (cm_stopCh cm)); [ | discriminate ].
      by injection Hiter as _ <-.
    + apply bind_Ret_inv in Hiter as ([] & w2 & Hrun & Hret).
      injection Hret as _ <-. by apply checkConnection_heaps.
  - injection Hexec as <-. by cbn.
  - apply HealthChecker_Stop_inv in Hexec as (hc & Hh & Hmu & ->).
    by exists hc.
  - apply discard_inv in Hexec as [b Hexec].
    by apply (hc_accessor_same healthy) in Hexec as ->.
  - apply discard_inv in Hexec as [b Hexec].
    by apply (hc_accessor_same lastCheck) in Hexec as ->.
  - apply discard_inv in Hexec as [b Hexec].
    by apply (hc_accessor_same (fun hc => to_int intSize (errorCount hc))) in Hexec as ->.
  - by apply performHealthCheck_heaps.
  - apply loop_turn_inv in Hexec as (b & w1 & Hiter & -> & ->).
    destruct choice; cbn [HealthChecker_run] in Hiter.
    + unfold bind, get_hc, ret, block in Hiter.
      destruct (hcs w !! h) as [hc|]; [ | discriminate ].
      destruct (chan_ready (hc_stopCh hc)); [ | discriminate ].
      by injection Hiter as _ <-.
    + apply bind_Ret_inv in Hiter as ([] & w2 & Hrun & Hret).
      injection Hret as _ <-. by apply performHealthCheck_heaps.
  - injection Hexec as <-. by cbn.
Qed.

Lemma step_quiescent w o w' :
  quiescent w -> step w o w' -> quiescent w'.
Proof.
  intros Hq Hstep.
  pose proof (step_heap_effect w o w' Hq Hstep) as Heff.
  destruct Hstep as [Hadm _].
  unfold quiescent in *.
  destruct o; cbn [heap_effect admissible] in *.
  - destruct Heff as [-> ->].
    apply heap_inv_new_pair; [ done | apply fresh_cm_None | apply fresh_hc_None ].
  - destruct Heff as [-> ->].
    apply heap_inv_alloc_hc; [ done | apply fresh_hc_None | ].
    repeat split; try done.
    intros c' Hc'. cbn in Hc'. subst cm. exact Hadm.
  - by destruct Heff as [-> ->].
  - destruct Heff as (cm & Hc & [(Hch & -> & ->) | (Hch & h & hc & Hhc & Hh & -> & ->)]);
      [ done | ].
    apply heap_inv_after_stop; [ | done ].
    apply (heap_inv_update_cm _ _ c cm); try done.
    destruct (quiescent_cm w c cm Hq Hc) as [Hmu _]. exact Hmu.
  - by destruct Heff as [-> ->].
  - by destruct Heff as [-> ->].
  - destruct Heff as (cm & b & Hc & -> & ->).
    apply (heap_inv_update_cm _ _ c cm); try done.
    destruct (quiescent_cm w c cm Hq Hc) as [Hmu _]. exact Hmu.
  - destruct Heff as (cm & b & Hc & -> & ->).
    apply (heap_inv_update_cm _ _ c cm); try done.
    destruct (quiescent_cm w c cm Hq Hc) as [Hmu _]. exact Hmu.
  - destruct choice.
    + by destruct Heff as [-> ->].
    + destruct Heff as (cm & b & Hc & -> & ->).
      apply (heap_inv_update_cm _ _ c cm); try done.
      destruct (quiescent_cm w c cm Hq Hc) as [Hmu _]. exact Hmu.
  - by destruct Heff as [-> ->].
  - destruct Heff as (hc & Hh & -> & ->). by apply heap_inv_after_stop.
  - by destruct Heff as [-> ->].
  - by destruct Heff as [-> ->].
  - by destruct Heff as [-> ->].
  - destruct Heff as (hc & Hh & -> & ->).
    destruct (quiescent_hc w h hc Hq Hh) as (Hmu & He & _ & Htk).
    by apply (heap_inv_update_hc _ _ h hc).
  - destruct choice.
    + by destruct Heff as [-> ->].
    + destruct Heff as (hc & Hh & -> & ->).
      destruct (quiescent_hc w h hc Hq Hh) as (Hmu & He & _ & Htk).
      by apply (heap_inv_update_hc _ _ h hc).
  - by destruct Heff as [-> ->].
Qed.

Lemma reachable_quiescent w : reachable w -> quiescent w.
Proof.
  induction 1 as [t0 net | w o w' _ IH Hstep].
  - apply empty_world_quiescent.
  - by eapply step_quiescent.
Qed.

(** ** Lifecycle *)

(** C7: in a state the system can reach, the first [Stop()] of a connection
    manager (its stop channel is still open) returns, closes that channel,
    and stops the health checker the manager owns: afterwards the health
    checker's stop channel is closed and its ticker no longer fires, so both
    components are in the Stopped state. *)
Theorem ConnectionManager_Stop_stops_both w c cm :
  reachable w -> cms w !! c = Some cm -> cm_stopCh cm = ChanOpen ->
  exists w' h cm' hc',
    ConnectionManager_Stop c w = Ret tt w' /\
    healthChecker cm = Some h /\
    GetHealthChecker c w' = Ret (Some h) w' /\
    cms w' !! c = Some cm' /\ cm_stopCh cm' = ChanClosed /\
    hcs w' !! h = Some hc' /\ hc_stopCh hc' = ChanClosed /\
    tk_running (checkTicker hc') = false /\
    cm_state w' c = Some Stopped /\ hc_state w' h = Some Stopped.
Proof.
  intros Hreach Hc Hch.
  apply reachable_quiescent in Hreach as Hq.
  destruct (quiescent_cm w c cm Hq Hc) as (Hmu & h & hc & Hhc & Hh & Hmu').
  destruct (quiescent_hc w h hc Hq Hh) as (_ & _ & _ & Htk).
  assert (exists hc', hcs_after_stop h hc (hcs w) !! h = Some hc' /\
                      hc_stopCh hc' = ChanClosed /\
                      tk_running (checkTicker hc') = false)
    as (hc' & Hh' & Hch' & Htk').
  { unfold hcs_after_stop. destruct (hc_stopCh hc) eqn:E.
    - exists (hc_stopped hc). by rewrite lookup_insert_eq.
    - exists hc. auto. }
  eexists. exists h, (cm_with_stopCh ChanClosed cm), hc'.
  split; [ by eapply ConnectionManager_Stop_open | ].
  split; [ done | ].
  split.
  { erewrite GetHealthChecker_eq; [ | cbn; apply lookup_insert_eq ].
    cbn. by rewrite Hhc. }
  unfold cm_state, hc_state. cbn [cms hcs w_with_cms w_with_hcs].
  rewrite lookup_insert_eq, Hh'. cbn. rewrite Hch'. by cbn.
Qed.

(** ** The error count *)

Lemma to_int_0 n : n = 32 \/ n = 64 -> to_int n 0 = 0.
Proof. intros [-> | ->]; reflexivity. Qed.

(** C9: in every state the system can reach - by constructing components,
    starting and stopping them, probe cycles, check cycles, forced
    reconnections, accessor calls and the passing of time - every health
    checker has [errorCount = 0]; so [GetErrorCount()] returns 0, and a
    check cycle in the fallback regime always leaves the verdict healthy. *)
Theorem errorCount_stays_zero w h hc :
  reachable w -> hcs w !! h = Some hc ->
  errorCount hc = 0 /\
  (forall intSize, intSize = 32 \/ intSize = 64 ->
                   GetErrorCount intSize h w = Ret 0 w) /\
  (fallback_regime w hc ->
   exists w', performHealthCheck h w = Ret tt w' /\ IsHealthy h w' = Ret true w').
Proof.
  intros Hreach Hh.
  apply reachable_quiescent in Hreach as Hq.
  destruct (quiescent_hc w h hc Hq Hh) as (Hmu & He & Hcm & _).
  split; [ exact He | ]. split.
  - intros n Hn. rewrite (GetErrorCount_eq n w h hc Hh) by (by rewrite Hmu).
    by rewrite He, to_int_0.
  - intros Hfb.
    destruct (performHealthCheck_after w h hc Hh Hmu Hcm)
      as (w' & Hrun & Hhealthy & _).
    exists w'. split; [ exact Hrun | ].
    rewrite Hhealthy. f_equal. unfold check_verdict. rewrite He.
    destruct Hfb as [-> | (c & cm & -> & -> & ->)]; reflexivity.
Qed.

(** ** Fresh components *)

Lemma step_keeps_healthy w o w' h hc hc' :
  quiescent w -> step w o w' -> is_check_cycle h o = false ->
  hcs w !! h = Some hc -> hcs w' !! h = Some hc' ->
  healthy hc' = healthy hc.
Proof.
  intros Hq Hstep Hno Hh Hh'.
  pose proof (step_heap_effect w o w' Hq Hstep) as Heff.
  assert (Hfresh : h <> fresh (dom (hcs w))).
  { intros ->. by rewrite fresh_hc_None in Hh. }
  assert (Hstop : forall h0 hc0,
             hcs w !! h0 = Some hc0 ->
             hcs_after_stop h0 hc0 (hcs w) !! h = Some hc' ->
             healthy hc' = healthy hc).
  { intros h0 hc0 Hh0. unfold hcs_after_stop.
    destruct (hc_stopCh hc0); [ | congruence ].
    rewrite lookup_insert. case_decide as Heq.
    - subst h0. intros [= <-]. cbn. congruence.
    - congruence. }
  destruct o; cbn [heap_effect is_check_cycle] in *.
  - destruct Heff as [_ Heq]. rewrite Heq, lookup_insert_ne in Hh' by done. congruence.
  - destruct Heff as [_ Heq]. rewrite Heq, lookup_insert_ne in Hh' by done. congruence.
  - destruct Heff as [_ Heq]. congruence.
  - destruct Heff as (cm & Hc & [(_ & _ & Heq) | (_ & h0 & hc0 & _ & Hh0 & _ & Heq)]).
    + congruence.
    + rewrite Heq in Hh'. by eapply Hstop.
  - destruct Heff as [_ Heq]. congruence.
  - destruct Heff as [_ Heq]. congruence.
  - destruct Heff as (cm & b & _ & _ & Heq). congruence.
  - destruct Heff as (cm & b & _ & _ & Heq). congruence.
  - destruct choice.
    + destruct Heff as [_ Heq]. congruence.
    + destruct Heff as (cm & b & _ & _ & Heq). congruence.
  - destruct Heff as [_ Heq]. congruence.
  - destruct Heff as (hc0 & Hh0 & _ & Heq). rewrite Heq in Hh'. by eapply Hstop.
  - destruct Heff as [_ Heq]. congruence.
  - destruct Heff as [_ Heq]. congruence.
  - destruct Heff as [_ Heq]. congruence.
  - destruct Heff as (hc0 & Hh0 & _ & Heq).
    apply Nat.eqb_neq in Hno.
    rewrite Heq, lookup_insert_ne in Hh' by done. congruence.
  - destruct choice.
    + destruct Heff as [_ Heq]. congruence.
    + destruct Heff as (hc0 & Hh0 & _ & Heq).
      apply Nat.eqb_neq in Hno.
      rewrite Heq, lookup_insert_ne in Hh' by done. congruence.
  - destruct Heff as [_ Heq]. congruence.
Qed.

(** C10: right after construction, before any cycle has run,
    [IsConnected()] of a new connection manager and [IsHealthy()] of its
    health checker (and of a health checker constructed on its own) return
    false - also in the fallback regime, where the first check cycle then
    turns the verdict to true; and in a reachable state no operation other
    than a check cycle of a health checker changes its [healthy] flag. *)
Theorem fresh_components_report_false w m addrs o :
  (exists c h w',
      NewConnectionManager m addrs w = Ret c w' /\
      IsConnected c w' = Ret false w' /\
      GetHealthChecker c w' = Ret (Some h) w' /\
      IsHealthy h w' = Ret false w' /\
      (addrs = [] ->
       exists w'', performHealthCheck h w' = Ret tt w'' /\
                   IsHealthy h w'' = Ret true w'')) /\
  (exists h w',
      NewHealthChecker m o w = Ret h w' /\
      IsHealthy h w' = Ret false w' /\
      (o = None ->
       exists w'', performHealthCheck h w' = Ret tt w'' /\
                   IsHealthy h w'' = Ret true w'')) /\
  (forall w1 op w2 h hc hc',
      reachable w1 -> step w1 op w2 -> is_check_cycle h op = false ->
      hcs w1 !! h = Some hc -> hcs w2 !! h = Some hc' ->
      healthy hc' = healthy hc).
Proof.
  split; [ | split ].
  - pose proof (NewConnectionManager_eq w m addrs) as Heq. cbn zeta in Heq.
    set (c := fresh (dom (cms w))) in *. set (h := fresh (dom (hcs w))) in *.
    set (w1 := w_with_cms (<[c := new_cm m addrs (Some h)]> (cms w))
                 (w_with_hcs (<[h := new_hc m (Some c) (clock w)]> (hcs w)) w)) in *.
    assert (Hc : cms w1 !! c = Some (new_cm m addrs (Some h)))
      by (cbn; apply lookup_insert_eq).
    assert (Hh : hcs w1 !! h = Some (new_hc m (Some c) (clock w)))
      by (cbn; apply lookup_insert_eq).
    exists c, h, w1. split; [ exact Heq | ].
    split; [ by apply (IsConnected_updated w1 c _ false Hc) | ].
    split; [ by rewrite (GetHealthChecker_eq w1 c _ Hc) | ].
    split; [ by apply (IsHealthy_updated w1 h _ false Hh) | ].
    intros ->.
    destruct (performHealthCheck_after w1 h _ Hh eq_refl)
      as (w'' & Hrun & Hhealthy & _).
    { intros c' [= <-]. eexists. split; [ exact Hc | reflexivity ]. }
    exists w''. split; [ exact Hrun | ]. rewrite Hhealthy. f_equal.
    unfold check_verdict. cbn [connMgr new_hc]. by rewrite Hc.
  - rewrite NewHealthChecker_eq.
    set (h := fresh (dom (hcs w))) in *.
    set (w1 := w_with_hcs (<[h := new_hc m o (clock w)]> (hcs w)) w) in *.
    assert (Hh : hcs w1 !! h = Some (new_hc m o (clock w)))
      by (cbn; apply lookup_insert_eq).
    exists h, w1. split; [ reflexivity | ].
    split; [ by apply (IsHealthy_updated w1 h _ false Hh) | ].
    intros ->.
    destruct (performHealthCheck_after w1 h _ Hh eq_refl)
      as (w'' & Hrun & Hhealthy & _).
    { intros c' Hc'. discriminate Hc'. }
    exists w''. split; [ exact Hrun | ]. by rewrite Hhealthy.
  - intros w1 op w2 h hc hc' Hreach. apply step_keeps_healthy.
    by apply reachable_quiescent.
Qed.

(** * The claims at concrete states *)

Lemma sample_world_reachable addrs : reachable (sample_world addrs).
Proof.
  apply (reachable_step (empty_world 0 sample_net)
           (OpNewConnectionManager 1%nat addrs)).
  - apply reachable_init.
  - split; [ exact I | reflexivity ].
Qed.

(** C3 at a connection manager without endpoints. *)
Lemma checkConnection_no_endpoints_witness :
  exists w',
    checkConnection 0%nat (sample_world []) = Ret tt w' /\
    IsConnected 0%nat w' = Ret true w' /\
    trace w' = [].
Proof.
  destruct (checkConnection_no_endpoints (sample_world []) 0%nat
              (new_cm 1%nat [] (Some 0%nat)))
    as (w' & Hrun & Hconn & _ & Htr & _);
    [ reflexivity | reflexivity | reflexivity | ].
  exists w'. repeat split; [ exact Hrun | exact Hconn | exact Htr ].
Defined.

(** C2 on three endpoints of which the second is the first to accept: one
    failed dial with its debug entry, the successful dial and the close,
    and no dial of the third endpoint. *)
Lemma checkConnection_probes_in_order_witness :
  exists w',
    checkConnection 0%nat (sample_world three_endpoints) = Ret tt w' /\
    IsConnected 0%nat w' = Ret true w' /\
    trace w' =
      [EvDial "tcp" "10.0.0.1:9876" nameServerProbeTimeout;
       EvLogDebug "RocketMQ NameServer probe failed" three_endpoints
         "connection refused";
       EvDial "tcp" "10.0.0.2:9876" nameServerProbeTimeout;
       EvConnClose 1%nat] /\
    dials w' = 2%nat.
Proof.
  destruct (checkConnection_probes_in_order (sample_world three_endpoints) 0%nat
              (new_cm 1%nat three_endpoints (Some 0%nat)))
    as (w' & b & Hrun & Hconn & _ & Hsucc & _);
    [ reflexivity | reflexivity | discriminate | ].
  destruct (Hsucc ["10.0.0.1:9876"] "10.0.0.2:9876" ["10.0.0.3:9876"] 1%nat)
    as (Hb & Htr & Hd & _).
  - reflexivity.
  - intros [|i] x Hi; cbn in Hi; [ | by destruct i ].
    injection Hi as <-. by exists "connection refused".
  - reflexivity.
  - subst b. exists w'. repeat split; [ exact Hrun | exact Hconn | exact Htr | exact Hd ].
Defined.

(** C1 on a health checker bound to a connection manager with endpoints,
    after a probe cycle that found one of them. *)
Lemma performHealthCheck_verdict_witness :
  exists w' b,
    performHealthCheck 0%nat (probed_world three_endpoints) = Ret tt w' /\
    IsHealthy 0%nat w' = Ret b w' /\
    IsConnected 0%nat w' = Ret b w'.
Proof.
  destruct (performHealthCheck_verdict (probed_world three_endpoints) 0%nat
              (new_hc 1%nat (Some 0%nat) 0))
    as (w' & b & Hrun & Hhealthy & Hbound & _).
  - reflexivity.
  - reflexivity.
  - intros c [= <-].
    exists (cm_with_connected true (new_cm 1%nat three_endpoints (Some 0%nat))).
    split; reflexivity.
  - exists w', b. split; [ exact Hrun | ]. split; [ exact Hhealthy | ].
    apply (Hbound 0%nat
             (cm_with_connected true (new_cm 1%nat three_endpoints (Some 0%nat))));
      [ reflexivity | reflexivity | discriminate ].
Defined.

(** C4 on an unreachable endpoint: the cycle after the failed probe reports
    unhealthy. *)
Lemma performHealthCheck_reports_witness :
  exists w' b,
    performHealthCheck 0%nat (probed_world ["10.0.0.1:9876"]) = Ret tt w' /\
    IsHealthy 0%nat w' = Ret b w' /\
    healthy_gauge 1%nat w' = Some b /\
    health_check_errors 1%nat w' =
      (health_check_errors 1%nat (probed_world ["10.0.0.1:9876"])
       + (if b then 0 else 1))%nat.
Proof.
  destruct (performHealthCheck_reports (probed_world ["10.0.0.1:9876"]) 0%nat
              (new_hc 1%nat (Some 0%nat) 0))
    as (w' & b & Hrun & Hhealthy & Hgauge & _ & Herr).
  - reflexivity.
  - reflexivity.
  - intros c [= <-].
    exists (cm_with_connected false (new_cm 1%nat ["10.0.0.1:9876"] (Some 0%nat))).
    split; reflexivity.
  - exists w', b. repeat split; [ exact Hrun | exact Hhealthy | exact Hgauge | exact Herr ].
Defined.

(** C5 on a connection manager that a probe cycle had marked connected. *)
Lemma ForceReconnect_effect_witness :
  exists w',
    ForceReconnect 0%nat (probed_world []) = Ret tt w' /\
    IsConnected 0%nat w' = Ret false w' /\
    reconnection_count 1%nat w' = 1%nat.
Proof.
  destruct (ForceReconnect_effect (probed_world []) 0%nat
              (cm_with_connected true (new_cm 1%nat [] (Some 0%nat))))
    as (w' & cm' & Hrun & Hconn & Hcount & _);
    [ reflexivity | reflexivity | ].
  exists w'. repeat split; [ exact Hrun | exact Hconn | exact Hcount ].
Defined.

(** C6 on a connection manager: the second [Stop()] changes nothing. *)
Lemma Stop_twice_is_noop_witness :
  Stop (OfConnectionManager 0%nat)
       (after (Stop (OfConnectionManager 0%nat)) (sample_world []))
  = Ret tt (after (Stop (OfConnectionManager 0%nat)) (sample_world [])).
Proof.
  apply (Stop_twice_is_noop (OfConnectionManager 0%nat) (sample_world [])).
  vm_compute. reflexivity.
Defined.

(** C7 on a freshly constructed connection manager. *)
Lemma ConnectionManager_Stop_stops_both_witness :
  exists w',
    ConnectionManager_Stop 0%nat (sample_world three_endpoints) = Ret tt w' /\
    cm_state w' 0%nat = Some Stopped /\ hc_state w' 0%nat = Some Stopped.
Proof.
  destruct (ConnectionManager_Stop_stops_both (sample_world three_endpoints) 0%nat
              (new_cm 1%nat three_endpoints (Some 0%nat)))
    as (w' & h & cm' & hc' & Hrun & Hh & _ & _ & _ & _ & _ & _ & Hcm & Hhc).
  - apply sample_world_reachable.
  - reflexivity.
  - reflexivity.
  - injection Hh as <-. exists w'. repeat split; [ exact Hrun | exact Hcm | exact Hhc ].
Defined.

(** C8 on a check cycle that runs 25 time units after construction. *)
Lemma performHealthCheck_bookkeeping_witness :
  exists w',
    performHealthCheck 0%nat (after (exec (OpAdvance 25)) (sample_world [])) = Ret tt w' /\
    health_check_count 1%nat w' = 1%nat /\
    GetLastCheck 0%nat w' = Ret 25 w'.
Proof.
  destruct (performHealthCheck_bookkeeping
              (after (exec (OpAdvance 25)) (sample_world [])) 0%nat
              (new_hc 1%nat (Some 0%nat) 0))
    as (w' & b & rest & w_mid & hc_read & hc_mid & Hrun & _ & Hcount & Hlast & _).
  - reflexivity.
  - reflexivity.
  - intros c [= <-]. exists (new_cm 1%nat [] (Some 0%nat)). split; reflexivity.
  - exists w'. repeat split; [ exact Hrun | exact Hcount | exact Hlast ].
Defined.

(** C9 on the sample connection manager's health checker. *)
Lemma errorCount_stays_zero_witness :
  errorCount (new_hc 1%nat (Some 0%nat) 0) = 0 /\
  GetErrorCount 64 0%nat (sample_world []) = Ret 0 (sample_world []) /\
  exists w',
    performHealthCheck 0%nat (sample_world []) = Ret tt w' /\
    IsHealthy 0%nat w' = Ret true w'.
Proof.
  destruct (errorCount_stays_zero (sample_world []) 0%nat
              (new_hc 1%nat (Some 0%nat) 0))
    as (Hzero & Hget & Hfallback).
  - apply sample_world_reachable.
  - reflexivity.
  - split; [ exact Hzero | ]. split; [ apply Hget; by right | ].
    apply Hfallback. right.
    exists 0%nat, (new_cm 1%nat [] (Some 0%nat)). repeat split; reflexivity.
Defined.

(** C10 in a fresh process: a connection manager without endpoints is
    constructed, and a check cycle is the first thing to make it healthy;
    a probe cycle in between does not. *)
Lemma fresh_components_report_false_witness :
  (exists c h w',
      NewConnectionManager 1%nat [] (empty_world 0 sample_net) = Ret c w' /\
      IsConnected c w' = Ret false w' /\
      IsHealthy h w' = Ret false w' /\
      exists w'', performHealthCheck h w' = Ret tt w'' /\
                  IsHealthy h w'' = Ret true w'') /\
  healthy (new_hc 1%nat (Some 0%nat) 0) = false.
Proof.
  destruct (fresh_components_report_false (empty_world 0 sample_net) 1%nat [] None)
    as ((c & h & w' & Hnew & Hconn & _ & Hhealthy & Hcycle) & _ & Hframe).
  split.
  - exists c, h, w'. repeat split; [ exact Hnew | exact Hconn | exact Hhealthy | ].
    apply Hcycle. reflexivity.
  - symmetry.
    apply (Hframe (sample_world []) (OpCheckConnection 0%nat) (probed_world [])
             0%nat (new_hc 1%nat (Some 0%nat) 0) (new_hc 1%nat (Some 0%nat) 0)).
    + apply sample_world_reachable.
    + split; [ exact I | reflexivity ].
    + reflexivity.
    + reflexivity.
    + reflexivity.
Defined.

(** * Further properties *)

(** ** What each operation does to the world *)

Lemma sockets_balanced_app net tr1 tr2 : forall n p n1,
  sockets_balanced net n p tr1 = Some n1 ->
  sockets_balanced net n p (tr1 ++ tr2) = sockets_balanced net n1 None tr2.
Proof.
  induction tr1 as [|e tr1 IH]; intros n p n1 H.
  - destruct p; cbn in H; [ discriminate | ]. by injection H as <-.
  - cbn [app sockets_balanced] in *.
    destruct p as [conn|].
    + destruct e; try discriminate.
      destruct (Nat.eqb conn conn0); [ by apply IH | discriminate ].
    + destruct e; try discriminate; try (by apply IH).
      destruct (net n addr); by apply IH.
Qed.

Lemma failed_probes_probe_events net n all addrs :
  Forall (fun e => is_probe_event e = true) (failed_probes net n all addrs).
Proof.
  revert n. induction addrs as [|a rest IH]; intros n; cbn [failed_probes].
  - constructor.
  - constructor; [ done | ]. constructor; [ done | apply IH ].
Qed.

Lemma failed_probes_balanced net all addrs : forall n,
  all_fail net n addrs ->
  sockets_balanced net n None (failed_probes net n all addrs)
  = Some (n + length addrs)%nat.
Proof.
  induction addrs as [|a rest IH]; intros n Hfail; cbn [failed_probes length].
  - cbn. by rewrite Nat.add_0_r.
  - apply all_fail_cons in Hfail as [[e He] Hrest].
    cbn [sockets_balanced]. rewrite He. cbn [sockets_balanced].
    rewrite IH by done. by rewrite Nat.add_succ_r.
Qed.

Lemma checkConnection_world w c cm :
  cms w !! c = Some cm -> cm_mu cm = mutex_free ->
  exists b k tr,
    probe_trace (network w) (dials w) tr k /\
    checkConnection c w =
      Ret tt (w_with_cms (<[c := cm_with_connected b cm]> (cms w))
                (w_with_dials (dials w + k)%nat (w_with_trace (trace w ++ tr) w))).
Proof.
  intros Hc Hmu.
  destruct (nameServerAddrs cm) as [|a0 a] eqn:Ha.
  - exists true, 0%nat, []. split.
    + split; [ constructor | ]. split; [ reflexivity | ].
      cbn. by rewrite Nat.add_0_r.
    + rewrite (checkConnection_empty w c cm) by done. wdone.
  - destruct (first_success_or_all_fail (network w) (nameServerAddrs cm) (dials w))
      as [Hall | (pre & x & post & conn & Hx & Hpre & Hok)].
    + exists false, (length (nameServerAddrs cm)), 
        (failed_probes (network w) (dials w) (nameServerAddrs cm) (nameServerAddrs cm)).
      split.
      * split; [ apply failed_probes_probe_events | ].
        split; [ apply failed_probes_dials | by apply failed_probes_balanced ].
      * apply checkConnection_all_fail; try done. by rewrite Ha.
    + exists true, (S (length pre)),
        (failed_probes (network w) (dials w) (nameServerAddrs cm) pre
           ++ [EvDial "tcp" x nameServerProbeTimeout; EvConnClose conn]).
      split.
      * split; [ | split ].
        -- apply Forall_app. split; [ apply failed_probes_probe_events | ].
           by repeat constructor.
        -- rewrite count_events_app, failed_probes_dials. cbn. lia.
        -- rewrite (sockets_balanced_app _ _ _ _ _ _
                      (failed_probes_balanced _ _ _ _ Hpre)).
           cbn [sockets_balanced]. rewrite Hok. cbn [sockets_balanced].
           rewrite Nat.eqb_refl. f_equal. lia.
      * rewrite (checkConnection_first_success w c cm pre x post conn) by done.
        wdone.
Qed.

Lemma checkConnection_world_inv w c w' :
  quiescent w -> checkConnection c w = Ret tt w' ->
  exists cm b k tr, cms w !! c = Some cm /\
    probe_trace (network w) (dials w) tr k /\
    w' = w_with_cms (<[c := cm_with_connected b cm]> (cms w))
           (w_with_dials (dials w + k)%nat (w_with_trace (trace w ++ tr) w)).
Proof.
  intros Hq H. assert (H' := H). unfold checkConnection in H'.
  apply bind_Ret_inv in H' as ([] & w1 & Hlock & _).
  apply cm_acquire_inv in Hlock as [cm Hc].
  destruct (quiescent_cm w c cm Hq Hc) as [Hmu _].
  destruct (checkConnection_world w c cm Hc Hmu) as (b & k & tr & Htr & Heq).
  rewrite Heq in H. injection H as <-. by exists cm, b, k, tr.
Qed.

Lemma performHealthCheck_world_inv w h w' :
  quiescent w -> performHealthCheck h w = Ret tt w' ->
  exists hc, hcs w !! h = Some hc /\
    w' = w_with_trace (trace w ++ check_events w hc)
           (w_with_hcs (<[h := hc_with_healthy (check_verdict w hc)
                                 (hc_with_lastCheck (clock w) hc)]> (hcs w)) w).
Proof.
  intros Hq H. assert (H' := H). unfold performHealthCheck in H'.
  apply bind_Ret_inv in H' as ([] & w1 & Hlock & _).
  apply hc_acquire_inv in Hlock as [hc Hh].
  destruct (quiescent_hc w h hc Hq Hh) as (Hmu & _ & Hcm & _).
  rewrite (performHealthCheck_eq w h hc Hh Hmu Hcm) in H. injection H as <-.
  by exists hc.
Qed.

Lemma loop_turn_world p iter w w' :
  loop_turn p iter w = Ret tt w' ->
  existsb p (goroutines w) = true /\
  exists b w1, iter w = Ret b w1 /\
    w' = if b then w1 else w_with_goroutines (remove_first p (goroutines w1)) w1.
Proof.
  unfold loop_turn. intros H.
  apply bind_Ret_inv in H as ([] & w0 & Hs & H).
  unfold scheduled in Hs. destruct (existsb p (goroutines w)); [ | discriminate ].
  injection Hs as <-. split; [ done | ].
  apply bind_Ret_inv in H as (b & w1 & Hiter & H).
  exists b, w1. split; [ done | ].
  destruct b; by injection H as <-.
Qed.

Lemma step_world_effect w o w' :
  quiescent w -> step w o w' -> world_effect w o w'.
Proof.
  intros Hq [Hadm Hexec].
  destruct o; cbn [exec world_effect] in *.
  - apply discard_inv in Hexec as [c Hexec].
    pose proof (NewConnectionManager_eq w metrics addrs) as Heq. cbn zeta in Heq.
    rewrite Heq in Hexec. by injection Hexec as _ <-.
  - apply discard_inv in Hexec as [h Hexec].
    rewrite NewHealthChecker_eq in Hexec. by injection Hexec as _ <-.
  - by injection Hexec as <-.
  - apply ConnectionManager_Stop_inv in Hexec
      as (cm & Hc & Hmu & [[Hch ->] | (Hch & h & hc & Hhc & Hh & Hmu' & ->)]).
    + exists cm. split; [ done | ]. by left.
    + exists cm. split; [ done | ]. right. split; [ done | ].
      by exists h, hc.
  - apply discard_inv in Hexec as [b Hexec].
    by apply IsConnected_same in Hexec as ->.
  - apply discard_inv in Hexec as [b Hexec].
    unfold GetHealthChecker, bind, get_cm, ret in Hexec.
    destruct (cms w !! c); [ | discriminate ]. by injection Hexec as _ <-.
  - assert (H' := Hexec). unfold ForceReconnect in H'.
    apply bind_Ret_inv in H' as ([] & w1 & Hlock & _).
    apply cm_acquire_inv in Hlock as [cm Hc].
    destruct (quiescent_cm w c cm Hq Hc) as [Hmu _].
    rewrite (ForceReconnect_eq w c cm Hc Hmu) in Hexec. injection Hexec as <-.
    by exists cm.
  - by apply checkConnection_world_inv.
  - apply loop_turn_world in Hexec as (Hsched & b & w1 & Hiter & ->).
    destruct choice; cbn [ConnectionManager_run] in Hiter.
    + unfold bind, get_cm, ret, block in Hiter.
      destruct (cms w !! c) as [cm|] eqn:Hc; [ | discriminate ].
      destruct (cm_stopCh cm) eqn:Hch; cbn [chan_ready] in Hiter; [ discriminate | ].
      injection Hiter as <- <-. split; [ by exists cm | done ].
    + apply bind_Ret_inv in Hiter as ([] & w2 & Hrun & Hret).
      injection Hret as <- <-. by apply checkConnection_world_inv.
  - by injection Hexec as <-.
  - apply HealthChecker_Stop_inv in Hexec as (hc & Hh & Hmu & ->).
    by exists hc.
  - apply discard_inv in Hexec as [b Hexec].
    by apply (hc_accessor_same healthy) in Hexec as ->.
  - apply discard_inv in Hexec as [b Hexec].
    by apply (hc_accessor_same lastCheck) in Hexec as ->.
  - apply discard_inv in Hexec as [b Hexec].
    by apply (hc_accessor_same (fun hc => to_int intSize (errorCount hc))) in Hexec as ->.
  - by apply performHealthCheck_world_inv.
  - apply loop_turn_world in Hexec as (Hsched & b & w1 & Hiter & ->).
    destruct choice; cbn [HealthChecker_run] in Hiter.
    + unfold bind, get_hc, ret, block in Hiter.
      destruct (hcs w !! h) as [hc|] eqn:Hh; [ | discriminate ].
      destruct (hc_stopCh hc) eqn:Hch; cbn [chan_ready] in Hiter; [ discriminate | ].
      injection Hiter as <- <-. split; [ by exists hc | done ].
    + apply bind_Ret_inv in Hiter as ([] & w2 & Hrun & Hret).
      injection Hret as <- <-. by apply performHealthCheck_world_inv.
  - by injection Hexec as <-.
Qed.

Lemma steps_reachable w os w' : reachable w -> steps w os w' -> reachable w'.
Proof.
  intros Hr Hs. induction Hs as [w | w o w1 os w2 Hstep _ IH]; [ done | ].
  apply IH. by eapply reachable_step.
Qed.

(** ** What no operation changes *)

Lemma insert_lookup_cases {A} (m : gmap loc A) k0 y k x :
  m !! k = Some x ->
  exists x', <[k0 := y]> m !! k = Some x' /\
             ((k = k0 /\ x' = y) \/ (k <> k0 /\ x' = x)).
Proof.
  intros Hk. destruct (decide (k = k0)) as [->|Hne].
  - exists y. rewrite lookup_insert_eq. split; [ done | by left ].
  - exists x. rewrite lookup_insert_ne by done. split; [ done | by right ].
Qed.

Lemma after_stop_lookup_cases h0 hc0 (hs : gmap loc HealthChecker) h hc :
  hs !! h0 = Some hc0 -> hs !! h = Some hc ->
  exists hc', hcs_after_stop h0 hc0 hs !! h = Some hc' /\
              (hc' = hc \/ (h = h0 /\ hc = hc0 /\ hc' = hc_stopped hc)).
Proof.
  intros Hh0 Hh. unfold hcs_after_stop. destruct (hc_stopCh hc0).
  - destruct (insert_lookup_cases hs h0 (hc_stopped hc0) h hc Hh)
      as (hc' & Hlook & [[-> ->] | [Hne ->]]).
    + exists (hc_stopped hc0). split; [ done | ]. right.
      assert (hc = hc0) as -> by congruence. done.
    + exists hc. split; [ done | by left ].
  - exists hc. split; [ done | by left ].
Qed.

(** One transition keeps every connection manager allocated, and changes
    at most its flag and its stop channel, which it can only close. *)
Lemma step_cm_fields w o w' c cm :
  quiescent w -> step w o w' -> cms w !! c = Some cm ->
  exists cm', cms w' !! c = Some cm' /\
    cm_metrics cm' = cm_metrics cm /\
    healthChecker cm' = healthChecker cm /\
    nameServerAddrs cm' = nameServerAddrs cm /\
    (cm_stopCh cm = ChanClosed -> cm_stopCh cm' = ChanClosed) /\
    (writes_connected c o = false -> connected cm' = connected cm).
Proof.
  intros Hq Hstep Hc.
  pose proof (step_heap_effect w o w' Hq Hstep) as Heff.
  assert (Hsame : cms w' = cms w ->
            exists cm', cms w' !! c = Some cm' /\
              cm_metrics cm' = cm_metrics cm /\
              healthChecker cm' = healthChecker cm /\
              nameServerAddrs cm' = nameServerAddrs cm /\
              (cm_stopCh cm = ChanClosed -> cm_stopCh cm' = ChanClosed) /\
              (writes_connected c o = false -> connected cm' = connected cm)).
  { intros ->. exists cm. by repeat split. }
  assert (Hflag : forall c0 cm0 b,
            cms w !! c0 = Some cm0 ->
            cms w' = <[c0 := cm_with_connected b cm0]> (cms w) ->
            (writes_connected c o = false -> c <> c0) ->
            exists cm', cms w' !! c = Some cm' /\
              cm_metrics cm' = cm_metrics cm /\
              healthChecker cm' = healthChecker cm /\
              nameServerAddrs cm' = nameServerAddrs cm /\
              (cm_stopCh cm = ChanClosed -> cm_stopCh cm' = ChanClosed) /\
              (writes_connected c o = false -> connected cm' = connected cm)).
  { intros c0 cm0 b Hc0 -> Hne.
    destruct (insert_lookup_cases (cms w) c0 (cm_with_connected b cm0) c cm Hc)
      as (cm' & Hlook & [[-> ->] | [Hne' ->]]).
    - assert (cm0 = cm) as -> by congruence.
      eexists. split; [ exact Hlook | ]. repeat split; try done.
      intros Hw. by destruct (Hne Hw).
    - exists cm. by repeat split. }
  destruct o; cbn [heap_effect writes_connected] in *;
    try (apply Hsame; by destruct Heff as [? ?]).
  - destruct Heff as [Heq _]. rewrite Heq.
    assert (c <> fresh (dom (cms w))) as Hne.
    { intros ->. by rewrite fresh_cm_None in Hc. }
    exists cm. rewrite lookup_insert_ne by done. by repeat split.
  - destruct Heff as (cm0 & Hc0 & [(_ & Heq & _) | (Hch & h & hc & _ & _ & Heq & _)]).
    + by apply Hsame.
    + rewrite Heq.
      destruct (insert_lookup_cases (cms w) c0 (cm_with_stopCh ChanClosed cm0) c cm Hc)
        as (cm' & Hlook & [[-> ->] | [Hne' ->]]).
      * assert (cm0 = cm) as -> by congruence.
        eexists. split; [ exact Hlook | ]. by repeat split.
      * exists cm. by repeat split.
  - destruct Heff as (cm0 & b & Hc0 & Heq & _). apply (Hflag c0 cm0 b); try done.
    intros Hw. by apply Nat.eqb_neq in Hw.
  - destruct Heff as (cm0 & b & Hc0 & Heq & _). apply (Hflag c0 cm0 b); try done.
    intros Hw. by apply Nat.eqb_neq in Hw.
  - destruct choice.
    + apply Hsame. by destruct Heff as [? ?].
    + destruct Heff as (cm0 & b & Hc0 & Heq & _). apply (Hflag c0 cm0 b); try done.
      intros Hw. by apply Nat.eqb_neq in Hw.
  - destruct Heff as (hc & _ & Heq & _). by apply Hsame.
  - destruct Heff as (hc & _ & Heq & _). by apply Hsame.
  - destruct choice.
    + apply Hsame. by destruct Heff as [? ?].
    + destruct Heff as (hc & _ & Heq & _). by apply Hsame.
Qed.

(** One transition keeps every health checker allocated, and changes at
    most its verdict, its time stamp, its stop channel and its ticker, the
    last two only towards stopped. *)
Lemma step_hc_fields w o w' h hc :
  quiescent w -> step w o w' -> hcs w !! h = Some hc ->
  exists hc', hcs w' !! h = Some hc' /\
    hc_metrics hc' = hc_metrics hc /\
    connMgr hc' = connMgr hc /\
    errorCount hc' = errorCount hc /\
    tk_period (checkTicker hc') = tk_period (checkTicker hc) /\
    (hc_stopCh hc = ChanClosed -> hc_stopCh hc' = ChanClosed) /\
    (tk_running (checkTicker hc) = false -> tk_running (checkTicker hc') = false) /\
    (lastCheck hc' = lastCheck hc \/ lastCheck hc' = clock w).
Proof.
  intros Hq Hstep Hh.
  pose proof (step_heap_effect w o w' Hq Hstep) as Heff.
  assert (Hsame : hcs w' = hcs w ->
            exists hc', hcs w' !! h = Some hc' /\
              hc_metrics hc' = hc_metrics hc /\
              connMgr hc' = connMgr hc /\
              errorCount hc' = errorCount hc /\
              tk_period (checkTicker hc') = tk_period (checkTicker hc) /\
              (hc_stopCh hc = ChanClosed -> hc_stopCh hc' = ChanClosed) /\
              (tk_running (checkTicker hc) = false ->
               tk_running (checkTicker hc') = false) /\
              (lastCheck hc' = lastCheck hc \/ lastCheck hc' = clock w)).
  { intros ->. exists hc. repeat split; try done. by left. }
  assert (Hfresh : forall x,
            hcs w' = <[fresh (dom (hcs w)) := x]> (hcs w) ->
            exists hc', hcs w' !! h = Some hc' /\
              hc_metrics hc' = hc_metrics hc /\
              connMgr hc' = connMgr hc /\
              errorCount hc' = errorCount hc /\
              tk_period (checkTicker hc') = tk_period (checkTicker hc) /\
              (hc_stopCh hc = ChanClosed -> hc_stopCh hc' = ChanClosed) /\
              (tk_running (checkTicker hc) = false ->
               tk_running (checkTicker hc') = false) /\
              (lastCheck hc' = lastCheck hc \/ lastCheck hc' = clock w)).
  { intros x ->.
    assert (h <> fresh (dom (hcs w))) as Hne.
    { intros ->. by rewrite fresh_hc_None in Hh. }
    exists hc. rewrite lookup_insert_ne by done. repeat split; try done. by left. }
  assert (Hstop : forall h0 hc0,
            hcs w !! h0 = Some hc0 ->
            hcs w' = hcs_after_stop h0 hc0 (hcs w) ->
            exists hc', hcs w' !! h = Some hc' /\
              hc_metrics hc' = hc_metrics hc /\
              connMgr hc' = connMgr hc /\
              errorCount hc' = errorCount hc /\
              tk_period (checkTicker hc') = tk_period (checkTicker hc) /\
              (hc_stopCh hc = ChanClosed -> hc_stopCh hc' = ChanClosed) /\
              (tk_running (checkTicker hc) = false ->
               tk_running (checkTicker hc') = false) /\
              (lastCheck hc' = lastCheck hc \/ lastCheck hc' = clock w)).
  { intros h0 hc0 Hh0 ->.
    destruct (after_stop_lookup_cases h0 hc0 (hcs w) h hc Hh0 Hh)
      as (hc' & Hlook & [-> | (-> & -> & ->)]).
    - exists hc. repeat split; try done. by left.
    - eexists. split; [ exact Hlook | ]. repeat split; try done. by left. }
  assert (Hcheck : forall h0 hc0 b,
            hcs w !! h0 = Some hc0 ->
            hcs w' = <[h0 := hc_with_healthy b (hc_with_lastCheck (clock w) hc0)]> (hcs w) ->
            exists hc', hcs w' !! h = Some hc' /\
              hc_metrics hc' = hc_metrics hc /\
              connMgr hc' = connMgr hc /\
              errorCount hc' = errorCount hc /\
              tk_period (checkTicker hc') = tk_period (checkTicker hc) /\
              (hc_stopCh hc = ChanClosed -> hc_stopCh hc' = ChanClosed) /\
              (tk_running (checkTicker hc) = false ->
               tk_running (checkTicker hc') = false) /\
              (lastCheck hc' = lastCheck hc \/ lastCheck hc' = clock w)).
  { intros h0 hc0 b Hh0 ->.
    destruct (insert_lookup_cases (hcs w) h0
                (hc_with_healthy b (hc_with_lastCheck (clock w) hc0)) h hc Hh)
      as (hc' & Hlook & [[-> ->] | [Hne' ->]]).
    - assert (hc0 = hc) as -> by congruence.
      eexists. split; [ exact Hlook | ]. repeat split; try done. by right.
    - exists hc. repeat split; try done. by left. }
  destruct o; cbn [heap_effect] in *;
    try (apply Hsame; by destruct Heff as [? ?]).
  - destruct Heff as [_ Heq]. by eapply Hfresh.
  - destruct Heff as [_ Heq]. by eapply Hfresh.
  - destruct Heff as (cm0 & Hc0 & [(_ & _ & Heq) | (Hch & h0 & hc0 & _ & Hh0 & _ & Heq)]).
    + by apply Hsame.
    + by eapply Hstop.
  - destruct Heff as (cm0 & b & _ & _ & Heq). by apply Hsame.
  - destruct Heff as (cm0 & b & _ & _ & Heq). by apply Hsame.
  - destruct choice.
    + apply Hsame. by destruct Heff as [? ?].
    + destruct Heff as (cm0 & b & _ & _ & Heq). by apply Hsame.
  - destruct Heff as (hc0 & Hh0 & _ & Heq). by eapply Hstop.
  - destruct Heff as (hc0 & Hh0 & _ & Heq). by eapply Hcheck.
  - destruct choice.
    + apply Hsame. by destruct Heff as [? ?].
    + destruct Heff as (hc0 & Hh0 & _ & Heq). by eapply Hcheck.
Qed.

Lemma admissibleb_spec w o : admissibleb w o = true -> admissible w o.
Proof.
  destruct o; cbn; try done.
  - destruct cm as [c|]; [ | done ].
    destruct (cms w !! c); [ by eexists | discriminate ].
  - intros H. by apply Z.leb_le.
Qed.

Lemma run_ops_steps os : forall w w', run_ops os w = Some w' -> steps w os w'.
Proof.
  induction os as [|o rest IH]; intros w w' H; cbn [run_ops] in H.
  - injection H as <-. constructor.
  - destruct (admissibleb w o) eqn:Hadm; [ | discriminate ].
    destruct (exec o w) as [[] w1| |] eqn:Hexec; [ | discriminate | discriminate ].
    apply (steps_cons w o w1); [ | by apply IH ].
    split; [ by apply admissibleb_spec | done ].
Qed.

Lemma steps_cm_fields w os w' c cm :
  reachable w -> steps w os w' -> cms w !! c = Some cm ->
  exists cm', cms w' !! c = Some cm' /\
    cm_metrics cm' = cm_metrics cm /\
    healthChecker cm' = healthChecker cm /\
    nameServerAddrs cm' = nameServerAddrs cm /\
    (cm_stopCh cm = ChanClosed -> cm_stopCh cm' = ChanClosed) /\
    (forallb (fun o => negb (writes_connected c o)) os = true ->
     connected cm' = connected cm).
Proof.
  intros Hr Hs. revert cm.
  induction Hs as [w | w o w1 os w2 Hstep _ IH]; intros cm Hc.
  - exists cm. by repeat split.
  - destruct (step_cm_fields w o w1 c cm (reachable_quiescent w Hr) Hstep Hc)
      as (cm1 & Hc1 & Hm1 & Hh1 & Ha1 & Hs1 & Hf1).
    destruct (IH (reachable_step w o w1 Hr Hstep) cm1 Hc1)
      as (cm2 & Hc2 & Hm2 & Hh2 & Ha2 & Hs2 & Hf2).
    exists cm2. split; [ done | ].
    repeat split; try congruence.
    + intros Hclosed. by apply Hs2, Hs1.
    + cbn [forallb]. intros Hall. apply andb_true_iff in Hall as [Ho Hos].
      apply negb_true_iff in Ho. rewrite (Hf2 Hos). by apply Hf1.
Qed.

Lemma steps_hc_fields w os w' h hc :
  reachable w -> steps w os w' -> hcs w !! h = Some hc ->
  exists hc', hcs w' !! h = Some hc' /\
    hc_metrics hc' = hc_metrics hc /\
    connMgr hc' = connMgr hc /\
    tk_period (checkTicker hc') = tk_period (checkTicker hc) /\
    (hc_stopCh hc = ChanClosed -> hc_stopCh hc' = ChanClosed) /\
    (tk_running (checkTicker hc) = false -> tk_running (checkTicker hc') = false).
Proof.
  intros Hr Hs. revert hc.
  induction Hs as [w | w o w1 os w2 Hstep _ IH]; intros hc Hh.
  - exists hc. by repeat split.
  - destruct (step_hc_fields w o w1 h hc (reachable_quiescent w Hr) Hstep Hh)
      as (hc1 & Hh1 & Hm1 & Hc1 & _ & Hp1 & Hs1 & Ht1 & _).
    destruct (IH (reachable_step w o w1 Hr Hstep) hc1 Hh1)
      as (hc2 & Hh2 & Hm2 & Hc2 & Hp2 & Hs2 & Ht2).
    exists hc2. split; [ done | ].
    repeat split; try congruence.
    + intros Hclosed. by apply Hs2, Hs1.
    + intros Hstopped. by apply Ht2, Ht1.
Qed.

(** ** Lifecycle and configuration *)




(** X2: the configuration is fixed at construction.  No sequence of
    operations deallocates a struct or changes a connection manager's
    endpoint list, metrics sink or health checker pointer, or a health
    checker's connection manager pointer, metrics sink or check interval. *)
Theorem configuration_is_immutable w os w' :
  reachable w -> steps w os w' ->
  (forall c cm, cms w !! c = Some cm ->
     exists cm', cms w' !! c = Some cm' /\
       nameServerAddrs cm' = nameServerAddrs cm /\
       cm_metrics cm' = cm_metrics cm /\
       healthChecker cm' = healthChecker cm) /\
  (forall h hc, hcs w !! h = Some hc ->
     exists hc', hcs w' !! h = Some hc' /\
       connMgr hc' = connMgr hc /\
       hc_metrics hc' = hc_metrics hc /\
       tk_period (checkTicker hc') = tk_period (checkTicker hc)).
Proof.
  intros Hr Hs. split.
  - intros c cm Hc.
    destruct (steps_cm_fields w os w' c cm Hr Hs Hc) as (cm' & Hc' & Hm & Hh & Ha & _).
    exists cm'. by repeat split.
  - intros h hc Hh.
    destruct (steps_hc_fields w os w' h hc Hr Hs Hh) as (hc' & Hh' & Hm & Hc & Hp & _).
    exists hc'. by repeat split.
Qed.

(** X3: the connectivity flag is written only by probe cycles and forced
    reconnections of its own manager.  Across any sequence of other
    operations - check cycles, Stop, Start, operations on other managers -
    [IsConnected()] keeps returning the same value. *)
Theorem connected_written_only_by_probe_and_ForceReconnect w os w' c cm :
  reachable w -> steps w os w' ->
  forallb (fun o => negb (writes_connected c o)) os = true ->
  cms w !! c = Some cm ->
  IsConnected c w = Ret (connected cm) w /\
  IsConnected c w' = Ret (connected cm) w'.
Proof.
  intros Hr Hs Hos Hc.
  destruct (steps_cm_fields w os w' c cm Hr Hs Hc) as (cm' & Hc' & _ & _ & _ & _ & Hconn).
  destruct (quiescent_cm w c cm (reachable_quiescent w Hr) Hc) as [Hmu _].
  destruct (quiescent_cm w' c cm'
              (reachable_quiescent w' (steps_reachable w os w' Hr Hs)) Hc') as [Hmu' _].
  split.
  - by apply (IsConnected_updated w c cm).
  - apply (IsConnected_updated w' c cm'); [ done | done | by apply Hconn ].
Qed.

(** ** Where structs come from *)

Lemma step_cm_origin w o w' c cm' :
  quiescent w -> step w o w' -> cms w' !! c = Some cm' ->
  (exists cm, cms w !! c = Some cm /\ healthChecker cm' = healthChecker cm) \/
  (cms w !! c = None /\
   exists m, healthChecker cm' = Some (fresh (dom (hcs w))) /\
             cm_stopCh cm' = ChanOpen /\
             hcs w' !! fresh (dom (hcs w)) = Some (new_hc m (Some c) (clock w))).
Proof.
  intros Hq Hstep Hc'.
  destruct (cms w !! c) as [cm|] eqn:Hc.
  - left. exists cm. split; [ done | ].
    destruct (step_cm_fields w o w' c cm Hq Hstep Hc) as (cm'' & Hc'' & _ & Hh & _).
    congruence.
  - right. split; [ done | ].
    pose proof (step_heap_effect w o w' Hq Hstep) as Heff.
    assert (Hsame : cms w' = cms w -> False) by (intros Heq; congruence).
    assert (Hupd : forall c0 cm0 x, cms w !! c0 = Some cm0 ->
                     cms w' = <[c0 := x]> (cms w) -> False).
    { intros c0 cm0 x Hc0 Heq. rewrite Heq in Hc'.
      rewrite lookup_insert_ne in Hc' by congruence. congruence. }
    destruct o; cbn [heap_effect] in *;
      try (exfalso; apply Hsame; by destruct Heff as [? ?]).
    + destruct Heff as [Hcs Hhs]. rewrite Hcs in Hc'.
      destruct (decide (fresh (dom (cms w)) = c)) as [<-|Hne].
      * rewrite lookup_insert_eq in Hc'. injection Hc' as <-.
        exists metrics. split; [ done | ]. split; [ done | ].
        rewrite Hhs. apply lookup_insert_eq.
      * rewrite lookup_insert_ne in Hc' by done. congruence.
    + exfalso.
      destruct Heff as (cm0 & Hc0 & [(_ & Heq & _) | (_ & h & hc & _ & _ & Heq & _)]);
        [ by apply Hsame | by eapply Hupd ].
    + exfalso. destruct Heff as (cm0 & b & Hc0 & Heq & _). by eapply Hupd.
    + exfalso. destruct Heff as (cm0 & b & Hc0 & Heq & _). by eapply Hupd.
    + exfalso. destruct choice.
      * apply Hsame. by destruct Heff as [? ?].
      * destruct Heff as (cm0 & b & Hc0 & Heq & _). by eapply Hupd.
    + exfalso. destruct Heff as (hc & _ & Heq & _). by apply Hsame.
    + exfalso. destruct Heff as (hc & _ & Heq & _). by apply Hsame.
    + exfalso. destruct choice.
      * apply Hsame. by destruct Heff as [? ?].
      * destruct Heff as (hc & _ & Heq & _). by apply Hsame.
Qed.

Lemma step_hc_origin w o w' h hc' :
  quiescent w -> step w o w' -> hcs w' !! h = Some hc' ->
  (exists hc, hcs w !! h = Some hc) \/
  (hcs w !! h = None /\ lastCheck hc' = clock w).
Proof.
  intros Hq Hstep Hh'.
  destruct (hcs w !! h) as [hc|] eqn:Hh; [ left; by exists hc | ].
  right. split; [ done | ].
  pose proof (step_heap_effect w o w' Hq Hstep) as Heff.
  assert (Hsame : hcs w' = hcs w -> lastCheck hc' = clock w)
    by (intros Heq; congruence).
  assert (Hupd : forall h0 hc0 x, hcs w !! h0 = Some hc0 ->
                   hcs w' = <[h0 := x]> (hcs w) -> lastCheck hc' = clock w).
  { intros h0 hc0 x Hh0 Heq. rewrite Heq in Hh'.
    rewrite lookup_insert_ne in Hh' by congruence. congruence. }
  assert (Hstop : forall h0 hc0, hcs w !! h0 = Some hc0 ->
                   hcs w' = hcs_after_stop h0 hc0 (hcs w) -> lastCheck hc' = clock w).
  { intros h0 hc0 Hh0. unfold hcs_after_stop.
    destruct (hc_stopCh hc0); [ by apply (Hupd h0 hc0) | by apply Hsame ]. }
  assert (Hnew : forall m cm,
            hcs w' = <[fresh (dom (hcs w)) := new_hc m cm (clock w)]> (hcs w) ->
            lastCheck hc' = clock w).
  { intros m cm Heq. rewrite Heq in Hh'.
    destruct (decide (fresh (dom (hcs w)) = h)) as [<-|Hne].
    - rewrite lookup_insert_eq in Hh'. by injection Hh' as <-.
    - rewrite lookup_insert_ne in Hh' by done. congruence. }
  destruct o; cbn [heap_effect] in *;
    try (apply Hsame; by destruct Heff as [? ?]).
  - destruct Heff as [_ Heq]. by eapply Hnew.
  - destruct Heff as [_ Heq]. by eapply Hnew.
  - destruct Heff as (cm0 & Hc0 & [(_ & _ & Heq) | (_ & h0 & hc0 & _ & Hh0 & _ & Heq)]);
      [ by apply Hsame | by eapply Hstop ].
  - destruct Heff as (cm0 & b & _ & _ & Heq). by apply Hsame.
  - destruct Heff as (cm0 & b & _ & _ & Heq). by apply Hsame.
  - destruct choice.
    + apply Hsame. by destruct Heff as [? ?].
    + destruct Heff as (cm0 & b & _ & _ & Heq). by apply Hsame.
  - destruct Heff as (hc0 & Hh0 & _ & Heq). by eapply Hstop.
  - destruct Heff as (hc0 & Hh0 & _ & Heq). by eapply Hupd.
  - destruct choice.
    + apply Hsame. by destruct Heff as [? ?].
    + destruct Heff as (hc0 & Hh0 & _ & Heq). by eapply Hupd.
Qed.

(** ** Ownership *)

Lemma reachable_owned w :
  reachable w ->
  forall c cm h, cms w !! c = Some cm -> healthChecker cm = Some h ->
                 exists hc, hcs w !! h = Some hc /\ connMgr hc = Some c.
Proof.
  induction 1 as [t0 net | w o w' Hr IH Hstep]; intros c cm' h Hc' Hh'.
  - cbn in Hc'. by rewrite lookup_empty in Hc'.
  - pose proof (reachable_quiescent w Hr) as Hq.
    destruct (step_cm_origin w o w' c cm' Hq Hstep Hc')
      as [(cm & Hc & Heq) | (Hnone & m & Hnew & _ & Hhc)].
    + rewrite Heq in Hh'. destruct (IH c cm h Hc Hh') as (hc & Hh & Hback).
      destruct (step_hc_fields w o w' h hc Hq Hstep Hh) as (hc1 & Hh1 & _ & Hc1 & _).
      exists hc1. split; [ done | congruence ].
    + rewrite Hnew in Hh'. injection Hh' as <-.
      eexists. split; [ exact Hhc | done ].
Qed.

(** X4: every connection manager owns a health checker of its own.  In a
    reachable state the health checker [GetHealthChecker()] returns is
    allocated and is bound to that very manager, so two managers never
    share a health checker. *)
Theorem owned_health_checker_points_back w c cm :
  reachable w -> cms w !! c = Some cm ->
  exists h hc,
    GetHealthChecker c w = Ret (Some h) w /\
    hcs w !! h = Some hc /\ connMgr hc = Some c /\
    (forall c2 cm2, cms w !! c2 = Some cm2 -> healthChecker cm2 = Some h -> c2 = c).
Proof.
  intros Hr Hc.
  destruct (quiescent_cm w c cm (reachable_quiescent w Hr) Hc)
    as (_ & h & hc0 & Hh & _).
  destruct (reachable_owned w Hr c cm h Hc Hh) as (hc & Hhc & Hback).
  exists h, hc. split; [ by rewrite (GetHealthChecker_eq w c cm Hc), Hh | ].
  split; [ done | ]. split; [ done | ].
  intros c2 cm2 Hc2 Hh2.
  destruct (reachable_owned w Hr c2 cm2 h Hc2 Hh2) as (hc2 & Hhc2 & Hback2).
  congruence.
Qed.

(** ** What each operation adds to the trace *)

Lemma step_trace_effect w o w' :
  quiescent w -> step w o w' ->
  network w' = network w /\ clock w <= clock w' /\
  exists tr k, trace w' = trace w ++ tr /\ dials w' = (dials w + k)%nat /\
               trace_effect w o tr k.
Proof.
  intros Hq Hstep.
  pose proof (step_world_effect w o w' Hq Hstep) as Heff.
  destruct Hstep as [Hadm _].
  assert (Hnone : w' = w ->
            network w' = network w /\ clock w <= clock w' /\
            exists tr k, trace w' = trace w ++ tr /\ dials w' = (dials w + k)%nat /\
                         (k = 0%nat /\ tr = [])).
  { intros ->. split; [ done | ]. split; [ lia | ]. exists [], 0%nat.
    by rewrite app_nil_r, Nat.add_0_r. }
  assert (Hprobe : forall c,
    (exists cm b k tr, cms w !! c = Some cm /\
        probe_trace (network w) (dials w) tr k /\
        w' = w_with_cms (<[c := cm_with_connected b cm]> (cms w))
               (w_with_dials (dials w + k)%nat (w_with_trace (trace w ++ tr) w))) ->
    network w' = network w /\ clock w <= clock w' /\
    exists tr k, trace w' = trace w ++ tr /\ dials w' = (dials w + k)%nat /\
                 probe_trace (network w) (dials w) tr k).
  { intros c (cm & b & k & tr & _ & Htr & ->). cbn.
    split; [ done | ]. split; [ lia | ]. by exists tr, k. }
  assert (Hcheck : forall h,
    (exists hc, hcs w !! h = Some hc /\
        w' = w_with_trace (trace w ++ check_events w hc)
               (w_with_hcs (<[h := hc_with_healthy (check_verdict w hc)
                                     (hc_with_lastCheck (clock w) hc)]> (hcs w)) w)) ->
    network w' = network w /\ clock w <= clock w' /\
    exists tr k, trace w' = trace w ++ tr /\ dials w' = (dials w + k)%nat /\
                 (k = 0%nat /\ exists hc, hcs w !! h = Some hc /\ tr = check_events w hc)).
  { intros h (hc & Hh & ->). cbn.
    split; [ done | ]. split; [ lia | ]. exists (check_events w hc), 0%nat.
    rewrite Nat.add_0_r. repeat split; try done. by exists hc. }
  assert (Hquiet : forall w0 : World,
    w' = w0 -> network w0 = network w -> clock w <= clock w0 ->
    trace w0 = trace w -> dials w0 = dials w ->
    network w' = network w /\ clock w <= clock w' /\
    exists tr k, trace w' = trace w ++ tr /\ dials w' = (dials w + k)%nat /\
                 (k = 0%nat /\ tr = [])).
  { intros w0 -> Hn Hc Ht Hd. split; [ done | ]. split; [ done | ].
    exists [], 0%nat. by rewrite app_nil_r, Nat.add_0_r. }
  destruct o; cbn [world_effect trace_effect admissible] in *;
    try (by apply Hnone).
  - eapply Hquiet; [ exact Heff | done | cbn; lia | done | done ].
  - eapply Hquiet; [ exact Heff | done | cbn; lia | done | done ].
  - eapply Hquiet; [ exact Heff | done | cbn; lia | done | done ].
  - destruct Heff as (cm & Hc & [[_ ->] | (_ & h & hc & _ & _ & ->)]).
    + by apply Hnone.
    + eapply Hquiet; [ reflexivity | done | cbn; lia | done | done ].
  - destruct Heff as (cm & Hc & ->). cbn.
    split; [ done | ]. split; [ lia | ].
    eexists _, 0%nat. rewrite Nat.add_0_r. repeat split; try done. by exists cm.
  - by apply (Hprobe c).
  - destruct choice.
    + destruct Heff as (_ & _ & ->).
      eapply Hquiet; [ reflexivity | done | cbn; lia | done | done ].
    + by apply (Hprobe c).
  - eapply Hquiet; [ exact Heff | done | cbn; lia | done | done ].
  - destruct Heff as (hc & Hh & ->).
    eapply Hquiet; [ reflexivity | done | cbn; lia | done | done ].
  - by apply (Hcheck h).
  - destruct choice.
    + destruct Heff as (_ & _ & ->).
      eapply Hquiet; [ reflexivity | done | cbn; lia | done | done ].
    + by apply (Hcheck h).
  - eapply Hquiet; [ exact Heff | done | cbn; lia | done | done ].
Qed.

Lemma count_events_none p (tr : list Event) :
  Forall (fun e => p e = false) tr -> count_events p tr = 0%nat.
Proof.
  unfold count_events. induction 1 as [|e tr He _ IH]; [ done | ].
  cbn. by rewrite He.
Qed.

Lemma check_events_no_dial w hc : count_events is_dial (check_events w hc) = 0%nat.
Proof.
  unfold check_events, verdict_events. by destruct (check_verdict w hc).
Qed.

(** X5: only probe cycles dial.  Across any sequence of operations that
    contains no probe cycle - check cycles, forced reconnections, Start,
    Stop, constructors, accessors - no dial is made. *)
Theorem only_probe_cycles_dial w os w' :
  reachable w -> steps w os w' ->
  forallb (fun o => negb (is_probe_cycle o)) os = true ->
  dials w' = dials w /\ dial_count w' = dial_count w.
Proof.
  intros Hr Hs. induction Hs as [w | w o w1 os w2 Hstep _ IH]; intros Hall.
  - done.
  - cbn [forallb] in Hall. apply andb_true_iff in Hall as [Ho Hos].
    apply negb_true_iff in Ho.
    destruct (IH (reachable_step w o w1 Hr Hstep) Hos) as [-> ->].
    destruct (step_trace_effect w o w1 (reachable_quiescent w Hr) Hstep)
      as (_ & _ & tr & k & Htr & Hd & Heff).
    unfold dial_count. rewrite Hd, Htr, count_events_app.
    destruct o; cbn [trace_effect is_probe_cycle] in *; try discriminate;
      try (destruct Heff as [-> ->]; cbn; lia).
    + destruct Heff as (-> & cm & _ & ->). cbn. lia.
    + destruct choice; [ | discriminate ].
      destruct Heff as [-> ->]. cbn. lia.
    + destruct Heff as (-> & hc & _ & ->). rewrite check_events_no_dial. lia.
    + destruct choice.
      * destruct Heff as [-> ->]. cbn. lia.
      * destruct Heff as (-> & hc & _ & ->). rewrite check_events_no_dial. lia.
Qed.

(** ** Time stamps *)

Lemma reachable_timely w :
  reachable w -> forall h hc, hcs w !! h = Some hc -> lastCheck hc <= clock w.
Proof.
  induction 1 as [t0 net | w o w' Hr IH Hstep]; intros h hc' Hh'.
  - cbn in Hh'. by rewrite lookup_empty in Hh'.
  - pose proof (reachable_quiescent w Hr) as Hq.
    destruct (step_trace_effect w o w' Hq Hstep) as (_ & Hclock & _).
    destruct (step_hc_origin w o w' h hc' Hq Hstep Hh') as [[hc Hh] | [_ Hnew]].
    + destruct (step_hc_fields w o w' h hc Hq Hstep Hh)
        as (hc1 & Hh1 & _ & _ & _ & _ & _ & _ & [Hl | Hl]).
      * assert (hc1 = hc') as -> by congruence. rewrite Hl.
        specialize (IH h hc Hh). lia.
      * assert (hc1 = hc') as -> by congruence. lia.
    + lia.
Qed.

(** X6: the time of the last check is never ahead of the clock and never
    moves back.  Provided the clock does not run backwards, [GetLastCheck()]
    is at most the current time in every reachable state, and across any
    sequence of operations it can only grow. *)
Theorem lastCheck_never_ahead_never_back w os w' h hc :
  reachable w -> steps w os w' -> hcs w !! h = Some hc ->
  exists hc',
    hcs w' !! h = Some hc' /\
    GetLastCheck h w' = Ret (lastCheck hc') w' /\
    lastCheck hc <= lastCheck hc' /\ lastCheck hc' <= clock w'.
Proof.
  intros Hr Hs. revert hc.
  induction Hs as [w | w o w1 os w2 Hstep _ IH]; intros hc Hh.
  - exists hc. split; [ done | ].
    destruct (quiescent_hc w h hc (reachable_quiescent w Hr) Hh) as (Hmu & _).
    split; [ by apply (GetLastCheck_updated w h hc) | ].
    split; [ lia | by apply (reachable_timely w Hr h) ].
  - pose proof (reachable_quiescent w Hr) as Hq.
    destruct (step_hc_fields w o w1 h hc Hq Hstep Hh)
      as (hc1 & Hh1 & _ & _ & _ & _ & _ & _ & Hl).
    destruct (IH (reachable_step w o w1 Hr Hstep) hc1 Hh1)
      as (hc2 & Hh2 & Hget & Hle & Hclock).
    exists hc2. split; [ done | ]. split; [ done | ]. split; [ | done ].
    pose proof (reachable_timely w Hr h hc Hh). lia.
Qed.

(** ** Accounting *)







(** ** Sockets *)

Lemma sockets_balanced_quiet net n (tr : list Event) :
  Forall (fun e => is_probe_event e = false) tr ->
  sockets_balanced net n None tr = Some n.
Proof.
  induction 1 as [|e tr He _ IH]; [ done | ].
  cbn [sockets_balanced]. by destruct e.
Qed.

Lemma check_events_quiet w hc :
  Forall (fun e => is_probe_event e = false) (check_events w hc).
Proof.
  unfold check_events, verdict_events.
  destruct (check_verdict w hc); by repeat constructor.
Qed.

(** X8: no socket is leaked.  In every reachable state the trace, read
    against the network's answers, shows every successful dial followed at
    once by the close of the connection it returned, no other close, and
    as many dials as the dial counter says. *)
Theorem every_socket_is_closed w :
  reachable w ->
  sockets_balanced (network w) 0 None (trace w) = Some (dials w) /\
  dial_count w = dials w.
Proof.
  induction 1 as [t0 net | w o w' Hr [IHb IHd] Hstep]; [ done | ].
  destruct (step_trace_effect w o w' (reachable_quiescent w Hr) Hstep)
    as (Hnet & _ & tr & k & Htr & Hd & Heff).
  unfold dial_count in *. rewrite Hnet, Htr, Hd, count_events_app, IHd.
  rewrite (sockets_balanced_app _ _ _ _ _ _ IHb).
  assert (Hquiet : forall tr0 : list Event,
            Forall (fun e => is_probe_event e = false) tr0 ->
            sockets_balanced (network w) (dials w) None tr0 = Some (dials w + 0)%nat /\
            (dials w + count_events is_dial tr0)%nat = (dials w + 0)%nat).
  { intros tr0 Hq. rewrite sockets_balanced_quiet, Nat.add_0_r by done.
    split; [ done | ]. rewrite count_events_none; [ lia | ].
    eapply Forall_impl; [ exact Hq | ]. by intros []. }
  assert (Hprobe : probe_trace (network w) (dials w) tr k ->
            sockets_balanced (network w) (dials w) None tr = Some (dials w + k)%nat /\
            (dials w + count_events is_dial tr)%nat = (dials w + k)%nat).
  { intros (_ & -> & Hb). by split. }
  destruct o; cbn [trace_effect] in Heff;
    try (destruct Heff as [-> ->]; by apply Hquiet).
  - destruct Heff as (-> & cm & _ & ->). apply Hquiet. by repeat constructor.
  - by apply Hprobe.
  - destruct choice; [ destruct Heff as [-> ->]; by apply Hquiet | by apply Hprobe ].
  - destruct Heff as (-> & hc & _ & ->). apply Hquiet, check_events_quiet.
  - destruct choice; [ destruct Heff as [-> ->]; by apply Hquiet | ].
    destruct Heff as (-> & hc & _ & ->). apply Hquiet, check_events_quiet.
Qed.

(** ** How operations compose *)

(** X9: a probe cycle overrides a forced reconnection.  The flag a probe
    cycle leaves does not depend on the flag it finds: probing right after
    [ForceReconnect()] gives the same flag, the same heap of connection
    managers and the same number of dials as probing without it. *)
Theorem probe_cycle_overrides_ForceReconnect w c cm :
  cms w !! c = Some cm -> cm_mu cm = mutex_free ->
  exists b w1 w2 w3,
    checkConnection c w = Ret tt w1 /\ IsConnected c w1 = Ret b w1 /\
    ForceReconnect c w = Ret tt w2 /\ IsConnected c w2 = Ret false w2 /\
    checkConnection c w2 = Ret tt w3 /\ IsConnected c w3 = Ret b w3 /\
    cms w3 = cms w1 /\ dials w3 = dials w1.
Proof.
  intros Hc Hmu.
  pose proof (ForceReconnect_eq w c cm Hc Hmu) as Hforce.
  set (w2 := w_with_trace
               (trace w ++ [EvIncrementReconnectionCount (cm_metrics cm);
                            EvLogInfo "Forced reconnection"])
               (w_with_cms (<[c := cm_with_connected false cm]> (cms w)) w)) in *.
  assert (Hc2 : cms w2 !! c = Some (cm_with_connected false cm))
    by (cbn; apply lookup_insert_eq).
  assert (Hflag : forall (st : World) b x,
            cms st = <[c := cm_with_connected b x]> (cms w) -> cm_mu x = mutex_free ->
            IsConnected c st = Ret b st).
  { intros st b x Hst Hx.
    apply (IsConnected_updated st c (cm_with_connected b x));
      [ rewrite Hst; apply lookup_insert_eq | done | done ]. }
  destruct (nameServerAddrs cm) as [|a0 a] eqn:Ha.
  - exists true. eexists. exists w2. eexists.
    split; [ by apply checkConnection_empty | ].
    split; [ by apply (Hflag _ true cm) | ].
    split; [ exact Hforce | ].
    split; [ by apply (Hflag _ false cm) | ].
    split; [ by apply (checkConnection_empty w2 c (cm_with_connected false cm)) | ].
    split.
    { apply (Hflag _ true (cm_with_connected false cm)); [ | done ].
      cbn. by rewrite insert_insert_eq. }
    split; [ cbn; by rewrite insert_insert_eq | done ].
  - destruct (first_success_or_all_fail (network w) (nameServerAddrs cm) (dials w))
      as [Hall | (pre & x & post & conn & Hx & Hpre & Hok)].
    + exists false. eexists. exists w2. eexists.
      split; [ apply checkConnection_all_fail; try done; by rewrite Ha | ].
      split; [ by apply (Hflag _ false cm) | ].
      split; [ exact Hforce | ].
      split; [ by apply (Hflag _ false cm) | ].
      split.
      { apply (checkConnection_all_fail w2 c (cm_with_connected false cm));
          try done. cbn. by rewrite Ha. }
      split.
      { apply (Hflag _ false (cm_with_connected false cm)); [ | done ].
        cbn. by rewrite insert_insert_eq. }
      split; [ cbn; by rewrite insert_insert_eq | done ].
    + exists true. eexists. exists w2. eexists.
      split; [ by eapply checkConnection_first_success | ].
      split; [ by apply (Hflag _ true cm) | ].
      split; [ exact Hforce | ].
      split; [ by apply (Hflag _ false cm) | ].
      split.
      { by apply (checkConnection_first_success w2 c (cm_with_connected false cm)
                    pre x post conn). }
      split.
      { apply (Hflag _ true (cm_with_connected false cm)); [ | done ].
        cbn. by rewrite insert_insert_eq. }
      split; [ cbn; by rewrite insert_insert_eq | done ].
Qed.

(** X10: the order of the two [Stop()] calls does not matter.  Stopping a
    running connection manager stops its health checker, after which the
    health checker's own [Stop()] changes nothing; stopping the health
    checker first and the manager second ends in the very same state.
    Neither order makes a call to the metrics sink, the logger or the
    network. *)
Theorem Stop_order_is_irrelevant w c cm :
  reachable w -> cms w !! c = Some cm -> cm_stopCh cm = ChanOpen ->
  exists h w1 w2,
    healthChecker cm = Some h /\
    ConnectionManager_Stop c w = Ret tt w1 /\
    HealthChecker_Stop h w1 = Ret tt w1 /\
    HealthChecker_Stop h w = Ret tt w2 /\
    ConnectionManager_Stop c w2 = Ret tt w1 /\
    trace w1 = trace w /\ dials w1 = dials w.
Proof.
  intros Hr Hc Hch.
  destruct (quiescent_cm w c cm (reachable_quiescent w Hr) Hc)
    as (Hmu & h & hc & Hh & Hhc & Hmu').
  exists h. eexists. eexists.
  split; [ done | ].
  split; [ by apply (ConnectionManager_Stop_open w c cm h hc) | ].
  assert (Hafter : exists hc1, hcs_after_stop h hc (hcs w) !! h = Some hc1 /\
                     hc_mu hc1 = mutex_free /\ hc_stopCh hc1 = ChanClosed).
  { unfold hcs_after_stop. destruct (hc_stopCh hc) eqn:E.
    - exists (hc_stopped hc). by rewrite lookup_insert_eq.
    - by exists hc. }
  destruct Hafter as (hc1 & Hh1 & Hmu1 & Hch1).
  split; [ by apply (HealthChecker_Stop_closed _ h hc1) | ].
  split; [ by apply HealthChecker_Stop_eq | ].
  split; [ | done ].
  rewrite (ConnectionManager_Stop_open _ c cm h hc1) by done.
  apply Ret_ext; [ done | ]. apply world_ext; try done.
  cbn [hcs w_with_hcs w_with_cms].
  unfold hcs_after_stop at 1. by rewrite Hch1.
Qed.

(** ** The loops *)

Lemma remove_first_count p (gs : list Goroutine) :
  existsb p gs = true ->
  length (List.filter p (remove_first p gs)) = pred (length (List.filter p gs)).
Proof.
  induction gs as [|g gs IH]; [ discriminate | ].
  cbn [existsb remove_first List.filter].
  destruct (p g) eqn:Hp; cbn [orb]; [ done | ].
  intros H. cbn [List.filter]. rewrite Hp. by apply IH.
Qed.

(** X11: the life of a loop.  [Start()] spawns one more loop in every
    state - it has no guard against a second call or a stopped component
    and changes nothing else.  A loop cannot return while the stop channel
    is open; once it is closed, the stop case returns, one loop is gone,
    and no cycle is run on the way out. *)
Theorem loops_start_unguarded_and_return_after_Stop x w ch :
  stop_channel w x = Some ch ->
  (exists w1, Start x w = Ret tt w1 /\
              loop_count x w1 = S (loop_count x w) /\
              cms w1 = cms w /\ hcs w1 = hcs w /\ trace w1 = trace w) /\
  (ch = ChanOpen -> exec (OpLoop x CaseStop) w = Blocked) /\
  (ch = ChanClosed -> (0 < loop_count x w)%nat ->
   exists w2, exec (OpLoop x CaseStop) w = Ret tt w2 /\
              loop_count x w2 = pred (loop_count x w) /\
              cms w2 = cms w /\ hcs w2 = hcs w /\
              trace w2 = trace w /\ dials w2 = dials w).
Proof.
  intros Hch.
  assert (Hpos : (0 < loop_count x w)%nat -> existsb (loop_of x) (goroutines w) = true).
  { unfold loop_count. intros Hlt.
    destruct (existsb (loop_of x) (goroutines w)) eqn:E; [ done | ].
    exfalso. revert Hlt E. generalize (goroutines w) as gs.
    induction gs as [|g gs IH]; cbn; [ lia | ].
    destruct (loop_of x g); cbn; [ discriminate | exact IH ]. }
  split; [ | split ].
  - destruct x as [c|h]; cbn [Start].
    + eexists. split; [ reflexivity | ].
      unfold loop_count. cbn [goroutines w_with_goroutines cms hcs trace loop_of].
      rewrite List.filter_app, length_app. cbn. rewrite Nat.eqb_refl. cbn.
      split; [ lia | done ].
    + eexists. split; [ reflexivity | ].
      unfold loop_count. cbn [goroutines w_with_goroutines cms hcs trace loop_of].
      rewrite List.filter_app, length_app. cbn. rewrite Nat.eqb_refl. cbn.
      split; [ lia | done ].
  - intros ->.
    destruct x as [c|h]; cbn [stop_channel OpLoop exec] in *;
      unfold loop_turn, scheduled, bind.
    + destruct (existsb _ _); [ | done ].
      cbn [ConnectionManager_run]. unfold bind, get_cm.
      destruct (cms w !! c) as [cm|]; [ | discriminate ].
      cbn in Hch. injection Hch as ->. done.
    + destruct (existsb _ _); [ | done ].
      cbn [HealthChecker_run]. unfold bind, get_hc.
      destruct (hcs w !! h) as [hc|]; [ | discriminate ].
      cbn in Hch. injection Hch as ->. done.
  - intros -> Hlt. specialize (Hpos Hlt).
    destruct x as [c|h]; cbn [stop_channel OpLoop exec loop_of] in *;
      unfold loop_turn, scheduled, bind; rewrite Hpos.
    + cbn [ConnectionManager_run]. unfold bind, get_cm.
      destruct (cms w !! c) as [cm|]; [ | discriminate ].
      cbn in Hch. injection Hch as ->. cbn.
      eexists. split; [ reflexivity | ].
      unfold loop_count. cbn. split; [ by apply remove_first_count | done ].
    + cbn [HealthChecker_run]. unfold bind, get_hc.
      destruct (hcs w !! h) as [hc|]; [ | discriminate ].
      cbn in Hch. injection Hch as ->. cbn.
      eexists. split; [ reflexivity | ].
      unfold loop_count. cbn. split; [ by apply remove_first_count | done ].
Qed.

(** ** Locks *)

Lemma ConnectionManager_Stop_split c w :
  ConnectionManager_Stop c w = (let* already := Stop_signal c in Stop_finish c already) w.
Proof.
  unfold ConnectionManager_Stop, Stop_signal, Stop_finish, bind.
  destruct (cm_Lock c w) as [[] w1| |]; [ | reflexivity | reflexivity ].
  destruct (get_cm c w1) as [cm w2| |] eqn:Hget; [ | reflexivity | reflexivity ].
  unfold get_cm in Hget. destruct (cms w1 !! c) as [cm0|] eqn:Hc; [ | discriminate ].
  injection Hget as -> ->.
  destruct (cm_stopCh cm) eqn:Hch; cbn [chan_ready chan_close]; [ | reflexivity ].
  unfold modify_cm, ret, get_cm. rewrite Hc. cbn [cms w_with_cms].
  rewrite lookup_insert_eq. reflexivity.
Qed.

(** X12: [Stop()] and a check cycle can block each other for good.  Take a
    running manager with endpoints and its own health checker.  When a
    check cycle has done its bookkeeping (it holds the health checker's
    lock) and [Stop()] has closed the stop channel (it holds the manager's
    lock), the rest of [Stop()] waits for the health checker's lock at
    line 53 and the rest of the check cycle waits for the manager's lock at
    line 205: the two locks are taken in opposite orders. *)
Theorem Stop_and_check_cycle_can_deadlock w c cm h hc :
  cms w !! c = Some cm -> cm_mu cm = mutex_free -> cm_stopCh cm = ChanOpen ->
  healthChecker cm = Some h -> nameServerAddrs cm <> [] ->
  hcs w !! h = Some hc -> hc_mu hc = mutex_free -> connMgr hc = Some c ->
  exists hc_read w1 w2,
    performHealthCheck h w =
      (let* hc0 := check_bookkeeping h in check_decision h hc0) w /\
    check_bookkeeping h w = Ret hc_read w1 /\
    ConnectionManager_Stop c w1 =
      (let* already := Stop_signal c in Stop_finish c already) w1 /\
    Stop_signal c w1 = Ret false w2 /\
    Stop_finish c false w2 = Blocked /\
    check_decision h hc_read w2 = Blocked.
Proof.
  intros Hc Hmu Hch Hhc Hne Hh Hmu' Hback.
  destruct cm as [m o a mu b ch]; cbn in Hmu, Hch, Hhc, Hne; subst mu ch o.
  destruct hc as [m' o' mu' b' t e ch' tk]; cbn in Hmu', Hback; subst mu' o'.
  destruct a as [|a0 a]; [ done | ].
  do 3 eexists.
  split; [ apply performHealthCheck_split | ].
  split; [ by apply check_bookkeeping_eq | ].
  split; [ apply ConnectionManager_Stop_split | ].
  split; [ | split ].
  - unfold Stop_signal. mrun. reflexivity.
  - unfold Stop_finish. mrun. reflexivity.
  - unfold check_decision. mrun. cbn [length Nat.ltb Nat.leb]. by repeat mstep.
Qed.

(** X13: a check cycle needs the manager's lock only to read the flag.
    While a writer holds the lock of the bound connection manager, a check
    cycle of a manager without endpoints still completes when
    [errorCount < 5] - the endpoint list is read without the lock - but it
    blocks when the verdict is unhealthy (the warning reads the flag), and
    it blocks whenever the manager has endpoints. *)
Theorem check_cycle_reads_endpoints_without_lock w h hc c cm :
  hcs w !! h = Some hc -> hc_mu hc = mutex_free -> connMgr hc = Some c ->
  cms w !! c = Some cm -> writer (cm_mu cm) = true ->
  (nameServerAddrs cm = [] -> errorCount hc < 5 ->
   exists w', performHealthCheck h w = Ret tt w' /\
              IsHealthy h w' = Ret true w' /\ cms w' = cms w) /\
  (nameServerAddrs cm = [] -> 5 <= errorCount hc ->
   performHealthCheck h w = Blocked) /\
  (nameServerAddrs cm <> [] -> performHealthCheck h w = Blocked).
Proof.
  intros Hh Hmu Hback Hc Hw.
  destruct cm as [m o a [wr rd] b ch]; cbn in Hw; subst wr.
  destruct hc as [m' o' mu' b' t e ch' tk]; cbn in Hmu, Hback; subst mu' o'.
  cbn [nameServerAddrs errorCount].
  split; [ | split ].
  - intros -> He. apply Z.ltb_lt in He.
    exists (w_with_trace
              (trace w ++ [EvIncrementHealthCheckCount m';
                           EvUpdateLastHealthCheck m';
                           EvSetHealthy m' true])
              (w_with_hcs
                 (<[h := {| hc_metrics := m'; connMgr := Some c; hc_mu := mutex_free;
                            healthy := true; lastCheck := clock w; errorCount := e;
                            hc_stopCh := ch'; checkTicker := tk |}]> (hcs w)) w)).
    split; [ | split; [ | done ] ].
    + mrun. cbn [length Nat.ltb Nat.leb]. rewrite He. repeat mstep. wdone.
    + by eapply IsHealthy_updated; [ cbn; apply lookup_insert_eq | | ].
  - intros -> He. assert ((e <? 5) = false) as He' by (apply Z.ltb_ge; lia).
    unfold performHealthCheck. mrun. cbn [length Nat.ltb Nat.leb]. rewrite He'.
    by repeat mstep.
  - intros Hne. destruct a as [|a0 a]; [ done | ].
    unfold performHealthCheck. mrun. cbn [length Nat.ltb Nat.leb]. by repeat mstep.
Qed.


(** ** The error count as an [int] *)

(** X15: [GetErrorCount()] converts the 64-bit counter to [int].  Where
    [int] has 64 bits the value is returned as it is; where it has 32 bits
    the result is the counter reduced modulo 2^32 into the 32-bit range,
    and equals the counter exactly when the counter fits in 32 bits. *)
Theorem GetErrorCount_conversion w h hc :
  hcs w !! h = Some hc -> writer (hc_mu hc) = false ->
  - 2 ^ 63 <= errorCount hc < 2 ^ 63 ->
  GetErrorCount 64 h w = Ret (errorCount hc) w /\
  exists v,
    GetErrorCount 32 h w = Ret v w /\
    - 2 ^ 31 <= v < 2 ^ 31 /\
    (v - errorCount hc) mod 2 ^ 32 = 0 /\
    (v = errorCount hc <-> - 2 ^ 31 <= errorCount hc < 2 ^ 31).
Proof.
  intros Hh Hw Hrange.
  rewrite !(GetErrorCount_eq _ w h hc Hh Hw).
  set (x := errorCount hc) in *.
  split.
  - f_equal. unfold to_int. change (64 - 1) with 63.
    rewrite Z.mod_small by lia. lia.
  - exists (to_int 32 x). split; [ done | ].
    unfold to_int. change (32 - 1) with 31.
    pose proof (Z.mod_pos_bound (x + 2 ^ 31) (2 ^ 32) ltac:(lia)) as Hb.
    pose proof (Z.div_mod (x + 2 ^ 31) (2 ^ 32) ltac:(lia)) as Hd.
    split; [ lia | ]. split.
    + replace ((x + 2 ^ 31) mod 2 ^ 32 - 2 ^ 31 - x)
        with (- ((x + 2 ^ 31) / 2 ^ 32) * 2 ^ 32) by lia.
      apply Z.mod_mul. lia.
    + split.
      * intros Heq. lia.
      * intros Hfit. rewrite Z.mod_small by lia. lia.
Qed.

(** ** Across the two components *)

(** X16: a check cycle has no memory.  The verdict depends on the
    manager's flag and the error count only, not on the previous verdict
    or on time: a second cycle right after the first returns the same
    verdict, and the health-check counter has grown by two. *)
Theorem check_cycle_has_no_memory w h hc :
  hcs w !! h = Some hc -> hc_mu hc = mutex_free -> cm_readable w hc ->
  exists b w1 w2,
    performHealthCheck h w = Ret tt w1 /\ IsHealthy h w1 = Ret b w1 /\
    performHealthCheck h w1 = Ret tt w2 /\ IsHealthy h w2 = Ret b w2 /\
    health_check_count (hc_metrics hc) w2 = S (S (health_check_count (hc_metrics hc) w)).
Proof.
  intros Hh Hmu Hcm.
  pose proof (performHealthCheck_eq w h hc Hh Hmu Hcm) as Hrun1.
  set (hc1 := hc_with_healthy (check_verdict w hc) (hc_with_lastCheck (clock w) hc)) in *.
  set (w1 := w_with_trace (trace w ++ check_events w hc)
               (w_with_hcs (<[h := hc1]> (hcs w)) w)) in *.
  assert (Hh1 : hcs w1 !! h = Some hc1) by (cbn; apply lookup_insert_eq).
  assert (Hcm1 : cm_readable w1 hc1) by exact Hcm.
  assert (Hv : check_verdict w1 hc1 = check_verdict w hc) by reflexivity.
  pose proof (performHealthCheck_eq w1 h hc1 Hh1 Hmu Hcm1) as Hrun2.
  exists (check_verdict w hc), w1. eexists.
  split; [ exact Hrun1 | ].
  split; [ by apply (IsHealthy_updated w1 h hc1) | ].
  split; [ exact Hrun2 | ].
  split.
  - eapply IsHealthy_updated; [ cbn; apply lookup_insert_eq | done | ].
    cbn. exact Hv.
  - unfold health_check_count. cbn [trace w_with_trace w_with_hcs].
    change (trace w1) with (trace w ++ check_events w hc).
    rewrite !count_events_app. unfold check_events, verdict_events.
    rewrite Hv. change (hc_metrics hc1) with (hc_metrics hc).
    destruct (check_verdict w hc); cbn; rewrite Nat.eqb_refl; cbn; lia.
Qed.

(** X17: a forced reconnection shows in the next check cycle.  For a
    manager with endpoints, the check cycle that follows
    [ForceReconnect()] reports unhealthy and counts one error; for a
    manager without endpoints the forced reconnection has no effect on the
    verdict, which stays [errorCount < 5]. *)
Theorem ForceReconnect_then_check_cycle w c cm h hc :
  cms w !! c = Some cm -> cm_mu cm = mutex_free ->
  hcs w !! h = Some hc -> hc_mu hc = mutex_free -> connMgr hc = Some c ->
  exists w1 w2,
    ForceReconnect c w = Ret tt w1 /\
    performHealthCheck h w1 = Ret tt w2 /\
    (nameServerAddrs cm <> [] ->
     IsHealthy h w2 = Ret false w2 /\
     health_check_errors (hc_metrics hc) w2 = S (health_check_errors (hc_metrics hc) w)) /\
    (nameServerAddrs cm = [] ->
     IsHealthy h w2 = Ret (errorCount hc <? 5) w2).
Proof.
  intros Hc Hmu Hh Hmu' Hback.
  pose proof (ForceReconnect_eq w c cm Hc Hmu) as Hforce.
  set (w1 := w_with_trace
               (trace w ++ [EvIncrementReconnectionCount (cm_metrics cm);
                            EvLogInfo "Forced reconnection"])
               (w_with_cms (<[c := cm_with_connected false cm]> (cms w)) w)) in *.
  assert (Hc1 : cms w1 !! c = Some (cm_with_connected false cm))
    by (cbn; apply lookup_insert_eq).
  assert (Hh1 : hcs w1 !! h = Some hc) by exact Hh.
  assert (Hcm1 : cm_readable w1 hc).
  { intros c' Hc'. assert (c' = c) as -> by congruence.
    eexists. split; [ exact Hc1 | ]. cbn. by rewrite Hmu. }
  pose proof (performHealthCheck_eq w1 h hc Hh1 Hmu' Hcm1) as Hrun.
  exists w1. eexists. split; [ exact Hforce | ]. split; [ exact Hrun | ].
  assert (Hverdict : check_verdict w1 hc =
            if (0 <? length (nameServerAddrs cm))%nat then false
            else (errorCount hc <? 5)).
  { unfold check_verdict. by rewrite Hback, Hc1. }
  split.
  - intros Hne. destruct (nameServerAddrs cm) as [|a0 a] eqn:Ha; [ done | ].
    cbn [length Nat.ltb Nat.leb] in Hverdict.
    split.
    + eapply IsHealthy_updated; [ cbn; apply lookup_insert_eq | done | ].
      cbn. exact Hverdict.
    + unfold health_check_errors. cbn [trace w_with_trace w_with_hcs w_with_cms w1].
      rewrite !count_events_app. unfold check_events, verdict_events.
      rewrite Hverdict. cbn. rewrite Nat.eqb_refl. cbn. lia.
  - intros Ha. rewrite Ha in Hverdict. cbn [length Nat.ltb Nat.leb] in Hverdict.
    eapply IsHealthy_updated; [ cbn; apply lookup_insert_eq | done | ].
    cbn. exact Hverdict.
Qed.

(** X18: health follows reachability.  For a manager with endpoints and a
    health checker bound to it, a probe cycle followed by a check cycle
    leaves [IsHealthy()] true exactly when the dial of some endpoint
    succeeds. *)
Theorem probe_then_check_reports_reachability w c cm h hc :
  cms w !! c = Some cm -> cm_mu cm = mutex_free -> nameServerAddrs cm <> [] ->
  hcs w !! h = Some hc -> hc_mu hc = mutex_free -> connMgr hc = Some c ->
  exists b w1 w2,
    checkConnection c w = Ret tt w1 /\
    performHealthCheck h w1 = Ret tt w2 /\
    IsConnected c w2 = Ret b w2 /\ IsHealthy h w2 = Ret b w2 /\
    (b = true <->
     exists i a conn, nameServerAddrs cm !! i = Some a /\
                      network w (dials w + i)%nat a = DialOk conn).
Proof.
  intros Hc Hmu Hne Hh Hmu' Hback.
  assert (Hgen : forall b w1,
            checkConnection c w = Ret tt w1 ->
            cms w1 = <[c := cm_with_connected b cm]> (cms w) ->
            hcs w1 = hcs w ->
            exists w2,
              performHealthCheck h w1 = Ret tt w2 /\
              IsConnected c w2 = Ret b w2 /\ IsHealthy h w2 = Ret b w2).
  { intros b w1 Hrun Hcs Hhs.
    assert (Hc1 : cms w1 !! c = Some (cm_with_connected b cm))
      by (rewrite Hcs; apply lookup_insert_eq).
    assert (Hh1 : hcs w1 !! h = Some hc) by (by rewrite Hhs).
    assert (Hcm1 : cm_readable w1 hc).
    { intros c' Hc'. assert (c' = c) as -> by congruence.
      eexists. split; [ exact Hc1 | ]. cbn. by rewrite Hmu. }
    pose proof (performHealthCheck_eq w1 h hc Hh1 Hmu' Hcm1) as Hcheck.
    eexists. split; [ exact Hcheck | ].
    assert (Hverdict : check_verdict w1 hc = b).
    { unfold check_verdict. rewrite Hback, Hc1. cbn.
      destruct (nameServerAddrs cm); [ done | reflexivity ]. }
    split.
    - by apply (IsConnected_updated _ c (cm_with_connected b cm)).
    - eapply IsHealthy_updated; [ cbn; apply lookup_insert_eq | done | ].
      cbn. exact Hverdict. }
  destruct (first_success_or_all_fail (network w) (nameServerAddrs cm) (dials w))
    as [Hall | (pre & x & post & conn & Hx & Hpre & Hok)].
  - pose proof (checkConnection_all_fail w c cm Hc Hmu Hne Hall) as Hrun.
    destruct (Hgen false _ Hrun eq_refl eq_refl) as (w2 & Hcheck & Hconn & Hhealthy).
    exists false. eexists. exists w2.
    split; [ exact Hrun | ]. split; [ exact Hcheck | ].
    split; [ exact Hconn | ]. split; [ exact Hhealthy | ].
    split; [ discriminate | ].
    intros (i & a & conn & Hi & Hok). exfalso. by eapply all_fail_not_ok.
  - pose proof (checkConnection_first_success w c cm pre x post conn
                  Hc Hmu Hx Hpre Hok) as Hrun.
    destruct (Hgen true _ Hrun eq_refl eq_refl) as (w2 & Hcheck & Hconn & Hhealthy).
    exists true. eexists. exists w2.
    split; [ exact Hrun | ]. split; [ exact Hcheck | ].
    split; [ exact Hconn | ]. split; [ exact Hhealthy | ].
    split; [ | done ]. intros _. exists (length pre), x, conn.
    split; [ | done ]. rewrite Hx. by apply list_lookup_middle.
Qed.

(** ** Stop reaches the health checker *)




(** * The further properties at concrete states *)

Lemma run_ops_reachable os : forall w w',
  reachable w -> run_ops os w = Some w' -> reachable w'.
Proof.
  intros w w' Hr H. eapply steps_reachable; [ exact Hr | by apply run_ops_steps ].
Qed.

Lemma scenario_reachable os : runs os = true -> reachable (scenario os).
Proof.
  unfold runs, scenario.
  destruct (run_ops os (empty_world 0 sample_net)) as [w|] eqn:E; [ | discriminate ].
  intros _. eapply run_ops_reachable; [ apply reachable_init | exact E ].
Qed.


(** X2 on a manager that is probed, forced to reconnect and stopped. *)
Lemma configuration_is_immutable_witness :
  exists cm',
    cms (scenario [OpNewConnectionManager 1%nat three_endpoints; OpCheckConnection 0%nat;
                   OpForceReconnect 0%nat; OpCMStop 0%nat]) !! 0%nat = Some cm' /\
    nameServerAddrs cm' = three_endpoints /\ healthChecker cm' = Some 0%nat.
Proof.
  destruct (configuration_is_immutable
              (sample_world three_endpoints)
              [OpCheckConnection 0%nat; OpForceReconnect 0%nat; OpCMStop 0%nat]
              (scenario [OpNewConnectionManager 1%nat three_endpoints;
                         OpCheckConnection 0%nat; OpForceReconnect 0%nat;
                         OpCMStop 0%nat]))
    as [Hcm _].
  - apply sample_world_reachable.
  - apply run_ops_steps. vm_compute. reflexivity.
  - destruct (Hcm 0%nat (new_cm 1%nat three_endpoints (Some 0%nat)))
      as (cm' & Hc & Ha & _ & Hh); [ reflexivity | ].
    exists cm'. exact (conj Hc (conj Ha Hh)).
Defined.

(** X3 on a probed manager across a check cycle, a Stop and the passing
    of time. *)
Lemma connected_written_only_by_probe_and_ForceReconnect_witness :
  IsConnected 0%nat
    (scenario [OpNewConnectionManager 1%nat three_endpoints; OpCheckConnection 0%nat;
               OpPerformHealthCheck 0%nat; OpCMStop 0%nat; OpAdvance 5])
  = Ret true
      (scenario [OpNewConnectionManager 1%nat three_endpoints; OpCheckConnection 0%nat;
                 OpPerformHealthCheck 0%nat; OpCMStop 0%nat; OpAdvance 5]).
Proof.
  refine (proj2 (connected_written_only_by_probe_and_ForceReconnect
            (scenario [OpNewConnectionManager 1%nat three_endpoints;
                       OpCheckConnection 0%nat])
            [OpPerformHealthCheck 0%nat; OpCMStop 0%nat; OpAdvance 5]
            _ 0%nat
            (cm_with_connected true (new_cm 1%nat three_endpoints (Some 0%nat)))
            _ _ _ _)).
  - apply scenario_reachable. vm_compute. reflexivity.
  - apply run_ops_steps. vm_compute. reflexivity.
  - reflexivity.
  - vm_compute. reflexivity.
Defined.

(** X4 on the second of two managers, beside a health checker constructed
    on its own. *)
Lemma owned_health_checker_points_back_witness :
  exists h hc,
    GetHealthChecker 1%nat
      (scenario [OpNewConnectionManager 1%nat []; OpNewConnectionManager 2%nat three_endpoints;
                 OpNewHealthChecker 3%nat (Some 0%nat)])
    = Ret (Some h)
        (scenario [OpNewConnectionManager 1%nat []; OpNewConnectionManager 2%nat three_endpoints;
                   OpNewHealthChecker 3%nat (Some 0%nat)]) /\
    hcs (scenario [OpNewConnectionManager 1%nat []; OpNewConnectionManager 2%nat three_endpoints;
                   OpNewHealthChecker 3%nat (Some 0%nat)]) !! h = Some hc /\
    connMgr hc = Some 1%nat.
Proof.
  destruct (owned_health_checker_points_back
              (scenario [OpNewConnectionManager 1%nat [];
                         OpNewConnectionManager 2%nat three_endpoints;
                         OpNewHealthChecker 3%nat (Some 0%nat)])
              1%nat (new_cm 2%nat three_endpoints (Some 1%nat)))
    as (h & hc & Hget & Hh & Hback & _).
  - apply scenario_reachable. vm_compute. reflexivity.
  - vm_compute. reflexivity.
  - exists h, hc. exact (conj Hget (conj Hh Hback)).
Defined.

(** X5 across a check cycle, a forced reconnection and a Stop. *)
Lemma only_probe_cycles_dial_witness :
  dials (scenario [OpNewConnectionManager 1%nat three_endpoints; OpPerformHealthCheck 0%nat;
                   OpForceReconnect 0%nat; OpCMStop 0%nat])
  = dials (sample_world three_endpoints).
Proof.
  refine (proj1 (only_probe_cycles_dial
            (sample_world three_endpoints)
            [OpPerformHealthCheck 0%nat; OpForceReconnect 0%nat; OpCMStop 0%nat]
            _ _ _ _)).
  - apply sample_world_reachable.
  - apply run_ops_steps. vm_compute. reflexivity.
  - reflexivity.
Defined.

(** X6 on a check cycle seven time units after construction, looked at
    three time units later. *)
Lemma lastCheck_never_ahead_never_back_witness :
  exists hc',
    hcs (scenario [OpNewConnectionManager 1%nat []; OpAdvance 7;
                   OpPerformHealthCheck 0%nat; OpAdvance 3]) !! 0%nat = Some hc' /\
    0 <= lastCheck hc' /\
    lastCheck hc' <= clock (scenario [OpNewConnectionManager 1%nat []; OpAdvance 7;
                                      OpPerformHealthCheck 0%nat; OpAdvance 3]).
Proof.
  destruct (lastCheck_never_ahead_never_back
              (sample_world [])
              [OpAdvance 7; OpPerformHealthCheck 0%nat; OpAdvance 3]
              (scenario [OpNewConnectionManager 1%nat []; OpAdvance 7;
                         OpPerformHealthCheck 0%nat; OpAdvance 3])
              0%nat (new_hc 1%nat (Some 0%nat) 0))
    as (hc' & Hh & _ & Hle & Hclock).
  - apply sample_world_reachable.
  - apply run_ops_steps. vm_compute. reflexivity.
  - reflexivity.
  - exists hc'. exact (conj Hh (conj Hle Hclock)).
Defined.


(** X8 after two probe cycles. *)
Lemma every_socket_is_closed_witness :
  dial_count (scenario [OpNewConnectionManager 1%nat three_endpoints;
                        OpCheckConnection 0%nat; OpCheckConnection 0%nat])
  = dials (scenario [OpNewConnectionManager 1%nat three_endpoints;
                     OpCheckConnection 0%nat; OpCheckConnection 0%nat]).
Proof.
  refine (proj2 (every_socket_is_closed _ _)).
  apply scenario_reachable. vm_compute. reflexivity.
Defined.

(** X9 on the sample manager with three endpoints. *)
Lemma probe_cycle_overrides_ForceReconnect_witness :
  exists b w1 w2 w3,
    checkConnection 0%nat (sample_world three_endpoints) = Ret tt w1 /\
    IsConnected 0%nat w1 = Ret b w1 /\
    ForceReconnect 0%nat (sample_world three_endpoints) = Ret tt w2 /\
    checkConnection 0%nat w2 = Ret tt w3 /\
    IsConnected 0%nat w3 = Ret b w3.
Proof.
  destruct (probe_cycle_overrides_ForceReconnect (sample_world three_endpoints) 0%nat
              (new_cm 1%nat three_endpoints (Some 0%nat)))
    as (b & w1 & w2 & w3 & H1 & H2 & H3 & _ & H4 & H5 & _);
    [ reflexivity | reflexivity | ].
  exists b, w1, w2, w3.
  exact (conj H1 (conj H2 (conj H3 (conj H4 H5)))).
Defined.

(** X10 on the sample manager. *)
Lemma Stop_order_is_irrelevant_witness :
  exists w1 w2,
    ConnectionManager_Stop 0%nat (sample_world three_endpoints) = Ret tt w1 /\
    HealthChecker_Stop 0%nat (sample_world three_endpoints) = Ret tt w2 /\
    ConnectionManager_Stop 0%nat w2 = Ret tt w1.
Proof.
  destruct (Stop_order_is_irrelevant (sample_world three_endpoints) 0%nat
              (new_cm 1%nat three_endpoints (Some 0%nat)))
    as (h & w1 & w2 & Hh & H1 & _ & H2 & H3 & _).
  - apply sample_world_reachable.
  - reflexivity.
  - reflexivity.
  - injection Hh as <-. exists w1, w2.
    exact (conj H1 (conj H2 H3)).
Defined.

(** X11 on a manager that was never stopped: its loop cannot return. *)
Lemma loops_start_unguarded_and_return_after_Stop_witness :
  exec (OpLoop (OfConnectionManager 0%nat) CaseStop)
       (scenario [OpNewConnectionManager 1%nat []; OpCMStart 0%nat])
  = Blocked.
Proof.
  refine (proj1 (proj2 (loops_start_unguarded_and_return_after_Stop
            (OfConnectionManager 0%nat)
            (scenario [OpNewConnectionManager 1%nat []; OpCMStart 0%nat])
            ChanOpen _)) _).
  - vm_compute. reflexivity.
  - reflexivity.
Defined.

(** X12 on the sample manager with three endpoints. *)
Lemma Stop_and_check_cycle_can_deadlock_witness :
  exists hc_read w1 w2,
    check_bookkeeping 0%nat (sample_world three_endpoints) = Ret hc_read w1 /\
    Stop_signal 0%nat w1 = Ret false w2 /\
    Stop_finish 0%nat false w2 = Blocked /\
    check_decision 0%nat hc_read w2 = Blocked.
Proof.
  destruct (Stop_and_check_cycle_can_deadlock (sample_world three_endpoints)
              0%nat (new_cm 1%nat three_endpoints (Some 0%nat))
              0%nat (new_hc 1%nat (Some 0%nat) 0))
    as (hc_read & w1 & w2 & _ & H1 & _ & H2 & H3 & H4);
    [ reflexivity | reflexivity | reflexivity | reflexivity | discriminate
    | reflexivity | reflexivity | reflexivity | ].
  exists hc_read, w1, w2. exact (conj H1 (conj H2 (conj H3 H4))).
Defined.

(** X13 on a manager without endpoints whose lock a writer holds. *)
Lemma check_cycle_reads_endpoints_without_lock_witness :
  exists w', performHealthCheck 0%nat locked_world = Ret tt w' /\
             IsHealthy 0%nat w' = Ret true w'.
Proof.
  destruct (check_cycle_reads_endpoints_without_lock locked_world
              0%nat (new_hc 1%nat (Some 0%nat) 0)
              0%nat (cm_with_mu {| writer := true; readers := 0 |}
                       (new_cm 1%nat [] (Some 0%nat))))
    as (Hgo & _);
    [ reflexivity | reflexivity | reflexivity | reflexivity | reflexivity | ].
  destruct Hgo as (w' & Hrun & Hhealthy & _); [ reflexivity | reflexivity | ].
  exists w'. exact (conj Hrun Hhealthy).
Defined.


(** X15 on an error count of 2^31: unchanged as a 64-bit [int], not as a
    32-bit one. *)
Lemma GetErrorCount_conversion_witness :
  GetErrorCount 64 0%nat overflowing_world = Ret 2147483648 overflowing_world /\
  exists v, GetErrorCount 32 0%nat overflowing_world = Ret v overflowing_world /\
            v <> 2147483648.
Proof.
  destruct (GetErrorCount_conversion overflowing_world 0%nat
              {| hc_metrics := 1%nat; connMgr := Some 0%nat; hc_mu := mutex_free;
                 healthy := false; lastCheck := 0; errorCount := 2147483648;
                 hc_stopCh := ChanOpen; checkTicker := NewTicker (10 * Second) |})
    as (H64 & v & H32 & Hrange & _ & Hfit);
    [ reflexivity | reflexivity | cbn; lia | ].
  split; [ exact H64 | ].
  exists v. split; [ exact H32 | ].
  cbn [errorCount] in Hfit. intros Heq. apply Hfit in Heq. lia.
Defined.

(** X16 on the sample manager after a successful probe. *)
Lemma check_cycle_has_no_memory_witness :
  exists b w1 w2,
    performHealthCheck 0%nat (probed_world three_endpoints) = Ret tt w1 /\
    IsHealthy 0%nat w1 = Ret b w1 /\
    performHealthCheck 0%nat w1 = Ret tt w2 /\
    IsHealthy 0%nat w2 = Ret b w2.
Proof.
  destruct (check_cycle_has_no_memory (probed_world three_endpoints) 0%nat
              (new_hc 1%nat (Some 0%nat) 0))
    as (b & w1 & w2 & H1 & H2 & H3 & H4 & _).
  - reflexivity.
  - reflexivity.
  - intros c [= <-].
    exists (cm_with_connected true (new_cm 1%nat three_endpoints (Some 0%nat))).
    split; reflexivity.
  - exists b, w1, w2. exact (conj H1 (conj H2 (conj H3 H4))).
Defined.

(** X17 on the sample manager after a successful probe. *)
Lemma ForceReconnect_then_check_cycle_witness :
  exists w1 w2,
    ForceReconnect 0%nat (probed_world three_endpoints) = Ret tt w1 /\
    performHealthCheck 0%nat w1 = Ret tt w2 /\
    IsHealthy 0%nat w2 = Ret false w2.
Proof.
  destruct (ForceReconnect_then_check_cycle (probed_world three_endpoints)
              0%nat (cm_with_connected true (new_cm 1%nat three_endpoints (Some 0%nat)))
              0%nat (new_hc 1%nat (Some 0%nat) 0))
    as (w1 & w2 & H1 & H2 & Hne & _);
    [ reflexivity | reflexivity | reflexivity | reflexivity | reflexivity | ].
  destruct Hne as [H3 _]; [ discriminate | ].
  exists w1, w2. exact (conj H1 (conj H2 H3)).
Defined.

(** X18 on the sample manager with three endpoints. *)
Lemma probe_then_check_reports_reachability_witness :
  exists b w1 w2,
    checkConnection 0%nat (sample_world three_endpoints) = Ret tt w1 /\
    performHealthCheck 0%nat w1 = Ret tt w2 /\
    IsConnected 0%nat w2 = Ret b w2 /\ IsHealthy 0%nat w2 = Ret b w2.
Proof.
  destruct (probe_then_check_reports_reachability (sample_world three_endpoints)
              0%nat (new_cm 1%nat three_endpoints (Some 0%nat))
              0%nat (new_hc 1%nat (Some 0%nat) 0))
    as (b & w1 & w2 & H1 & H2 & H3 & H4 & _);
    [ reflexivity | reflexivity | discriminate | reflexivity | reflexivity
    | reflexivity | ].
  exists b, w1, w2. exact (conj H1 (conj H2 (conj H3 H4))).
Defined.

